(** * Suma de arreglos: sequential and OpenMP-parallel array addition

    A shallow embedding of the two programs of the repository,

    - [main.cpp] (module [Main]): N = 1000, [schedule(static, 100)],
      previews of 10 elements, a verification loop;
    - [SolucionSumaArreglosParalela_Oliver_Viveros.cpp] (module
      [Solucion]): n = 10, default schedule, no verification loop.

    Both are a single [main].  The embedding is a state-and-error monad
    over a [world] holding the arrays, the output stream, the random
    engine and the number of clock readings taken so far.  Array
    accesses are checked: an access outside the array has no result
    ([None]), which stands for undefined behaviour. *)

From Stdlib Require Import ZArith String List Lia Bool Arith Permutation.
Import ListNotations.

Set Implicit Arguments.

(** ** 32-bit [int] *)

Definition INT_MIN : Z := (-2147483648)%Z.
Definition INT_MAX : Z := 2147483647%Z.

(** Two's complement wrap-around of a mathematical integer into [int]. *)
Definition wrap_int (z : Z) : Z :=
  ((z + 2 ^ 31) mod 2 ^ 32 - 2 ^ 31)%Z.

(** [a + b] on [int] operands.  Where the sum does not fit an [int] the
    C++ standard leaves the result undefined; it wraps here, as it does
    on the usual targets.  [C9_sumas_en_rango] shows the sums of the
    programs always fit. *)
Definition add_int (a b : Z) : Z := wrap_int (a + b).

Definition in_int (z : Z) : Prop := (INT_MIN <= z <= INT_MAX)%Z.

(** ** Arrays of [int] with checked indexing *)

Definition array := list Z.

Fixpoint upd_nth (i : nat) (x : Z) (l : array) : array :=
  match l, i with
  | [], _ => []
  | _ :: t, O => x :: t
  | h :: t, S j => h :: upd_nth j x t
  end.

(** [d[i]] as an rvalue: no result outside the array. *)
Definition array_get (l : array) (i : nat) : option Z := nth_error l i.

(** [d[i] = x]: no result outside the array. *)
Definition array_set (l : array) (i : nat) (x : Z) : option array :=
  if i <? length l then Some (upd_nth i x l) else None.

(** ** The output stream

    [cout] is modelled by the sequence of things inserted into it and
    by the two formatting flags the programs touch.  A floating-point
    insertion records the flags in force, not the rendered digits. *)

Inductive item : Type :=
| Text (s : string)
| Num (z : Z)
| Real (is_fixed : bool) (prec : nat) (ms : Z)
| Endl.

Record ostream : Type := mk_ostream {
  items : list item;
  fixed : bool;
  precision : nat
}.

Definition cout_init : ostream := mk_ostream [] false 6.

(** ** What the C++ runtime provides

    [mt19937], [uniform_int_distribution<int>] and
    [high_resolution_clock] belong to the standard library.  They are
    taken as parameters, with the one property of the distribution the
    standard guarantees: a draw from [a, b] lies in [a, b].  The k-th
    reading of the clock is [clock_now k], in ticks. *)

Class Runtime : Type := {
  mt19937 : Type;
  uniform_int_distribution : Z -> Z -> mt19937 -> Z * mt19937;
  uniform_int_distribution_range :
    forall (a b : Z) (g : mt19937),
      (a <= b)%Z -> (a <= fst (uniform_int_distribution a b g) <= b)%Z;
  clock_now : nat -> Z
}.

Class EqDec (T : Type) : Type :=
  eq_dec : forall x y : T, {x = y} + {x <> y}.

(** ** The machine: worlds, the monad, the statements *)

Section Machine.

Context {RT : Runtime} {var : Type} {var_eq : EqDec var}.

Record world : Type := mk_world {
  mem : var -> array;
  cout : ostream;
  gen : mt19937;
  clock_reads : nat
}.

(** A computation either goes wrong ([None]) or returns a value and
    the next world. *)
Definition M (X : Type) : Type := world -> option (X * world).

Definition ret {X} (x : X) : M X := fun w => Some (x, w).

Definition bind {X Y} (m : M X) (k : X -> M Y) : M Y :=
  fun w => match m w with
           | Some (x, w') => k x w'
           | None => None
           end.

Definition set_mem (w : world) (v : var) (l : array) : world :=
  mk_world (fun u => if eq_dec u v then l else mem w u)
           (cout w) (gen w) (clock_reads w).

Definition set_cout (w : world) (o : ostream) : world :=
  mk_world (mem w) o (gen w) (clock_reads w).

(** [d[i]] read from array variable [d]. *)
Definition load (d : var) (i : nat) : M Z :=
  fun w => match array_get (mem w d) i with
           | Some x => Some (x, w)
           | None => None
           end.

(** [d[i] = x]. *)
Definition store (d : var) (i : nat) (x : Z) : M unit :=
  fun w => match array_set (mem w d) i x with
           | Some l => Some (tt, set_mem w d l)
           | None => None
           end.

(** [dist(gen)] for [uniform_int_distribution<int> dist(a, b)]. *)
Definition dist (a b : Z) : M Z :=
  fun w => let (x, g) := uniform_int_distribution a b (gen w) in
           Some (x, mk_world (mem w) (cout w) g (clock_reads w)).

(** [chrono::high_resolution_clock::now()]. *)
Definition now : M Z :=
  fun w => Some (clock_now (clock_reads w),
                 mk_world (mem w) (cout w) (gen w) (S (clock_reads w))).

(** [cout << it] for a string, an [int] or [endl]. *)
Definition put (it : item) : M unit :=
  fun w => let o := cout w in
           Some (tt, set_cout w (mk_ostream (items o ++ [it])
                                            (fixed o) (precision o))).

(** [cout << t] for a [double]: rendered under the current flags. *)
Definition put_double (t : Z) : M unit :=
  fun w => let o := cout w in
           Some (tt, set_cout w
                       (mk_ostream (items o ++ [Real (fixed o) (precision o) t])
                                   (fixed o) (precision o))).

(** [cout << fixed]. *)
Definition put_fixed : M unit :=
  fun w => let o := cout w in
           Some (tt, set_cout w (mk_ostream (items o) true (precision o))).

(** [cout << setprecision(p)]. *)
Definition put_setprecision (p : nat) : M unit :=
  fun w => let o := cout w in
           Some (tt, set_cout w (mk_ostream (items o) (fixed o) p)).

End Machine.

Arguments world {RT} var.
Arguments M {RT} var X.

Declare Scope monad_scope.
Delimit Scope monad_scope with monad.
Notation "x <- m ;; k" := (bind m (fun x => k))
  (at level 61, m at next level, right associativity) : monad_scope.
Notation "m ;; k" := (bind m (fun _ => k))
  (at level 61, right associativity) : monad_scope.
Open Scope monad_scope.

Section Loops.

Context {RT : Runtime} {var : Type} {var_eq : EqDec var}.

(** The body run once for each index of [idx], in that order. *)
Fixpoint for_each (idx : list nat) (body : nat -> M var unit) : M var unit :=
  match idx with
  | [] => ret tt
  | i :: rest => body i ;; for_each rest body
  end.

(** [for (int i = lo; i < hi; i++) body], the body not touching [i]. *)
Definition for_ (lo hi : nat) (body : nat -> M var unit) : M var unit :=
  for_each (seq lo (hi - lo)) body.

(** The same loop with [break] and a local variable the body may
    assign: the body returns the local's new value and [true] to leave
    the loop.  [count] is the number of iterations left. *)
Fixpoint for_break_from {L : Type} (i count : nat)
         (body : nat -> L -> M var (L * bool)) (local : L) : M var L :=
  match count with
  | O => ret local
  | S c => r <- body i local ;;
           if snd r then ret (fst r)
           else for_break_from (S i) c body (fst r)
  end.

Definition for_break {L : Type} (lo hi : nat)
           (body : nat -> L -> M var (L * bool)) (local : L) : M var L :=
  for_break_from lo (hi - lo) body local.

(** The timing report, the same five lines in both programs
    (main.cpp 125-127, the second program 95-97). *)
Definition imprime_tiempos (tiempo_secuencial tiempo_paralelo : Z)
  : M var unit :=
  put_fixed ;; put_setprecision 4 ;;
  put (Text "\nTiempo secuencial (ms): ") ;;
  put_double tiempo_secuencial ;; put Endl ;;
  put (Text "Tiempo paralelo   (ms): ") ;;
  put_double tiempo_paralelo ;; put Endl.

(** The statement [c[i] = a[i] + b[i]]. *)
Definition sum_at (a b c : var) (i : nat) : M var unit :=
  x <- load a i ;;
  y <- load b i ;;
  store c i (add_int x y).

End Loops.

(** ** OpenMP worksharing

    [#pragma omp parallel for] hands every iteration of the loop to one
    thread of a team.  Each thread runs its own iterations in order; the
    iterations of different threads interleave in an order the runtime
    chooses.  The body of an iteration is taken as one step: distinct
    iterations write distinct cells and only read cells nobody writes,
    so the loop has no data race. *)

(** Iterations of chunk number [k] when [n] iterations are cut into
    chunks of [c]. *)
Definition chunk_iterations (n c k : nat) : list nat :=
  seq (k * c) (Nat.min c (n - k * c)).

Definition num_chunks (n c : nat) : nat := (n + c - 1) / c.

(** [schedule(static, c)] with a team of [T]: chunks are dealt to the
    threads round-robin in thread order. *)
Definition thread_chunks (n c T t : nat) : list nat :=
  filter (fun k => k mod T =? t) (seq 0 (num_chunks n c)).

Definition thread_iterations (n c T t : nat) : list nat :=
  flat_map (chunk_iterations n c) (thread_chunks n c T t).

Definition static_schedule (n c T : nat) : list (list nat) :=
  map (thread_iterations n c T) (seq 0 T).

(** [interleave works sigma]: [sigma] is an order in which the team can
    execute the work lists [works], one list per thread. *)
Inductive interleave : list (list nat) -> list nat -> Prop :=
| interleave_done :
    forall works, Forall (fun w => w = []) works -> interleave works []
| interleave_step :
    forall before i w after sigma,
      interleave (before ++ w :: after) sigma ->
      interleave (before ++ (i :: w) :: after) (i :: sigma).

(** The orders [schedule(static, c)] allows with [T] threads. *)
Definition omp_static (n c T : nat) (sigma : list nat) : Prop :=
  interleave (static_schedule n c T) sigma.

(** The orders any schedule allows: the work lists of the [T] threads
    hold each iteration of [0, n) once.  Without a [schedule] clause the
    choice of work lists is the implementation's. *)
Definition omp_any (n T : nat) (sigma : list nat) : Prop :=
  exists works, length works = T /\
                Permutation (concat works) (seq 0 n) /\
                interleave works sigma.

Section Worksharing.

Context {RT : Runtime} {var : Type} {var_eq : EqDec var}.

(** The parallel loop, run in the order [sigma] the runtime chose. *)
Definition omp_parallel_for (sigma : list nat) (body : nat -> M var unit)
  : M var unit :=
  for_each sigma body.

End Worksharing.

(** ** The team at the grain of memory accesses

    The statement [c[i] = a[i] + b[i]] is two reads and a write.  Here
    the threads of a team interleave at that grain: a thread is the
    list of iterations it still has to run and what it has read so far
    for the first of them; a step of the team is one access by one
    thread.  This is the semantics against which taking an iteration
    as one step is justified (see [equipo_seguro] below). *)

Inductive fase : Type :=
| Inicio
| LeidoA (x : Z)
| LeidoAB (x y : Z).

Definition hilo : Type := (fase * list nat)%type.

(** The array [l] after the stores [ws], made in order. *)
Definition aplica (ws : list (nat * Z)) (l : array) : array :=
  fold_left (fun l p => upd_nth (fst p) (snd p) l) ws l.

Section Equipo.

Context {RT : Runtime} {var : Type} {var_eq : EqDec var}.

Variables a b c : var.

Definition equipo : Type := (list hilo * world var)%type.

(** One access by one thread. *)
Inductive paso_hilo : hilo -> world var -> hilo -> world var -> Prop :=
| paso_lee_a : forall i resto w x,
    load a i w = Some (x, w) ->
    paso_hilo (Inicio, i :: resto) w (LeidoA x, i :: resto) w
| paso_lee_b : forall i resto w x y,
    load b i w = Some (y, w) ->
    paso_hilo (LeidoA x, i :: resto) w (LeidoAB x y, i :: resto) w
| paso_escribe : forall i resto w w' x y,
    store c i (add_int x y) w = Some (tt, w') ->
    paso_hilo (LeidoAB x y, i :: resto) w (Inicio, resto) w'.

(** One step of the team: any one thread makes an access. *)
Inductive paso : equipo -> equipo -> Prop :=
| paso_de : forall antes h h' despues w w',
    paso_hilo h w h' w' ->
    paso (antes ++ h :: despues, w) (antes ++ h' :: despues, w').

(** [pasos k e e']: the team goes from [e] to [e'] in [k] steps. *)
Inductive pasos : nat -> equipo -> equipo -> Prop :=
| pasos_cero : forall e, pasos 0 e e
| pasos_mas : forall k e1 e2 e3,
    paso e1 e2 -> pasos k e2 e3 -> pasos (S k) e1 e3.

(** Every thread has run all its iterations. *)
Definition terminado (e : equipo) : Prop :=
  Forall (fun h : hilo => h = (Inicio, [])) (fst e).

(** The team at the start of the loop, one thread per work list. *)
Definition arranque (works : list (list nat)) (w : world var) : equipo :=
  (map (fun l => (Inicio, l)) works, w).

(** Accesses a thread, and the team, still have to make. *)
Definition medida_hilo (h : hilo) : nat :=
  3 * length (snd h) - match fst h with
                       | Inicio => 0
                       | LeidoA _ => 1
                       | LeidoAB _ _ => 2
                       end.

Definition medida (e : equipo) : nat :=
  list_sum (map medida_hilo (fst e)).

(** The iterations the threads still have to run. *)
Definition pendientes (e : equipo) : list nat :=
  concat (map snd (fst e)).

(** What holds of a team all along the loop over [0, n) started in
    [w0]: a thread's iterations are in range and what it has read is
    what [a] and [b] held at the start; only [c] has changed; a cell of
    [c] whose iteration nobody has left to run holds its sum. *)
Definition hilo_ok (n : nat) (w0 : world var) (h : hilo) : Prop :=
  Forall (fun i => i < n) (snd h) /\
  match fst h with
  | Inicio => True
  | LeidoA x =>
      exists i resto, snd h = i :: resto /\ nth_error (mem w0 a) i = Some x
  | LeidoAB x y =>
      exists i resto, snd h = i :: resto /\
                      nth_error (mem w0 a) i = Some x /\
                      nth_error (mem w0 b) i = Some y
  end.

Definition equipo_inv (n : nat) (w0 : world var) (e : equipo) : Prop :=
  (cout (snd e) = cout w0 /\ gen (snd e) = gen w0 /\
   clock_reads (snd e) = clock_reads w0 /\
   forall v, v <> c -> mem (snd e) v = mem w0 v) /\
  length (mem (snd e) c) = n /\
  Forall (hilo_ok n w0) (fst e) /\
  forall j, j < n ->
            In j (pendientes e) \/
            nth_error (mem (snd e) c) j =
            match nth_error (mem w0 a) j, nth_error (mem w0 b) j with
            | Some x, Some y => Some (add_int x y)
            | _, _ => None
            end.

(** A memory access: the load of a cell or the store of a value into a
    cell. *)
Inductive acceso : Type :=
| Lee (v : var) (i : nat)
| Escribe (v : var) (i : nat) (x : Z).

(** The access carried out on the memory; it yields the value read, or
    the value written. *)
Definition efectua (ac : acceso) : M var Z :=
  match ac with
  | Lee v i => load v i
  | Escribe v i x => store v i x ;; ret x
  end.

(** The next access of a thread in [c[i] = a[i] + b[i]], and the thread
    it becomes once the access has yielded a value. *)
Definition siguiente (h : hilo) : option (acceso * (Z -> hilo)) :=
  match h with
  | (_, []) => None
  | (Inicio, i :: resto) =>
      Some (Lee a i, fun x => (LeidoA x, i :: resto))
  | (LeidoA x, i :: resto) =>
      Some (Lee b i, fun y => (LeidoAB x y, i :: resto))
  | (LeidoAB x y, i :: resto) =>
      Some (Escribe c i (add_int x y), fun _ => (Inicio, resto))
  end.

(** [corrida log e e']: the team goes from [e] to [e'], and [log] is the
    list of the accesses carried out on the memory on the way, in
    order: each step is [efectua] of the access it logs. *)
Inductive corrida : list acceso -> equipo -> equipo -> Prop :=
| corrida_fin : forall e, corrida [] e e
| corrida_paso : forall antes h despues w ac k r w' e3 log,
    siguiente h = Some (ac, k) ->
    efectua ac w = Some (r, w') ->
    corrida log (antes ++ k r :: despues, w') e3 ->
    corrida (ac :: log) (antes ++ h :: despues, w) e3.

(** The stores into array [d] among the accesses [log]: cell and value,
    in order. *)
Fixpoint escrituras (d : var) (log : list acceso) : list (nat * Z) :=
  match log with
  | [] => []
  | Lee _ _ :: log' => escrituras d log'
  | Escribe v i x :: log' =>
      if eq_dec v d then (i, x) :: escrituras d log' else escrituras d log'
  end.

(** Every run of the team from [w] over the work lists [works] stays
    within [3 n] accesses, is done or can make one more, and when done
    is in a world satisfying [Q]; and some run to the end exists. *)
Definition equipo_llega_a (n : nat) (works : list (list nat))
           (w : world var) (Q : world var -> Prop) : Prop :=
  (forall k e,
      pasos k (arranque works w) e ->
      k <= 3 * n /\
      (terminado e \/ exists e', paso e e') /\
      (terminado e -> Q (snd e))) /\
  exists e, pasos (3 * n) (arranque works w) e /\ terminado e.

End Equipo.

(** ** main.cpp *)

Module Main.

Definition N : nat := 1000.
Definition chunk : nat := 100.
Definition mostrar : nat := 10.

(** [int A[N], B[N], C_seq[N], C_par[N];] *)
Inductive var : Type := A | B | C_seq | C_par.

#[global] Instance var_eq : EqDec var.
Proof. unfold EqDec. decide equality. Defined.

Section Program.

Context {RT : Runtime}.

(** String escapes are kept as the source spells them. *)
Definition imprimeArreglo (d : var) (nombre : string) : M var unit :=
  put (Text "Arreglo ") ;; put (Text nombre) ;;
  put (Text " (primeros ") ;; put (Num (Z.of_nat mostrar)) ;;
  put (Text "): ") ;;
  for_ 0 mostrar (fun x =>
    v <- load d x ;; put (Num v) ;; put (Text " ")) ;;
  put Endl.

(** Lines 53-59. *)
Definition inicializacion : M var unit :=
  for_ 0 N (fun i =>
    a <- dist 1 1000 ;; store A i a ;;
    b <- dist 1 1000 ;; store B i b ;;
    store C_seq i 0%Z ;;
    store C_par i 0%Z).

(** Lines 68-70. *)
Definition suma_secuencial : M var unit :=
  for_ 0 N (sum_at A B C_seq).

(** Lines 87-91; [sigma] is the order chosen by the runtime. *)
Definition suma_paralela (sigma : list nat) : M var unit :=
  omp_parallel_for sigma (sum_at A B C_par).

(** Lines 108-115, the body of the verification loop: the new value
    of [correcto], and whether the loop is left. *)
Definition compara (i : nat) (correcto : bool) : M var (bool * bool) :=
  s <- load C_seq i ;;
  p <- load C_par i ;;
  if negb (s =? p)%Z then
    put (Text "\n[ERROR] Diferencia en i=") ;; put (Num (Z.of_nat i)) ;;
    put (Text " C_seq=") ;; s' <- load C_seq i ;; put (Num s') ;;
    put (Text " C_par=") ;; p' <- load C_par i ;; put (Num p') ;;
    put Endl ;;
    ret (false, true)
  else ret (correcto, false).

(** Lines 106-116; the result is the final value of [correcto]. *)
Definition verificacion : M var bool :=
  for_break 0 N compara true.

(** Lines 106-118: the verification loop and its status line. *)
Definition comprobacion : M var bool :=
  correcto <- verificacion ;;
  put (Text "\nVerificacion (C_seq == C_par): ") ;;
  put (Text (if (correcto : bool) then "OK" else "FALLO")) ;; put Endl ;;
  ret correcto.

(** Lines 102-129: previews, verification, timings, exit code. *)
Definition reporte (tiempo_secuencial tiempo_paralelo : Z) : M var Z :=
  imprimeArreglo A "A" ;;
  imprimeArreglo B "B" ;;
  imprimeArreglo C_par "C (paralelo)" ;;
  comprobacion ;;
  imprime_tiempos tiempo_secuencial tiempo_paralelo ;;
  ret 0%Z.

(** Lines 66-129: everything [main] does once the arrays are
    filled. *)
Definition calculo (sigma : list nat) : M var Z :=
  inicio_seq <- now ;;
  suma_secuencial ;;
  fin_seq <- now ;;
  let tiempo_secuencial := (fin_seq - inicio_seq)%Z in
  let pedazos := chunk in
  inicio_par <- now ;;
  suma_paralela sigma ;;
  fin_par <- now ;;
  let tiempo_paralelo := (fin_par - inicio_par)%Z in
  reporte tiempo_secuencial tiempo_paralelo.

Definition main (sigma : list nat) : M var Z :=
  put (Text "Sumando Arreglos en Paralelo (OpenMP)\n") ;;
  inicializacion ;;
  calculo sigma.

(** The four arrays have their declared length. *)
Definition wf (w : world var) : Prop :=
  forall v, length (mem w v) = N.

(** The world [main] starts in: the four arrays hold whatever the
    stack held ([stack]), nothing is printed, the engine is seeded
    from [random_device] ([seeded]). *)
Definition start (stack : var -> nat -> Z) (seeded : mt19937) : world var :=
  mk_world (fun v => map (stack v) (seq 0 N)) cout_init seeded 0.

End Program.

End Main.

(** ** SolucionSumaArreglosParalela_Oliver_Viveros.cpp *)

Module Solucion.

Definition n : nat := 10.

(** [vector<int> A(n), B(n), R(n), Rpar(n);] *)
Inductive var : Type := A | B | R | Rpar.

#[global] Instance var_eq : EqDec var.
Proof. unfold EqDec. decide equality. Defined.

(** [omp_set_num_threads(2)] *)
Definition num_threads : nat := 2.

Section Program.

Context {RT : Runtime}.

(** Lines 40-43. *)
Definition generacion : M var unit :=
  for_ 0 n (fun i =>
    a <- dist 1 1000 ;; store A i a ;;
    b <- dist 1 1000 ;; store B i b).

(** Lines 55-57. *)
Definition suma_secuencial : M var unit :=
  for_ 0 n (sum_at A B R).

(** Lines 68-71. *)
Definition suma_paralela (sigma : list nat) : M var unit :=
  omp_parallel_for sigma (sum_at A B Rpar).

(** The three printing loops of lines 80-90 have this shape. *)
Definition imprime (titulo : string) (d : var) : M var unit :=
  put (Text titulo) ;;
  for_ 0 n (fun i => v <- load d i ;; put (Num v) ;; put (Text " ")) ;;
  put Endl.

(** Lines 80-99. *)
Definition reporte (tiempo_secuencial tiempo_paralelo : Z) : M var Z :=
  imprime "Arreglo A: " A ;;
  imprime "Arreglo B: " B ;;
  imprime "Arreglo Resultado (Paralelo): " Rpar ;;
  imprime_tiempos tiempo_secuencial tiempo_paralelo ;;
  ret 0%Z.

(** Lines 53-99: everything [main] does once the vectors are
    filled. *)
Definition calculo (sigma : list nat) : M var Z :=
  inicio_seq <- now ;;
  suma_secuencial ;;
  fin_seq <- now ;;
  let tiempo_secuencial := (fin_seq - inicio_seq)%Z in
  inicio_par <- now ;;
  suma_paralela sigma ;;
  fin_par <- now ;;
  let tiempo_paralelo := (fin_par - inicio_par)%Z in
  reporte tiempo_secuencial tiempo_paralelo.

Definition main (sigma : list nat) : M var Z :=
  generacion ;;
  calculo sigma.

(** The four vectors have the length they were built with. *)
Definition wf (w : world var) : Prop :=
  forall v, length (mem w v) = n.

(** The four vectors are value-initialised, so full of zeros. *)
Definition start (seeded : mt19937) : world var :=
  mk_world (fun _ => repeat 0%Z n) cout_init seeded 0.

End Program.

End Solucion.

(** ** Reference points for the statements *)

(** What the contract of the summation asks for, written on lists:
    [R[i] = A[i] + B[i]]. *)
Definition suma_contrato (la lb : array) : array :=
  map (fun p => add_int (fst p) (snd p)) (combine la lb).

(** What a preview prints for the elements [l]. *)
Definition muestra (l : list Z) : list item :=
  flat_map (fun v => [Num v; Text " "]) l.

(** The generator's range. *)
Definition en_rango (v : Z) : Prop := (1 <= v <= 1000)%Z.

(** [i] is the first index of [0, n) at which the arrays differ, and
    they hold [s] and [p] there. *)
Definition primera_diferencia (n i : nat) (s p : Z) (ls lp : array) : Prop :=
  i < n /\
  nth_error ls i = Some s /\ nth_error lp i = Some p /\ s <> p /\
  (forall j, j < i -> nth_error ls j = nth_error lp j).

(** The arrays agree on [0, n). *)
Definition coinciden (n : nat) (ls lp : array) : Prop :=
  forall j, j < n -> nth_error ls j = nth_error lp j.

(** The stream [o] after the insertions [l]. *)
Definition emit (o : ostream) (l : list item) : ostream :=
  mk_ostream (items o ++ l) (fixed o) (precision o).

(** A preview line of main.cpp. *)
Definition vista (nombre : string) (l : array) : list item :=
  [Text "Arreglo "; Text nombre; Text " (primeros ";
   Num (Z.of_nat Main.mostrar); Text "): "]
    ++ muestra (firstn Main.mostrar l) ++ [Endl].

(** An array line of the second program. *)
Definition linea (titulo : string) (l : array) : list item :=
  [Text titulo] ++ muestra (firstn Solucion.n l) ++ [Endl].

(** The two timing lines, as both programs print them. *)
Definition lineas_tiempo (ts tp : Z) : list item :=
  [Text "\nTiempo secuencial (ms): "; Real true 4 ts; Endl;
   Text "Tiempo paralelo   (ms): "; Real true 4 tp; Endl].

(** Everything main.cpp prints, for the arrays it ends with, the
    verification lines [estado] and the two durations. *)
Definition salida_main (la lb lc : array) (estado : list item) (ts tp : Z)
  : list item :=
  [Text "Sumando Arreglos en Paralelo (OpenMP)\n"]
    ++ vista "A" la ++ vista "B" lb ++ vista "C (paralelo)" lc
    ++ estado ++ lineas_tiempo ts tp.

(** Everything the second program prints. *)
Definition salida_solucion (la lb lr : array) (ts tp : Z) : list item :=
  linea "Arreglo A: " la ++ linea "Arreglo B: " lb
    ++ linea "Arreglo Resultado (Paralelo): " lr
    ++ lineas_tiempo ts tp.

(** The verification status line. *)
Definition linea_estado (correcto : bool) : list item :=
  [Text "\nVerificacion (C_seq == C_par): ";
   Text (if correcto then "OK" else "FALLO"); Endl].

(** The report of the first difference. *)
Definition linea_error (i : nat) (s p : Z) : list item :=
  [Text "\n[ERROR] Diferencia en i="; Num (Z.of_nat i);
   Text " C_seq="; Num s; Text " C_par="; Num p; Endl].

(** What the verification of [ls] against [lp] on [0, n) must come to:
    the final [correcto] and the lines printed. *)
Definition veredicto (n : nat) (ls lp : array)
           (correcto : bool) (estado : list item) : Prop :=
  (coinciden n ls lp /\ correcto = true /\ estado = linea_estado true) \/
  (exists i s p, primera_diferencia n i s p ls lp /\ correcto = false /\
                 estado = linea_error i s p ++ linea_estado false).

(** ** A concrete runtime

    A linear congruential engine and a modular draw: one inhabitant of
    [Runtime], used to run the programs on actual inputs. *)

Definition lcg_next (g : Z) : Z := ((g * 1103515245 + 12345) mod 2 ^ 31)%Z.

Definition lcg_draw (a b g : Z) : Z * Z :=
  ((a + g mod (b - a + 1))%Z, lcg_next g).

Lemma lcg_draw_range :
  forall a b g : Z, (a <= b)%Z -> (a <= fst (lcg_draw a b g) <= b)%Z.
Proof.
  intros a b g Hab. unfold lcg_draw. cbn [fst].
  pose proof (Z.mod_pos_bound g (b - a + 1) ltac:(lia)). lia.
Qed.

Definition lcg_runtime : Runtime := {|
  mt19937 := Z;
  uniform_int_distribution := lcg_draw;
  uniform_int_distribution_range := lcg_draw_range;
  clock_now := fun k => (1000 * Z.of_nat k)%Z
|}.

(** ** Vocabulary of the statements *)

Section Vocabulary.

Context {RT : Runtime} {var : Type} {var_eq : EqDec var}.

(** [m] run in [w] goes through and ends in a result and a world
    satisfying [Q]. *)
Definition wp {X} (m : M var X) (Q : X -> world var -> Prop)
           (w : world var) : Prop :=
  exists x w', m w = Some (x, w') /\ Q x w'.

(** [w'] differs from [w] at most in the content of array [c]. *)
Definition solo_cambia (c : var) (w w' : world var) : Prop :=
  cout w' = cout w /\ gen w' = gen w /\ clock_reads w' = clock_reads w /\
  forall v, v <> c -> mem w' v = mem w v.

(** [w'] is [w] after printing [l], the stream flags untouched. *)
Definition imprimio (l : list item) (w w' : world var) : Prop :=
  mem w' = mem w /\ gen w' = gen w /\ clock_reads w' = clock_reads w /\
  cout w' = emit (cout w) l.

(** [w] is [w0] after printing [l] and leaving the flags at [f] and
    [p]. *)
Definition flujo (l : list item) (f : bool) (p : nat) (w0 w : world var)
  : Prop :=
  mem w = mem w0 /\ gen w = gen w0 /\ clock_reads w = clock_reads w0 /\
  cout w = mk_ostream (items (cout w0) ++ l) f p.

(** Two worlds that hold the same. *)
Definition mismo_mundo (w1 w2 : world var) : Prop :=
  cout w1 = cout w2 /\ gen w1 = gen w2 /\
  clock_reads w1 = clock_reads w2 /\ forall v, mem w1 v = mem w2 v.

(** What a run has printed, if it went through. *)
Definition impreso {X} (r : option (X * world var)) : option (list item) :=
  match r with
  | Some (_, w') => Some (items (cout w'))
  | None => None
  end.

(** [reporte] tells on the output whether the result [rs] agrees with
    the result [rp] on [0, n): of two worlds that differ in [rs] alone,
    in one of which the two results agree while in the other they do
    not, it runs through in both, and what it prints in the one is not
    what it prints in the other.  This is what printing a verification
    status comes to, whatever the wording of the status. *)
Definition informa_verificacion (bien : world var -> Prop)
           (reporte : M var Z) (rs rp : var) (n : nat) : Prop :=
  forall w1 w2 : world var,
    bien w1 -> bien w2 ->
    cout w1 = cout w2 ->
    (forall v, v <> rs -> mem w1 v = mem w2 v) ->
    coinciden n (mem w1 rs) (mem w1 rp) ->
    ~ coinciden n (mem w2 rs) (mem w2 rp) ->
    exists c1 w1' c2 w2',
      reporte w1 = Some (c1, w1') /\ reporte w2 = Some (c2, w2') /\
      items (cout w1') <> items (cout w2').

End Vocabulary.

(** ** What the generation loops draw

    [k] rounds of the generation loop on the engine [g]: the values
    drawn for [A], those drawn for [B], each in the order of the index,
    and the engine left.  A round draws for [A] first, then for [B]. *)

Fixpoint sorteo {RT : Runtime} (k : nat) (g : mt19937)
  : list Z * list Z * mt19937 :=
  match k with
  | O => ([], [], g)
  | S k' =>
      let '(la, lb, g1) := sorteo k' g in
      let (x, g2) := uniform_int_distribution 1 1000 g1 in
      let (y, g3) := uniform_int_distribution 1 1000 g2 in
      (la ++ [x], lb ++ [y], g3)
  end.

Definition sorteo_A {RT : Runtime} (k : nat) (g : mt19937) : list Z :=
  fst (fst (sorteo k g)).

Definition sorteo_B {RT : Runtime} (k : nat) (g : mt19937) : list Z :=
  snd (fst (sorteo k g)).

Definition sorteo_gen {RT : Runtime} (k : nat) (g : mt19937) : mt19937 :=
  snd (sorteo k g).

(** The mathematical sums of two lists, cell by cell. *)
Definition sumas (la lb : list Z) : list Z :=
  map (fun p => (fst p + snd p)%Z) (combine la lb).

(** ** Concrete inputs

    Worlds and schedules on which the programs are run below. *)

(** main.cpp started on a stack holding [i] in cell [i] of each array. *)
Definition mundo_main : @world lcg_runtime Main.var :=
  @Main.start lcg_runtime (fun _ i => Z.of_nat i) 42%Z.

(** The second program started with the same seed. *)
Definition mundo_solucion : @world lcg_runtime Solucion.var :=
  @Solucion.start lcg_runtime 42%Z.

(** Thread 0 runs all its chunks, then thread 1 runs its own. *)
Definition orden_main : list nat :=
  concat (static_schedule Main.N Main.chunk 2).

Definition orden_solucion : list nat :=
  concat (static_schedule Solucion.n 5 Solucion.num_threads).

(** A world of main.cpp in which the two results differ everywhere. *)
Definition mundo_fallo : @world lcg_runtime Main.var :=
  @mk_world lcg_runtime Main.var
            (fun v => match v with
                      | Main.C_par => repeat 1%Z Main.N
                      | _ => repeat 0%Z Main.N
                      end) cout_init 42%Z 0.

(** A world of main.cpp whose result arrays are shorter than [N] and
    differ at index 1. *)
Definition mundo_corto : @world lcg_runtime Main.var :=
  @mk_world lcg_runtime Main.var
            (fun v => match v with
                      | Main.C_seq => [5; 7; 9]%Z
                      | Main.C_par => [5; 8]%Z
                      | _ => []
                      end) cout_init 42%Z 0.

(** Worlds whose inputs are all 7. *)
Definition mundo_sietes : @world lcg_runtime Main.var :=
  @mk_world lcg_runtime Main.var (fun _ => repeat 7%Z Main.N) cout_init 42%Z 0.

Definition mundo_sietes_solucion : @world lcg_runtime Solucion.var :=
  @mk_world lcg_runtime Solucion.var (fun _ => repeat 7%Z Solucion.n)
            cout_init 42%Z 0.

(** A world of the second program in which the two results differ in
    every cell: [R] is all 0, the other vectors all 7. *)
Definition mundo_desacuerdo : @world lcg_runtime Solucion.var :=
  @mk_world lcg_runtime Solucion.var
            (fun v => match v with
                      | Solucion.R => repeat 0%Z Solucion.n
                      | _ => repeat 7%Z Solucion.n
                      end) cout_init 42%Z 0.

(** ** Program logic: total correctness by weakest precondition *)

Section Logic.

Context {RT : Runtime} {var : Type} {var_eq : EqDec var}.

Lemma wp_ret X (x : X) Q (w : world var) : Q x w -> wp (ret x) Q w.
Proof. intros H. exists x, w. split; [reflexivity | exact H]. Qed.

Lemma wp_bind X Y (m : M var X) (k : X -> M var Y) Q (w : world var) :
  wp m (fun x w' => wp (k x) Q w') w -> wp (bind m k) Q w.
Proof.
  intros (x & w1 & Hm & y & w2 & Hk & HQ).
  exists y, w2. unfold bind. rewrite Hm. split; assumption.
Qed.

Lemma wp_mono X (m : M var X) (Q Q' : X -> world var -> Prop) w :
  (forall x w', Q x w' -> Q' x w') -> wp m Q w -> wp m Q' w.
Proof.
  intros HQ (x & w' & Hm & H). exists x, w'. split; [exact Hm | auto].
Qed.

Lemma wp_load (d : var) i x Q (w : world var) :
  nth_error (mem w d) i = Some x -> Q x w -> wp (load d i) Q w.
Proof.
  intros Hn HQ. exists x, w. unfold load, array_get. rewrite Hn.
  split; [reflexivity | exact HQ].
Qed.

Lemma wp_store (d : var) i x Q (w : world var) :
  i < length (mem w d) ->
  Q tt (set_mem w d (upd_nth i x (mem w d))) ->
  wp (store d i x) Q w.
Proof.
  intros Hi HQ. eexists tt, _. unfold store, array_set.
  apply Nat.ltb_lt in Hi. rewrite Hi. split; [reflexivity | exact HQ].
Qed.

Lemma wp_put it Q (w : world var) :
  Q tt (set_cout w (mk_ostream (items (cout w) ++ [it])
                               (fixed (cout w)) (precision (cout w)))) ->
  wp (put it) Q w.
Proof. intros HQ. eexists tt, _. split; [reflexivity | exact HQ]. Qed.

Lemma wp_now Q (w : world var) :
  Q (clock_now (clock_reads w))
    (mk_world (mem w) (cout w) (gen w) (S (clock_reads w))) ->
  wp now Q w.
Proof. intros HQ. eexists _, _. split; [reflexivity | exact HQ]. Qed.

Lemma wp_dist a b Q (w : world var) :
  (a <= b)%Z ->
  (forall x g, (a <= x <= b)%Z -> Q x (mk_world (mem w) (cout w) g (clock_reads w))) ->
  wp (dist a b) Q w.
Proof.
  intros Hab HQ. unfold wp, dist.
  pose proof (uniform_int_distribution_range (gen w) Hab) as Hr.
  destruct (uniform_int_distribution a b (gen w)) as [x g]. cbn [fst] in Hr.
  eexists x, _. split; [reflexivity | apply HQ; exact Hr].
Qed.

(** The loop rule: an invariant indexed by the iterations done. *)
Lemma wp_for_each (I : list nat -> world var -> Prop) body :
  forall todo done w,
    I done w ->
    (forall pre i post w1,
        todo = pre ++ i :: post ->
        I (done ++ pre) w1 ->
        wp (body i) (fun _ w2 => I (done ++ pre ++ [i]) w2) w1) ->
    wp (for_each todo body) (fun _ w' => I (done ++ todo) w') w.
Proof.
  induction todo as [|i rest IH]; intros done w HI Hbody.
  - cbn [for_each]. apply wp_ret. rewrite app_nil_r. exact HI.
  - cbn [for_each]. apply wp_bind.
    eapply wp_mono; [| apply (Hbody [] i rest w eq_refl);
                       rewrite app_nil_r; exact HI].
    intros ? w1 H1. cbn [app] in H1.
    replace (done ++ i :: rest) with ((done ++ [i]) ++ rest)
      by (rewrite <- app_assoc; reflexivity).
    apply IH; [exact H1 |].
    intros pre j post w2 Heq H2.
    rewrite <- !app_assoc. cbn [app].
    apply (Hbody (i :: pre) j post w2).
    + rewrite Heq. reflexivity.
    + rewrite <- app_assoc in H2. exact H2.
Qed.

(** The counted loop: an invariant indexed by the loop counter. *)
Lemma wp_for (I : nat -> world var -> Prop) body lo hi w :
  lo <= hi ->
  I lo w ->
  (forall i w1, lo <= i < hi -> I i w1 ->
                wp (body i) (fun _ w2 => I (S i) w2) w1) ->
  wp (for_ lo hi body) (fun _ w' => I hi w') w.
Proof.
  intros Hle HI Hbody. unfold for_.
  pose (J := fun (l : list nat) (w : world var) => I (lo + length l) w).
  assert (H : wp (for_each (seq lo (hi - lo)) body)
                 (fun _ w' => J ([] ++ seq lo (hi - lo)) w') w).
  { apply wp_for_each.
    - unfold J. cbn. rewrite Nat.add_0_r. exact HI.
    - intros pre i post w1 Heq H1. unfold J in *. cbn [app] in *.
      assert (Hi : i = lo + length pre /\ lo + length pre < hi).
      { assert (Hn : nth_error (seq lo (hi - lo)) (length pre) = Some i).
        { rewrite Heq, nth_error_app2, Nat.sub_diag by lia. reflexivity. }
        assert (Hlt : length pre < hi - lo).
        { rewrite <- (length_seq (hi - lo) lo), Heq, length_app. cbn. lia. }
        rewrite nth_error_seq in Hn.
        apply Nat.ltb_lt in Hlt as Hb. rewrite Hb in Hn.
        injection Hn as <-. lia. }
      destruct Hi as [-> Hlt].
      eapply wp_mono; [| apply Hbody; [lia | exact H1]].
      intros ? w2 H2. rewrite length_app. cbn [length].
      replace (lo + (length pre + 1)) with (S (lo + length pre)) by lia.
      exact H2. }
  eapply wp_mono; [| exact H].
  intros ? w' H'. unfold J in H'. cbn [app] in H'.
  rewrite length_seq in H'. replace (lo + (hi - lo)) with hi in H' by lia.
  exact H'.
Qed.

End Logic.

(** ** Arrays and [int] arithmetic *)

Lemma wrap_int_exact (z : Z) : in_int z -> wrap_int z = z.
Proof.
  unfold in_int, INT_MIN, INT_MAX, wrap_int. intros Hz.
  rewrite Z.mod_small by lia. lia.
Qed.

Lemma wrap_int_in_int (z : Z) : in_int (wrap_int z).
Proof.
  unfold in_int, INT_MIN, INT_MAX, wrap_int.
  pose proof (Z.mod_pos_bound (z + 2 ^ 31) (2 ^ 32) ltac:(lia)). lia.
Qed.

Lemma upd_nth_length i x l : length (upd_nth i x l) = length l.
Proof.
  revert i. induction l as [|h t IH]; intros [|j]; cbn; try reflexivity.
  now rewrite IH.
Qed.

Lemma nth_error_upd_nth_eq i x l :
  i < length l -> nth_error (upd_nth i x l) i = Some x.
Proof.
  revert i. induction l as [|h t IH]; intros [|j] Hi; cbn in *; try lia.
  - reflexivity.
  - apply IH. lia.
Qed.

Lemma nth_error_upd_nth_neq i j x l :
  i <> j -> nth_error (upd_nth i x l) j = nth_error l j.
Proof.
  revert i j. induction l as [|h t IH]; intros [|i] [|j] Hij; cbn;
    try reflexivity; try congruence.
  apply IH. congruence.
Qed.

Lemma nth_error_suma_contrato la lb i :
  nth_error (suma_contrato la lb) i =
  match nth_error la i, nth_error lb i with
  | Some x, Some y => Some (add_int x y)
  | _, _ => None
  end.
Proof.
  unfold suma_contrato. revert lb i.
  induction la as [|x la IH]; intros [|y lb] [|i]; cbn; try reflexivity.
  - destruct (nth_error la i); reflexivity.
  - apply IH.
Qed.

Lemma suma_contrato_length la lb :
  length la = length lb -> length (suma_contrato la lb) = length la.
Proof.
  intros H. unfold suma_contrato. rewrite length_map, length_combine. lia.
Qed.

Lemma existsb_eqb_In i l : existsb (Nat.eqb i) l = true <-> In i l.
Proof.
  rewrite existsb_exists. split.
  - intros (j & Hj & He). apply Nat.eqb_eq in He. now subst.
  - intros H. exists i. split; [exact H | apply Nat.eqb_refl].
Qed.

Section MemoryFacts.

Context {RT : Runtime} {var : Type} {var_eq : EqDec var}.

Lemma mem_set_mem_eq (w : world var) v l : mem (set_mem w v l) v = l.
Proof. cbn. destruct (eq_dec v v); congruence. Qed.

Lemma mem_set_mem_neq (w : world var) u v l :
  u <> v -> mem (set_mem w v l) u = mem w u.
Proof. intros H. cbn. destruct (eq_dec u v); congruence. Qed.

Lemma solo_cambia_refl c (w : world var) : solo_cambia c w w.
Proof. repeat split. Qed.

Lemma solo_cambia_trans c (w1 w2 w3 : world var) :
  solo_cambia c w1 w2 -> solo_cambia c w2 w3 -> solo_cambia c w1 w3.
Proof.
  intros (Ho & Hg & Hc & Hm) (Ho' & Hg' & Hc' & Hm').
  repeat split; try congruence.
  intros v Hv. rewrite Hm', Hm by exact Hv. reflexivity.
Qed.

Lemma solo_cambia_set_mem c (w : world var) l : solo_cambia c w (set_mem w c l).
Proof.
  repeat split. intros v Hv. apply mem_set_mem_neq. exact Hv.
Qed.

(** One iteration of a summation loop. *)
Lemma wp_sum_at a b c i x y Q (w : world var) :
  nth_error (mem w a) i = Some x ->
  nth_error (mem w b) i = Some y ->
  i < length (mem w c) ->
  Q tt (set_mem w c (upd_nth i (add_int x y) (mem w c))) ->
  wp (sum_at a b c i) Q w.
Proof.
  intros Ha Hb Hc HQ. unfold sum_at.
  apply wp_bind. eapply wp_load; [exact Ha |].
  apply wp_bind. eapply wp_load; [exact Hb |].
  apply wp_store; assumption.
Qed.

(** A summation loop run over any list of in-range indices: the cells
    named in the list receive the contract's value, the others keep
    theirs, and nothing else changes. *)
Lemma sum_loop_spec a b c len :
  c <> a -> c <> b ->
  forall sigma (w : world var),
    Forall (fun i => i < len) sigma ->
    length (mem w a) = len -> length (mem w b) = len ->
    length (mem w c) = len ->
    wp (for_each sigma (sum_at a b c))
       (fun _ w' =>
          solo_cambia c w w' /\ length (mem w' c) = len /\
          forall i, nth_error (mem w' c) i =
                    if existsb (Nat.eqb i) sigma
                    then nth_error (suma_contrato (mem w a) (mem w b)) i
                    else nth_error (mem w c) i) w.
Proof.
  intros Hca Hcb.
  induction sigma as [|i rest IH]; intros w Hall Ha Hb Hc.
  - cbn [for_each]. apply wp_ret.
    split; [apply solo_cambia_refl | split; [exact Hc | reflexivity]].
  - inversion Hall as [|? ? Hi Hrest]; subst.
    destruct (nth_error (mem w a) i) as [x|] eqn:Ex;
      [| apply nth_error_None in Ex; lia].
    destruct (nth_error (mem w b) i) as [y|] eqn:Ey;
      [| apply nth_error_None in Ey; lia].
    cbn [for_each]. apply wp_bind.
    eapply wp_sum_at; [exact Ex | exact Ey | lia |].
    set (w1 := set_mem w c (upd_nth i (add_int x y) (mem w c))).
    assert (Ha1 : mem w1 a = mem w a)
      by (apply mem_set_mem_neq; congruence).
    assert (Hb1 : mem w1 b = mem w b)
      by (apply mem_set_mem_neq; congruence).
    assert (Hc1 : mem w1 c = upd_nth i (add_int x y) (mem w c))
      by apply mem_set_mem_eq.
    eapply wp_mono; [| apply (IH w1 Hrest)].
    + intros ? w' (Hsc & Hlen & Hnth).
      split; [| split; [exact Hlen |]].
      * eapply solo_cambia_trans; [apply solo_cambia_set_mem | exact Hsc].
      * intros j. rewrite Hnth, Ha1, Hb1, Hc1. cbn [existsb].
        destruct (existsb (Nat.eqb j) rest); [now rewrite orb_true_r |].
        rewrite orb_false_r. destruct (Nat.eqb_spec j i) as [->|Hji].
        -- rewrite nth_error_upd_nth_eq by lia.
           rewrite nth_error_suma_contrato, Ex, Ey. reflexivity.
        -- apply nth_error_upd_nth_neq. congruence.
    + congruence.
    + congruence.
    + rewrite Hc1, upd_nth_length. exact Hc.
Qed.

(** When the list names every index, the whole array is the
    contract's. *)
Lemma sum_loop_covering a b c len sigma (w : world var) :
  c <> a -> c <> b ->
  (forall i, In i sigma <-> i < len) ->
  length (mem w a) = len -> length (mem w b) = len ->
  length (mem w c) = len ->
  wp (for_each sigma (sum_at a b c))
     (fun _ w' => solo_cambia c w w' /\
                  mem w' c = suma_contrato (mem w a) (mem w b)) w.
Proof.
  intros Hca Hcb Hcov Ha Hb Hc.
  eapply wp_mono; [| apply (@sum_loop_spec a b c len Hca Hcb sigma w);
                     try assumption;
                     apply Forall_forall; intros i Hi; now apply Hcov].
  intros ? w' (Hsc & Hlen & Hnth). split; [exact Hsc |].
  apply nth_error_ext. intros i. rewrite Hnth.
  destruct (existsb (Nat.eqb i) sigma) eqn:E; [reflexivity |].
  assert (Hge : len <= i).
  { destruct (Nat.lt_ge_cases i len) as [Hlt|Hge]; [| exact Hge].
    apply Hcov, existsb_eqb_In in Hlt. congruence. }
  rewrite nth_error_suma_contrato.
  replace (nth_error (mem w a) i) with (@None Z)
    by (symmetry; apply nth_error_None; lia).
  apply nth_error_None. lia.
Qed.

End MemoryFacts.

(** ** The schedules *)

Lemma concat_all_nil (works : list (list nat)) :
  Forall (fun w => w = []) works -> concat works = [].
Proof.
  induction 1 as [|w works Hw _ IH]; cbn; [reflexivity |].
  now rewrite Hw, IH.
Qed.

(** Whatever the interleaving, the team executes the iterations of its
    work lists, each as often as it is listed. *)
Lemma interleave_permutation works sigma :
  interleave works sigma -> Permutation sigma (concat works).
Proof.
  induction 1 as [works Hnil | before i w after sigma _ IH].
  - now rewrite concat_all_nil.
  - rewrite concat_app in *. cbn [concat] in *. cbn [app].
    apply Permutation_cons_app. exact IH.
Qed.

Lemma interleave_idle works sigma :
  interleave works sigma -> interleave ([] :: works) sigma.
Proof.
  induction 1 as [works Hnil | before i w after sigma _ IH].
  - apply interleave_done. constructor; [reflexivity | exact Hnil].
  - apply (interleave_step ([] :: before)). exact IH.
Qed.

(** Running the threads one after the other is one of the orders. *)
Lemma interleave_concat works : interleave works (concat works).
Proof.
  induction works as [|w works IH]; cbn [concat].
  - apply interleave_done. constructor.
  - induction w as [|i w IHw]; cbn [app].
    + apply interleave_idle, IH.
    + apply (interleave_step [] i w works). exact IHw.
Qed.

Lemma flat_map_nil_all (X Y : Type) (l : list X) :
  flat_map (fun _ : X => @nil Y) l = [].
Proof. induction l; cbn; auto. Qed.

Lemma flat_map_flat_map (X Y Z0 : Type) (f : X -> list Y) (g : Y -> list Z0) l :
  flat_map g (flat_map f l) = flat_map (fun x => flat_map g (f x)) l.
Proof.
  induction l as [|x l IH]; cbn; [reflexivity |].
  now rewrite flat_map_app, IH.
Qed.

(** Giving one more item to the owner [t0] among distinct owners. *)
Lemma deal_one (k : nat) (g : nat -> list nat) (t0 : nat) (ts : list nat) :
  NoDup ts ->
  (In t0 ts ->
   Permutation (flat_map (fun t => if t0 =? t then k :: g t else g t) ts)
               (k :: flat_map g ts)) /\
  (~ In t0 ts ->
   flat_map (fun t => if t0 =? t then k :: g t else g t) ts = flat_map g ts).
Proof.
  induction 1 as [|t ts Hnotin Hnd [IHin IHout]]; split; cbn [flat_map].
  - intros [].
  - reflexivity.
  - intros [Heq | Hin].
    + subst t0. rewrite Nat.eqb_refl, (IHout Hnotin). reflexivity.
    + destruct (Nat.eqb_spec t0 t) as [-> | Hne]; [contradiction |].
      rewrite (IHin Hin). symmetry. apply Permutation_middle.
  - intros Hn. destruct (Nat.eqb_spec t0 t) as [-> | Hne].
    + exfalso. apply Hn. now left.
    + rewrite IHout; [reflexivity |]. intros Hin. apply Hn. now right.
Qed.

(** Dealing a list to owners by a key loses and duplicates nothing. *)
Lemma deal_permutation (key : nat -> nat) (ts l : list nat) :
  NoDup ts ->
  (forall k, In k l -> In (key k) ts) ->
  Permutation (flat_map (fun t => filter (fun k => key k =? t) l) ts) l.
Proof.
  intros Hnd. induction l as [|k l IH]; intros Hkey.
  - cbn [filter]. now rewrite flat_map_nil_all.
  - cbn [filter].
    destruct (deal_one k (fun t => filter (fun k0 => key k0 =? t) l) (key k) Hnd)
      as [Hin _].
    rewrite Hin by (apply Hkey; now left).
    constructor. apply IH. intros k0 Hk0. apply Hkey. now right.
Qed.

(** The chunks, in order, are the iteration space cut in pieces. *)
Lemma chunks_in_order n c m :
  flat_map (chunk_iterations n c) (seq 0 m) = seq 0 (Nat.min (m * c) n).
Proof.
  induction m as [|m IH]; [reflexivity |].
  rewrite seq_S, flat_map_app, IH. cbn [flat_map Nat.add].
  rewrite app_nil_r. unfold chunk_iterations.
  destruct (Nat.le_gt_cases (m * c) n) as [Hle | Hgt].
  - rewrite (Nat.min_l (m * c) n) by exact Hle.
    replace (seq (m * c)) with (seq (0 + m * c)) by reflexivity.
    rewrite <- seq_app. f_equal. cbn [Nat.mul]. lia.
  - rewrite (Nat.min_r (m * c) n) by lia.
    replace (n - m * c) with 0 by lia. rewrite Nat.min_0_r. cbn [seq].
    rewrite app_nil_r. f_equal. cbn [Nat.mul]. lia.
Qed.

Lemma num_chunks_enough n c : 1 <= c -> n <= num_chunks n c * c.
Proof.
  intros Hc. unfold num_chunks.
  pose proof (Nat.div_mod_eq (n + c - 1) c) as Hd.
  pose proof (Nat.mod_upper_bound (n + c - 1) c ltac:(lia)) as Hm.
  nia.
Qed.

(** [schedule(static, c)] gives every iteration of [0, n) to exactly one
    thread, once. *)
Lemma static_schedule_partition n c T :
  1 <= c -> 1 <= T ->
  Permutation (concat (static_schedule n c T)) (seq 0 n).
Proof.
  intros Hc HT. unfold static_schedule, thread_iterations, thread_chunks.
  rewrite <- flat_map_concat_map.
  rewrite <- (flat_map_flat_map
                (fun t => filter (fun k => k mod T =? t) (seq 0 (num_chunks n c)))
                (chunk_iterations n c)).
  rewrite (deal_permutation (fun k => k mod T)).
  - rewrite chunks_in_order, Nat.min_r by (apply num_chunks_enough; exact Hc).
    reflexivity.
  - apply seq_NoDup.
  - intros k _. apply in_seq. split; [lia |].
    cbn [Nat.add]. apply Nat.mod_upper_bound. lia.
Qed.

Lemma static_schedule_length n c T : length (static_schedule n c T) = T.
Proof. unfold static_schedule. now rewrite length_map, length_seq. Qed.

(** An order allowed by [schedule(static, c)] is an order allowed by
    some schedule. *)
Lemma omp_static_any n c T sigma :
  1 <= c -> 1 <= T -> omp_static n c T sigma -> omp_any n T sigma.
Proof.
  intros Hc HT H. exists (static_schedule n c T).
  split; [apply static_schedule_length |].
  split; [apply static_schedule_partition; assumption | exact H].
Qed.

(** Under any schedule, the order runs each iteration of [0, n) once. *)
Lemma omp_any_permutation n T sigma :
  omp_any n T sigma -> Permutation sigma (seq 0 n).
Proof.
  intros (works & _ & Hp & Hi).
  etransitivity; [apply interleave_permutation; exact Hi | exact Hp].
Qed.

Lemma omp_any_covers n T sigma :
  omp_any n T sigma -> forall i, In i sigma <-> i < n.
Proof.
  intros H i. apply omp_any_permutation in H.
  split; intros Hi.
  - apply (Permutation_in _ H), in_seq in Hi. lia.
  - apply (Permutation_in _ (Permutation_sym H)), in_seq. lia.
Qed.

Lemma omp_any_NoDup n T sigma : omp_any n T sigma -> NoDup sigma.
Proof.
  intros H. apply omp_any_permutation in H.
  apply (Permutation_NoDup (Permutation_sym H)), seq_NoDup.
Qed.

(** ** The team at the grain of memory accesses *)

Lemma load_inv {RT : Runtime} {var : Type} (d : var) i x (w w' : world var) :
  load d i w = Some (x, w') -> w' = w /\ nth_error (mem w d) i = Some x.
Proof.
  unfold load, array_get. destruct (nth_error (mem w d) i) as [y|];
    [| discriminate].
  intros H. injection H as -> ->. split; reflexivity.
Qed.

Lemma store_inv {RT : Runtime} {var : Type} {var_eq : EqDec var}
      (d : var) i v (w w' : world var) :
  store d i v w = Some (tt, w') ->
  i < length (mem w d) /\ w' = set_mem w d (upd_nth i v (mem w d)).
Proof.
  unfold store, array_set.
  destruct (Nat.ltb_spec i (length (mem w d))) as [Hlt | Hge];
    [| discriminate].
  intros E. injection E as <-. split; [assumption | reflexivity].
Qed.

Lemma list_sum_cons x l : list_sum (x :: l) = x + list_sum l.
Proof. reflexivity. Qed.

Section EquipoMedida.

Context {RT : Runtime} {var : Type} {var_eq : EqDec var}.

Variables a b c : var.

Lemma pendientes_app antes (h : hilo) despues (w : world var) :
  pendientes (antes ++ h :: despues, w)
  = concat (map snd antes) ++ snd h ++ concat (map snd despues).
Proof.
  unfold pendientes. cbn [fst]. now rewrite map_app, concat_app.
Qed.

Lemma pendientes_arranque works (w : world var) :
  pendientes (arranque works w) = concat works.
Proof.
  unfold pendientes, arranque. cbn [fst]. rewrite map_map. cbn [snd].
  now rewrite map_id.
Qed.

Lemma medida_app antes (h : hilo) despues (w : world var) :
  medida (antes ++ h :: despues, w)
  = list_sum (map medida_hilo antes) + medida_hilo h
    + list_sum (map medida_hilo despues).
Proof.
  unfold medida. cbn [fst]. rewrite map_app, list_sum_app.
  cbn [map]. rewrite list_sum_cons. lia.
Qed.

Lemma medida_arranque works (w : world var) :
  medida (arranque works w) = 3 * length (concat works).
Proof.
  unfold medida, arranque. cbn [fst].
  induction works as [|l works IH]; [reflexivity |].
  cbn [map concat]. rewrite list_sum_cons, IH, length_app.
  unfold medida_hilo. cbn [fst snd]. lia.
Qed.

(** Each access is one access less to make. *)
Lemma medida_paso e e' : paso a b c e e' -> medida e = S (medida e').
Proof.
  intros [antes h h' despues w w' Hh]. rewrite !medida_app.
  assert (Hm : medida_hilo h = S (medida_hilo h')).
  { destruct Hh as [i resto w x Hl | i resto w x y Hl | i resto w w' x y Hs];
      unfold medida_hilo; cbn [fst snd length]; lia. }
  lia.
Qed.

(** The iterations left are never shared by two threads if they were
    not at the start: no cell is written by two threads. *)
Lemma sin_carreras_paso e e' :
  paso a b c e e' -> NoDup (pendientes e) -> NoDup (pendientes e').
Proof.
  intros [antes h h' despues w w' Hh]. rewrite !pendientes_app.
  destruct Hh as [i resto w x Hl | i resto w x y Hl | i resto w w' x y Hs];
    cbn [snd]; intros Hnd; [exact Hnd | exact Hnd |].
  cbn [app] in Hnd. apply NoDup_remove_1 in Hnd. exact Hnd.
Qed.

Lemma terminado_pendientes (e : list hilo * world var) :
  terminado e -> pendientes e = [].
Proof.
  destruct e as [hs w]. unfold terminado, pendientes. cbn [fst].
  induction 1 as [| h hs Hh _ IH]; [reflexivity |].
  subst h. cbn. exact IH.
Qed.

Lemma terminado_medida (e : list hilo * world var) :
  terminado e -> medida e = 0.
Proof.
  destruct e as [hs w]. unfold terminado, medida. cbn [fst].
  induction 1 as [| h hs Hh _ IH]; [reflexivity |].
  subst h. cbn. exact IH.
Qed.

End EquipoMedida.

Section EquipoFacts.

Context {RT : Runtime} {var : Type} {var_eq : EqDec var}.

Variables (a b c : var) (n : nat) (w0 : world var).

Hypothesis Hca : c <> a.
Hypothesis Hcb : c <> b.
Hypothesis Ha : length (mem w0 a) = n.
Hypothesis Hb : length (mem w0 b) = n.
Hypothesis Hc : length (mem w0 c) = n.

Lemma inv_arranque works :
  (forall j, j < n -> In j (concat works)) ->
  Forall (Forall (fun i => i < n)) works ->
  equipo_inv a b c n w0 (arranque works w0).
Proof.
  intros Hcov Hran. split; [| split; [| split]].
  - cbn. repeat split.
  - exact Hc.
  - unfold arranque. cbn [fst]. apply Forall_forall. intros h Hh.
    apply in_map_iff in Hh as (l & <- & Hl). split; [| exact I].
    cbn [snd]. exact (proj1 (Forall_forall _ _) Hran l Hl).
  - intros j Hj. left. rewrite pendientes_arranque. now apply Hcov.
Qed.

Lemma inv_paso e e' :
  equipo_inv a b c n w0 e -> paso a b c e e' -> equipo_inv a b c n w0 e'.
Proof.
  intros Hinv Hp. destruct Hp as [antes h h' despues w w' Hh].
  destruct Hinv as (Hfr & Hlen & Hok & Hhecho).
  cbn [fst snd] in *.
  apply Forall_app in Hok as (Hok1 & Hok2).
  apply Forall_cons_iff in Hok2 as (Hh_ok & Hok3).
  destruct Hfr as (Ho & Hg & Hck & Hm).
  destruct Hh as [i resto w x Hl | i resto w x y Hl | i resto w w' x y Hs].
  - apply load_inv in Hl as (_ & Hx). rewrite Hm in Hx by congruence.
    split; [repeat split; assumption | split; [exact Hlen | split]].
    + apply Forall_app. split; [exact Hok1 |]. constructor; [| exact Hok3].
      split; [exact (proj1 Hh_ok) |]. cbn [fst snd]. exists i, resto. auto.
    + intros j Hj. destruct (Hhecho j Hj) as [Hpend | Hdone];
        [left | right; exact Hdone].
      rewrite pendientes_app in *. exact Hpend.
  - apply load_inv in Hl as (_ & Hy). rewrite Hm in Hy by congruence.
    destruct Hh_ok as (Hran & i' & resto' & Heq & Hx). cbn [fst snd] in *.
    injection Heq as <- <-.
    split; [repeat split; assumption | split; [exact Hlen | split]].
    + apply Forall_app. split; [exact Hok1 |]. constructor; [| exact Hok3].
      split; [exact Hran |]. cbn [fst snd]. exists i, resto. auto.
    + intros j Hj. destruct (Hhecho j Hj) as [Hpend | Hdone];
        [left | right; exact Hdone].
      rewrite pendientes_app in *. exact Hpend.
  - apply store_inv in Hs as (Hi & ->).
    destruct Hh_ok as (Hran & i' & resto' & Heq & Hx & Hy).
    cbn [fst snd] in *. injection Heq as <- <-.
    apply Forall_cons_iff in Hran as (Hin & Hran').
    unfold equipo_inv. cbn [fst snd].
    split; [| split; [| split]].
    + split; [exact Ho | split; [exact Hg | split; [exact Hck |]]].
      intros v Hv. rewrite mem_set_mem_neq by exact Hv. now apply Hm.
    + rewrite mem_set_mem_eq, upd_nth_length. exact Hlen.
    + apply Forall_app. split; [exact Hok1 |]. constructor; [| exact Hok3].
      split; [exact Hran' | exact I].
    + intros j Hj. rewrite mem_set_mem_eq.
      destruct (Nat.eq_dec j i) as [-> | Hji].
      * right. rewrite nth_error_upd_nth_eq by exact Hi. now rewrite Hx, Hy.
      * destruct (Hhecho j Hj) as [Hpend | Hdone].
        -- left. rewrite pendientes_app in *. cbn [snd] in *.
           rewrite !in_app_iff in *. cbn [In] in Hpend.
           destruct Hpend as [H | [[H | H] | H]]; auto. congruence.
        -- right. rewrite nth_error_upd_nth_neq by congruence. exact Hdone.
Qed.

Lemma inv_pasos k e e' :
  pasos a b c k e e' -> equipo_inv a b c n w0 e ->
  equipo_inv a b c n w0 e' /\ medida e = k + medida e' /\
  (NoDup (pendientes e) -> NoDup (pendientes e')).
Proof.
  induction 1 as [e | k e1 e2 e3 Hp _ IH]; intros Hinv.
  - split; [exact Hinv | split; [reflexivity | intros H; exact H]].
  - destruct (IH (inv_paso Hinv Hp)) as (Hinv3 & Hmed & Hnd).
    split; [exact Hinv3 | split].
    + rewrite (medida_paso Hp), Hmed. reflexivity.
    + intros H. apply Hnd. exact (sin_carreras_paso Hp H).
Qed.

(** When the team is done, [c] is the contract's array. *)
Lemma inv_terminado e :
  equipo_inv a b c n w0 e -> terminado e ->
  solo_cambia c w0 (snd e) /\
  mem (snd e) c = suma_contrato (mem w0 a) (mem w0 b).
Proof.
  intros (Hfr & Hlen & _ & Hhecho) Hfin. split; [exact Hfr |].
  apply nth_error_ext. intros j. rewrite nth_error_suma_contrato.
  destruct (Nat.lt_ge_cases j n) as [Hj | Hj].
  - destruct (Hhecho j Hj) as [Hpend | Hdone]; [| exact Hdone].
    rewrite (terminado_pendientes Hfin) in Hpend. destruct Hpend.
  - replace (nth_error (mem w0 a) j) with (@None Z)
      by (symmetry; apply nth_error_None; lia).
    apply nth_error_None. lia.
Qed.

(** A thread that is not done can make its next access: it is in
    range. *)
Lemma progreso_hilo (h : hilo) (w : world var) :
  hilo_ok a b n w0 h ->
  (forall v, v <> c -> mem w v = mem w0 v) -> length (mem w c) = n ->
  h = (Inicio, []) \/ exists h' w', paso_hilo a b c h w h' w'.
Proof.
  intros (Hran & Hfase) Hm Hlen. destruct h as [f l]. cbn [fst snd] in *.
  destruct f as [| x | x y].
  - destruct l as [| i resto]; [left; reflexivity | right].
    apply Forall_cons_iff in Hran as (Hi & _).
    destruct (nth_error (mem w0 a) i) as [x|] eqn:Ex;
      [| apply nth_error_None in Ex; lia].
    exists (LeidoA x, i :: resto), w. constructor.
    unfold load, array_get. rewrite Hm by congruence. now rewrite Ex.
  - right. destruct Hfase as (i & resto & -> & Hx).
    apply Forall_cons_iff in Hran as (Hi & _).
    destruct (nth_error (mem w0 b) i) as [y|] eqn:Ey;
      [| apply nth_error_None in Ey; lia].
    exists (LeidoAB x y, i :: resto), w. constructor.
    unfold load, array_get. rewrite Hm by congruence. now rewrite Ey.
  - right. destruct Hfase as (i & resto & -> & Hx & Hy).
    apply Forall_cons_iff in Hran as (Hi & _).
    eexists (Inicio, resto), _. constructor.
    unfold store, array_set.
    destruct (Nat.ltb_spec i (length (mem w c))); [reflexivity | lia].
Qed.

(** The team is done or can make a step: it never stops short, and no
    access is out of range. *)
Lemma progreso e :
  equipo_inv a b c n w0 e -> terminado e \/ exists e', paso a b c e e'.
Proof.
  intros ((_ & _ & _ & Hm) & Hlen & Hok & _). destruct e as [hs w].
  cbn [fst snd] in *. unfold terminado. cbn [fst].
  induction hs as [| h hs IH]; [left; constructor |].
  apply Forall_cons_iff in Hok as (Hh & Hhs).
  destruct (@progreso_hilo h w Hh Hm Hlen) as [-> | (h' & w' & Hp)].
  - destruct (IH Hhs) as [Hfin | ([hs' w'] & Hp)].
    + left. constructor; [reflexivity | exact Hfin].
    + right. inversion Hp as [antes h0 h' despues w1 w2 Hh' E1 E2].
      exists ((Inicio, []) :: antes ++ h' :: despues, w').
      apply (paso_de ((Inicio, []) :: antes) despues Hh').
  - right. exists (h' :: hs, w'). apply (paso_de [] hs Hp).
Qed.

(** From any state of the loop the team reaches the end, in as many
    steps as there are accesses left. *)
Lemma equipo_termina m :
  forall e, equipo_inv a b c n w0 e -> medida e = m ->
            exists e', pasos a b c m e e' /\ terminado e'.
Proof.
  induction m as [| m IH]; intros e Hinv Hmed.
  - destruct (progreso Hinv) as [Hfin | (e' & Hp)].
    + exists e. split; [constructor | exact Hfin].
    + apply medida_paso in Hp. lia.
  - destruct (progreso Hinv) as [Hfin | (e1 & Hp)].
    + apply terminado_medida in Hfin. lia.
    + destruct (IH e1 (inv_paso Hinv Hp)) as (e' & Hps & Hfin).
      { apply medida_paso in Hp. lia. }
      exists e'. split; [econstructor; eassumption | exact Hfin].
Qed.

End EquipoFacts.

(** The team run at the grain of accesses: with work lists that hold
    each iteration of [0, n) once, every run of [k] steps from the
    start has [3 n - k] accesses left, is done or can go on, never has
    an iteration in two threads, and when done has written the
    contract's array and nothing else; and a run to the end exists. *)
Theorem equipo_seguro {RT : Runtime} {var : Type} {var_eq : EqDec var}
        (a b c : var) (n : nat) (w0 : world var) (works : list (list nat)) :
  c <> a -> c <> b ->
  length (mem w0 a) = n -> length (mem w0 b) = n -> length (mem w0 c) = n ->
  Permutation (concat works) (seq 0 n) ->
  (forall k e,
      pasos a b c k (arranque works w0) e ->
      k + medida e = 3 * n /\
      (terminado e \/ exists e', paso a b c e e') /\
      NoDup (pendientes e) /\
      (terminado e ->
       solo_cambia c w0 (snd e) /\
       mem (snd e) c = suma_contrato (mem w0 a) (mem w0 b))) /\
  (exists e, pasos a b c (3 * n) (arranque works w0) e /\ terminado e).
Proof.
  intros Hca Hcb Ha Hb Hc Hperm.
  assert (Hcov : forall j, j < n -> In j (concat works)).
  { intros j Hj. apply (Permutation_in _ (Permutation_sym Hperm)), in_seq. lia. }
  assert (Hran : Forall (Forall (fun i => i < n)) works).
  { apply Forall_forall. intros l Hl. apply Forall_forall. intros i Hi.
    assert (Hin : In i (concat works)) by (apply in_concat; eauto).
    apply (Permutation_in _ Hperm), in_seq in Hin. lia. }
  assert (Hnd : NoDup (concat works)).
  { apply (Permutation_NoDup (Permutation_sym Hperm)), seq_NoDup. }
  assert (Hlen : length (concat works) = n).
  { rewrite (Permutation_length Hperm). apply length_seq. }
  assert (Hinv0 : equipo_inv a b c n w0 (arranque works w0))
    by (apply inv_arranque; assumption).
  split.
  - intros k e Hps.
    assert (Hall : equipo_inv a b c n w0 e /\
                   medida (arranque works w0) = k + medida e /\
                   (NoDup (pendientes (arranque works w0)) ->
                    NoDup (pendientes e)))
      by (eapply inv_pasos; eassumption).
    destruct Hall as (Hinv & Hmed & Hnd').
    rewrite medida_arranque, Hlen in Hmed.
    split; [lia | split; [| split]].
    + eapply progreso; eassumption.
    + apply Hnd'. rewrite pendientes_arranque. exact Hnd.
    + intros Hfin. eapply inv_terminado; eassumption.
  - eapply equipo_termina; try eassumption.
    now rewrite medida_arranque, Hlen.
Qed.

Lemma equipo_llega_a_mono {RT : Runtime} {var : Type} {var_eq : EqDec var}
      (a b c : var) n works (w : world var) (Q Q' : world var -> Prop) :
  (forall w', Q w' -> Q' w') ->
  equipo_llega_a a b c n works w Q -> equipo_llega_a a b c n works w Q'.
Proof.
  intros HQ (Hruns & Hend). split; [| exact Hend].
  intros k e Hps. destruct (Hruns k e Hps) as (Hk & Hprog & Hfin).
  split; [exact Hk | split; [exact Hprog | auto]].
Qed.

Lemma equipo_llega_contrato {RT : Runtime} {var : Type} {var_eq : EqDec var}
      (a b c : var) n works (w : world var) :
  c <> a -> c <> b ->
  length (mem w a) = n -> length (mem w b) = n -> length (mem w c) = n ->
  Permutation (concat works) (seq 0 n) ->
  equipo_llega_a a b c n works w
                 (fun w' => solo_cambia c w w' /\
                            mem w' c = suma_contrato (mem w a) (mem w b)).
Proof.
  intros Hca Hcb Ha Hb Hc Hperm.
  destruct (@equipo_seguro _ _ _ a b c n w works Hca Hcb Ha Hb Hc Hperm)
    as (Hruns & Hend).
  split; [| exact Hend].
  intros k e Hps. destruct (Hruns k e Hps) as (Hk & Hprog & _ & Hfin).
  split; [lia | split; [exact Hprog | exact Hfin]].
Qed.

(** ** Printing *)

Lemma emit_nil o : emit o [] = o.
Proof. destruct o. unfold emit. cbn. now rewrite app_nil_r. Qed.

Lemma emit_emit o l1 l2 : emit (emit o l1) l2 = emit o (l1 ++ l2).
Proof. unfold emit. cbn. now rewrite app_assoc. Qed.

Lemma muestra_app l1 l2 : muestra (l1 ++ l2) = muestra l1 ++ muestra l2.
Proof. apply flat_map_app. Qed.

Lemma firstn_succ (l : list Z) k x :
  nth_error l k = Some x -> firstn (S k) l = firstn k l ++ [x].
Proof.
  revert k. induction l as [|h t IH]; intros [|k] H; cbn in *;
    try discriminate.
  - now injection H as ->.
  - now rewrite (IH k H).
Qed.

Section PrintingFacts.

Context {RT : Runtime} {var : Type} {var_eq : EqDec var}.

Lemma imprimio_refl (w : world var) : imprimio [] w w.
Proof. repeat split. now rewrite emit_nil. Qed.

Lemma imprimio_trans l1 l2 (w w1 w2 : world var) :
  imprimio l1 w w1 -> imprimio l2 w1 w2 -> imprimio (l1 ++ l2) w w2.
Proof.
  intros (Hm & Hg & Hc & Ho) (Hm' & Hg' & Hc' & Ho').
  repeat split; try congruence.
  rewrite Ho', Ho. apply emit_emit.
Qed.

(** Printing one more thing, with what was printed since [w0] kept
    in view. *)
Lemma wp_put_after l it Q (w0 w : world var) :
  imprimio l w0 w ->
  (forall w1, imprimio (l ++ [it]) w0 w1 -> Q tt w1) ->
  wp (put it) Q w.
Proof.
  intros Hl HQ. apply wp_put. apply HQ.
  eapply imprimio_trans; [exact Hl |]. repeat split.
Qed.

Lemma flujo_refl (w : world var) :
  flujo [] (fixed (cout w)) (precision (cout w)) w w.
Proof.
  repeat split. destruct (cout w) as [l f p]. cbn. now rewrite app_nil_r.
Qed.

Lemma imprimio_flujo l (w0 w : world var) :
  imprimio l w0 w -> flujo l (fixed (cout w0)) (precision (cout w0)) w0 w.
Proof. intros (Hm & Hg & Hc & Ho). repeat split; assumption. Qed.

Lemma wp_put_flujo l f p it Q (w0 w : world var) :
  flujo l f p w0 w ->
  (forall w1, flujo (l ++ [it]) f p w0 w1 -> Q tt w1) ->
  wp (put it) Q w.
Proof.
  intros (Hm & Hg & Hc & Ho) HQ. apply wp_put. apply HQ.
  repeat split; try assumption. cbn [set_cout cout].
  rewrite Ho. cbn [items fixed precision]. now rewrite <- app_assoc.
Qed.

Lemma wp_put_double_flujo l f p t Q (w0 w : world var) :
  flujo l f p w0 w ->
  (forall w1, flujo (l ++ [Real f p t]) f p w0 w1 -> Q tt w1) ->
  wp (put_double t) Q w.
Proof.
  intros (Hm & Hg & Hc & Ho) HQ. eexists tt, _. split; [reflexivity |].
  apply HQ. repeat split; try assumption. cbn [set_cout cout].
  rewrite Ho. cbn [items fixed precision]. now rewrite <- app_assoc.
Qed.

Lemma wp_put_fixed_flujo l f p Q (w0 w : world var) :
  flujo l f p w0 w ->
  (forall w1, flujo l true p w0 w1 -> Q tt w1) ->
  wp put_fixed Q w.
Proof.
  intros (Hm & Hg & Hc & Ho) HQ. eexists tt, _. split; [reflexivity |].
  apply HQ. repeat split; try assumption. cbn [set_cout cout].
  rewrite Ho. reflexivity.
Qed.

Lemma wp_put_setprecision_flujo l f p q Q (w0 w : world var) :
  flujo l f p w0 w ->
  (forall w1, flujo l f q w0 w1 -> Q tt w1) ->
  wp (put_setprecision q) Q w.
Proof.
  intros (Hm & Hg & Hc & Ho) HQ. eexists tt, _. split; [reflexivity |].
  apply HQ. repeat split; try assumption. cbn [set_cout cout].
  rewrite Ho. reflexivity.
Qed.

(** A loop printing the first [k] elements of [d], each followed by a
    blank. *)
Lemma muestra_loop d k l (w0 w : world var) :
  k <= length (mem w0 d) ->
  imprimio l w0 w ->
  wp (for_ 0 k (fun x => v <- load d x ;; put (Num v) ;; put (Text " ")))
     (fun _ w' => imprimio (l ++ muestra (firstn k (mem w0 d))) w0 w') w.
Proof.
  intros Hk Hl.
  apply (wp_for (fun i w' =>
                   imprimio (l ++ muestra (firstn i (mem w0 d))) w0 w')).
  - lia.
  - cbn. rewrite app_nil_r. exact Hl.
  - intros i w1 Hi H1.
    destruct (nth_error (mem w0 d) i) as [x|] eqn:Ex;
      [| apply nth_error_None in Ex; lia].
    apply wp_bind. eapply wp_load.
    { destruct H1 as (Hm & _). rewrite Hm. exact Ex. }
    apply wp_bind. eapply wp_put_after; [exact H1 |]. intros w2 H2.
    eapply wp_put_after; [exact H2 |]. intros w3 H3.
    rewrite (@firstn_succ _ _ _ Ex), muestra_app.
    rewrite <- !app_assoc in H3. exact H3.
Qed.

End PrintingFacts.

(** ** The verification loop of main.cpp *)

Lemma primera_diferencia_o_coinciden n ls lp :
  n <= length ls -> n <= length lp ->
  coinciden n ls lp \/ exists i s p, primera_diferencia n i s p ls lp.
Proof.
  induction n as [|n IH]; intros Hs Hp.
  - left. intros j Hj. lia.
  - destruct IH as [Hall | (i & s & p & Hi & Hrest)]; try lia.
    + destruct (nth_error ls n) as [s|] eqn:Es;
        [| apply nth_error_None in Es; lia].
      destruct (nth_error lp n) as [p|] eqn:Ep;
        [| apply nth_error_None in Ep; lia].
      destruct (Z.eq_dec s p) as [-> | Hne].
      * left. intros j Hj. destruct (Nat.eq_dec j n) as [-> | Hjn].
        -- congruence.
        -- apply Hall. lia.
      * right. exists n, s, p. repeat split; auto.
    + right. exists i, s, p. split; [lia | exact Hrest].
Qed.

Lemma primera_diferencia_not_coinciden n i s p ls lp :
  primera_diferencia n i s p ls lp -> ~ coinciden n ls lp.
Proof.
  intros (Hi & Hs & Hp & Hne & _) Hall.
  specialize (Hall i Hi). congruence.
Qed.

(** A first difference is a matter of the prefixes up to it. *)
Lemma primera_diferencia_prefix n i s p ls lp ls' lp' :
  firstn (S i) ls' = firstn (S i) ls ->
  firstn (S i) lp' = firstn (S i) lp ->
  primera_diferencia n i s p ls lp -> primera_diferencia n i s p ls' lp'.
Proof.
  intros Hs Hp (Hi & Es & Ep & Hne & Hbefore).
  assert (Hnth : forall (l l' : array) j,
             firstn (S i) l' = firstn (S i) l -> j <= i ->
             nth_error l' j = nth_error l j).
  { intros l l' j Hf Hj.
    pose proof (nth_error_firstn (S i) l j) as E.
    pose proof (nth_error_firstn (S i) l' j) as E'.
    assert (Hb : (j <? S i) = true) by (apply Nat.ltb_lt; lia).
    rewrite Hb in E, E'. rewrite <- E, <- E', Hf. reflexivity. }
  repeat split; auto.
  - rewrite (Hnth ls ls' i Hs); auto.
  - rewrite (Hnth lp lp' i Hp); auto.
  - intros j Hj. rewrite (Hnth ls ls' j Hs), (Hnth lp lp' j Hp) by lia.
    apply Hbefore. exact Hj.
Qed.

Section VerificacionFacts.

Context {RT : Runtime}.

Lemma compara_igual i x correcto (w : world Main.var) :
  nth_error (mem w Main.C_seq) i = Some x ->
  nth_error (mem w Main.C_par) i = Some x ->
  Main.compara i correcto w = Some ((correcto, false), w).
Proof.
  intros Es Ep. unfold Main.compara, bind, load, array_get.
  rewrite Es, Ep, Z.eqb_refl. reflexivity.
Qed.

Lemma compara_distinto i s p correcto (w : world Main.var) :
  nth_error (mem w Main.C_seq) i = Some s ->
  nth_error (mem w Main.C_par) i = Some p ->
  s <> p ->
  wp (Main.compara i correcto)
     (fun r w' => r = (false, true) /\ imprimio (linea_error i s p) w w') w.
Proof.
  intros Es Ep Hne. unfold Main.compara.
  apply wp_bind. eapply wp_load; [exact Es |].
  apply wp_bind. eapply wp_load; [exact Ep |].
  apply Z.eqb_neq in Hne. rewrite Hne. cbn [negb].
  apply wp_bind. eapply wp_put_after; [apply imprimio_refl |]. intros w1 H1.
  apply wp_bind. eapply wp_put_after; [exact H1 |]. intros w2 H2.
  apply wp_bind. eapply wp_put_after; [exact H2 |]. intros w3 H3.
  apply wp_bind. eapply wp_load.
  { destruct H3 as (Hm & _). rewrite Hm. exact Es. }
  apply wp_bind. eapply wp_put_after; [exact H3 |]. intros w4 H4.
  apply wp_bind. eapply wp_put_after; [exact H4 |]. intros w5 H5.
  apply wp_bind. eapply wp_load.
  { destruct H5 as (Hm & _). rewrite Hm. exact Ep. }
  apply wp_bind. eapply wp_put_after; [exact H5 |]. intros w6 H6.
  apply wp_bind. eapply wp_put_after; [exact H6 |]. intros w7 H7.
  apply wp_ret. split; [reflexivity | exact H7].
Qed.

(** The loop over indices that all agree: nothing printed, nothing
    changed, [correcto] still [true]. *)
Lemma verificacion_from_igual count :
  forall k (w : world Main.var),
    (forall j, k <= j < k + count ->
               exists x, nth_error (mem w Main.C_seq) j = Some x /\
                         nth_error (mem w Main.C_par) j = Some x) ->
    for_break_from k count Main.compara true w = Some (true, w).
Proof.
  induction count as [|count IH]; intros k w Hall; [reflexivity |].
  destruct (Hall k ltac:(lia)) as (x & Es & Ep).
  cbn [for_break_from]. unfold bind at 1.
  rewrite (@compara_igual k x true w Es Ep). cbn [snd fst].
  apply IH. intros j Hj. apply Hall. lia.
Qed.

(** The loop reaching a first difference at [i]: the report is
    printed, [correcto] is [false], and the loop is left there. *)
Lemma verificacion_from_distinto count :
  forall k i s p (w : world Main.var),
    k <= i < k + count ->
    nth_error (mem w Main.C_seq) i = Some s ->
    nth_error (mem w Main.C_par) i = Some p ->
    s <> p ->
    (forall j, k <= j < i ->
               nth_error (mem w Main.C_seq) j = nth_error (mem w Main.C_par) j) ->
    wp (for_break_from k count Main.compara true)
       (fun r w' => r = false /\ imprimio (linea_error i s p) w w') w.
Proof.
  induction count as [|count IH]; intros k i s p w Hi Es Ep Hne Hbefore;
    [lia |].
  cbn [for_break_from]. destruct (Nat.eq_dec k i) as [-> | Hki].
  - apply wp_bind.
    eapply wp_mono; [| apply compara_distinto; [exact Es | exact Ep | exact Hne]].
    intros r w' (-> & Hw'). cbn [snd fst]. apply wp_ret. auto.
  - assert (Hk : exists x, nth_error (mem w Main.C_seq) k = Some x /\
                           nth_error (mem w Main.C_par) k = Some x).
    { destruct (nth_error (mem w Main.C_seq) k) as [x|] eqn:Ek.
      - exists x. split; [reflexivity |].
        rewrite <- (Hbefore k ltac:(lia)). exact Ek.
      - apply nth_error_None in Ek.
        assert (Hlen : i < length (mem w Main.C_seq))
          by (apply nth_error_Some; congruence).
        lia. }
    destruct Hk as (x & Ek & Ek').
    unfold wp, bind at 1. rewrite (@compara_igual k x true w Ek Ek').
    cbn [snd fst].
    apply IH; auto; try lia. intros j Hj. apply Hbefore. lia.
Qed.

Lemma wp_verificacion_igual (w : world Main.var) :
  Main.N <= length (mem w Main.C_seq) ->
  coinciden Main.N (mem w Main.C_seq) (mem w Main.C_par) ->
  wp Main.verificacion (fun r w' => r = true /\ imprimio [] w w') w.
Proof.
  intros Hlen Hall. unfold Main.verificacion, for_break, wp.
  rewrite verificacion_from_igual.
  - eexists _, _. split; [reflexivity |]. split; [reflexivity |].
    apply imprimio_refl.
  - intros j Hj.
    destruct (nth_error (mem w Main.C_seq) j) as [x|] eqn:Ej.
    + exists x. split; [reflexivity |]. rewrite <- Hall by lia. exact Ej.
    + apply nth_error_None in Ej. lia.
Qed.

Lemma wp_verificacion_distinto i s p (w : world Main.var) :
  primera_diferencia Main.N i s p (mem w Main.C_seq) (mem w Main.C_par) ->
  wp Main.verificacion
     (fun r w' => r = false /\ imprimio (linea_error i s p) w w') w.
Proof.
  intros (Hi & Es & Ep & Hne & Hbefore).
  unfold Main.verificacion, for_break.
  apply verificacion_from_distinto; auto; try lia.
  intros j Hj. apply Hbefore. lia.
Qed.

(** The verification with its status line. *)
Lemma wp_comprobacion r l (w : world Main.var) :
  wp Main.verificacion (fun r' w' => r' = r /\ imprimio l w w') w ->
  wp Main.comprobacion
     (fun r' w' => r' = r /\ imprimio (l ++ linea_estado r) w w') w.
Proof.
  intros Hv. unfold Main.comprobacion. apply wp_bind.
  eapply wp_mono; [| exact Hv].
  intros r' w1 (-> & H1).
  apply wp_bind. eapply wp_put_after; [exact H1 |]. intros w2 H2.
  apply wp_bind. eapply wp_put_after; [exact H2 |]. intros w3 H3.
  apply wp_bind. eapply wp_put_after; [exact H3 |]. intros w4 H4.
  apply wp_ret. split; [reflexivity |].
  rewrite <- !app_assoc in H4. exact H4.
Qed.

End VerificacionFacts.

(** ** Facts shared by the two programs *)

Section SharedFacts.

Context {RT : Runtime} {var : Type} {var_eq : EqDec var}.

(** The sequential summation loop. *)
Lemma wp_sum_for a b c len (w : world var) :
  c <> a -> c <> b ->
  length (mem w a) = len -> length (mem w b) = len ->
  length (mem w c) = len ->
  wp (for_ 0 len (sum_at a b c))
     (fun _ w' => solo_cambia c w w' /\
                  mem w' c = suma_contrato (mem w a) (mem w b)) w.
Proof.
  intros Hca Hcb Ha Hb Hc. unfold for_.
  apply sum_loop_covering with (len := len); auto.
  intros i. rewrite in_seq. lia.
Qed.

(** The parallel summation loop, whatever the schedule. *)
Lemma wp_sum_parallel a b c len T sigma (w : world var) :
  omp_any len T sigma ->
  c <> a -> c <> b ->
  length (mem w a) = len -> length (mem w b) = len ->
  length (mem w c) = len ->
  wp (omp_parallel_for sigma (sum_at a b c))
     (fun _ w' => solo_cambia c w w' /\
                  mem w' c = suma_contrato (mem w a) (mem w b)) w.
Proof.
  intros Hs Hca Hcb Ha Hb Hc. unfold omp_parallel_for.
  apply sum_loop_covering with (len := len); auto.
  apply (omp_any_covers Hs).
Qed.

(** The timing report sets the flags and prints two lines. *)
Lemma wp_imprime_tiempos ts tp (w : world var) :
  wp (imprime_tiempos ts tp)
     (fun _ w' => mem w' = mem w /\ gen w' = gen w /\
                  clock_reads w' = clock_reads w /\
                  cout w' = mk_ostream (items (cout w) ++ lineas_tiempo ts tp)
                                       true 4) w.
Proof.
  unfold imprime_tiempos.
  apply wp_bind. eapply wp_put_fixed_flujo; [apply flujo_refl |]. intros w1 H1.
  apply wp_bind. eapply wp_put_setprecision_flujo; [exact H1 |]. intros w2 H2.
  apply wp_bind. eapply wp_put_flujo; [exact H2 |]. intros w3 H3.
  apply wp_bind. eapply wp_put_double_flujo; [exact H3 |]. intros w4 H4.
  apply wp_bind. eapply wp_put_flujo; [exact H4 |]. intros w5 H5.
  apply wp_bind. eapply wp_put_flujo; [exact H5 |]. intros w6 H6.
  apply wp_bind. eapply wp_put_double_flujo; [exact H6 |]. intros w7 H7.
  eapply wp_put_flujo; [exact H7 |]. intros w8 H8. exact H8.
Qed.

End SharedFacts.

Lemma Forall_prefix_all (P : Z -> Prop) (l : list Z) :
  (forall j x, j < length l -> nth_error l j = Some x -> P x) -> Forall P l.
Proof.
  intros H. apply Forall_forall. intros x Hx.
  apply In_nth_error in Hx as (j & Hj).
  apply (H j x); [| exact Hj]. apply nth_error_Some. congruence.
Qed.

Lemma nth_error_upd_nth_cases i j x l y :
  nth_error (upd_nth i x l) j = Some y ->
  (j = i /\ y = x) \/ (j <> i /\ nth_error l j = Some y).
Proof.
  intros H. destruct (Nat.eq_dec j i) as [-> | Hji].
  - left. split; [reflexivity |].
    assert (Hi : i < length l).
    { rewrite <- (upd_nth_length i x l). apply nth_error_Some. congruence. }
    rewrite nth_error_upd_nth_eq in H by exact Hi. congruence.
  - right. split; [exact Hji |].
    rewrite nth_error_upd_nth_neq in H by congruence. exact H.
Qed.

(** ** main.cpp, block by block *)

Section MainFacts.

Context {RT : Runtime}.

Lemma wf_start stack seeded : Main.wf (Main.start stack seeded).
Proof.
  intros v. unfold Main.start. cbn [mem].
  now rewrite length_map, length_seq.
Qed.

Lemma wf_solo_cambia c l (w w' : world Main.var) :
  Main.wf w -> solo_cambia c w w' -> mem w' c = l -> length l = Main.N ->
  Main.wf w'.
Proof.
  intros Hwf (_ & _ & _ & Hm) Hc Hl v.
  destruct (eq_dec v c) as [-> | Hne]; [congruence |].
  rewrite Hm by exact Hne. apply Hwf.
Qed.

(** Lines 53-59: every cell of [A] and [B] receives a draw. *)
Lemma wp_inicializacion (w : world Main.var) :
  Main.wf w ->
  wp Main.inicializacion
     (fun _ w' => Main.wf w' /\ cout w' = cout w /\
                  clock_reads w' = clock_reads w /\
                  Forall en_rango (mem w' Main.A) /\
                  Forall en_rango (mem w' Main.B)) w.
Proof.
  intros Hwf. unfold Main.inicializacion.
  eapply wp_mono;
    [| apply (wp_for (fun k w' =>
          Main.wf w' /\ cout w' = cout w /\
          clock_reads w' = clock_reads w /\
          (forall j x, j < k -> nth_error (mem w' Main.A) j = Some x ->
                       en_rango x) /\
          (forall j x, j < k -> nth_error (mem w' Main.B) j = Some x ->
                       en_rango x)))].
  - intros ? w' (Hwf' & Ho & Hc & HA & HB).
    repeat split; auto; apply Forall_prefix_all; intros j y Hj;
      rewrite Hwf' in Hj; eauto.
  - lia.
  - split; [exact Hwf | split; [reflexivity | split; [reflexivity |]]].
    split; intros j x Hj; lia.
  - intros i w1 Hi (Hwf1 & Ho1 & Hc1 & HA & HB).
    apply wp_bind, wp_dist; [lia |]. intros a g Ha.
    apply wp_bind, wp_store; [cbn; rewrite Hwf1; lia |].
    apply wp_bind, wp_dist; [lia |]. intros b g' Hb.
    apply wp_bind, wp_store; [cbn; rewrite Hwf1; lia |].
    apply wp_bind, wp_store; [cbn; rewrite Hwf1; lia |].
    apply wp_store; [cbn; rewrite Hwf1; lia |].
    split; [| split; [exact Ho1 | split; [exact Hc1 | split]]].
    + intros v. destruct v; cbn; try rewrite upd_nth_length; apply Hwf1.
    + cbn. intros j x Hj Hx.
      apply nth_error_upd_nth_cases in Hx as [[-> ->] | [Hne Hx]];
        [exact Ha | apply (HA j); [lia | exact Hx]].
    + cbn. intros j x Hj Hx.
      apply nth_error_upd_nth_cases in Hx as [[-> ->] | [Hne Hx]];
        [exact Hb | apply (HB j); [lia | exact Hx]].
Qed.

(** Lines 68-70. *)
Lemma wp_suma_secuencial (w : world Main.var) :
  Main.wf w ->
  wp Main.suma_secuencial
     (fun _ w' => Main.wf w' /\ solo_cambia Main.C_seq w w' /\
                  mem w' Main.C_seq =
                  suma_contrato (mem w Main.A) (mem w Main.B)) w.
Proof.
  intros Hwf. unfold Main.suma_secuencial.
  eapply wp_mono; [| apply wp_sum_for; try discriminate; apply Hwf].
  intros ? w' (Hsc & Hc). split; [| split; [exact Hsc | exact Hc]].
  eapply wf_solo_cambia; [exact Hwf | exact Hsc | exact Hc |].
  rewrite suma_contrato_length; rewrite !Hwf; reflexivity.
Qed.

(** Lines 87-91, under any schedule. *)
Lemma wp_suma_paralela T sigma (w : world Main.var) :
  omp_any Main.N T sigma ->
  Main.wf w ->
  wp (Main.suma_paralela sigma)
     (fun _ w' => Main.wf w' /\ solo_cambia Main.C_par w w' /\
                  mem w' Main.C_par =
                  suma_contrato (mem w Main.A) (mem w Main.B)) w.
Proof.
  intros Hs Hwf. unfold Main.suma_paralela.
  eapply wp_mono;
    [| eapply wp_sum_parallel; [exact Hs | try discriminate; apply Hwf ..]].
  intros ? w' (Hsc & Hc). split; [| split; [exact Hsc | exact Hc]].
  eapply wf_solo_cambia; [exact Hwf | exact Hsc | exact Hc |].
  rewrite suma_contrato_length; rewrite !Hwf; reflexivity.
Qed.

(** Lines 135-141: the preview of an array holding at least
    [mostrar] elements. *)
Lemma wp_imprimeArreglo d nombre (w : world Main.var) :
  Main.mostrar <= length (mem w d) ->
  wp (Main.imprimeArreglo d nombre)
     (fun _ w' => imprimio (vista nombre (mem w d)) w w') w.
Proof.
  intros Hlen. unfold Main.imprimeArreglo.
  apply wp_bind. eapply wp_put_after; [apply imprimio_refl |]. intros w1 H1.
  apply wp_bind. eapply wp_put_after; [exact H1 |]. intros w2 H2.
  apply wp_bind. eapply wp_put_after; [exact H2 |]. intros w3 H3.
  apply wp_bind. eapply wp_put_after; [exact H3 |]. intros w4 H4.
  apply wp_bind. eapply wp_put_after; [exact H4 |]. intros w5 H5.
  apply wp_bind.
  eapply wp_mono; [| eapply muestra_loop; [exact Hlen | exact H5]].
  intros ? w6 H6.
  eapply wp_put_after; [exact H6 |]. intros w7 H7.
  unfold vista. rewrite <- !app_assoc in H7. exact H7.
Qed.

Lemma mostrar_le_N : Main.mostrar <= Main.N.
Proof. apply Nat.leb_le. reflexivity. Qed.

(** Lines 106-118, whatever the two result arrays hold. *)
Lemma wp_comprobacion_veredicto (w : world Main.var) :
  Main.N <= length (mem w Main.C_seq) ->
  Main.N <= length (mem w Main.C_par) ->
  wp Main.comprobacion
     (fun correcto w' =>
        exists estado,
          imprimio estado w w' /\
          veredicto Main.N (mem w Main.C_seq) (mem w Main.C_par)
                    correcto estado) w.
Proof.
  intros Hs Hp.
  destruct (primera_diferencia_o_coinciden _ _ Hs Hp)
    as [Hall | (i & s & p & Hdif)].
  - eapply wp_mono;
      [| apply wp_comprobacion, wp_verificacion_igual; assumption].
    intros r w' (-> & Hw'). exists (linea_estado true).
    split; [exact Hw' |]. left. auto.
  - eapply wp_mono;
      [| apply wp_comprobacion, wp_verificacion_distinto; exact Hdif].
    intros r w' (-> & Hw'). exists (linea_error i s p ++ linea_estado false).
    split; [exact Hw' |]. right. exists i, s, p. auto.
Qed.

(** Lines 102-129, whatever the arrays hold. *)
Lemma wp_reporte ts tp (w : world Main.var) :
  Main.wf w ->
  wp (Main.reporte ts tp)
     (fun code w' =>
        code = 0%Z /\ mem w' = mem w /\ gen w' = gen w /\
        clock_reads w' = clock_reads w /\
        exists correcto estado,
          veredicto Main.N (mem w Main.C_seq) (mem w Main.C_par)
                    correcto estado /\
          cout w' =
          mk_ostream (items (cout w)
                        ++ vista "A" (mem w Main.A)
                        ++ vista "B" (mem w Main.B)
                        ++ vista "C (paralelo)" (mem w Main.C_par)
                        ++ estado ++ lineas_tiempo ts tp) true 4) w.
Proof.
  intros Hwf. unfold Main.reporte.
  pose proof mostrar_le_N as Hk.
  apply wp_bind.
  eapply wp_mono; [| apply wp_imprimeArreglo; rewrite Hwf; exact Hk].
  intros ? w1 H1.
  apply wp_bind.
  eapply wp_mono;
    [| apply wp_imprimeArreglo; destruct H1 as (-> & _); rewrite Hwf; exact Hk].
  intros ? w2 H2. pose proof (imprimio_trans H1 H2) as H12.
  apply wp_bind.
  eapply wp_mono;
    [| apply wp_imprimeArreglo; destruct H12 as (-> & _); rewrite Hwf;
       exact Hk].
  intros ? w3 H3. pose proof (imprimio_trans H12 H3) as H123.
  apply wp_bind.
  eapply wp_mono;
    [| apply wp_comprobacion_veredicto; destruct H123 as (-> & _);
       rewrite Hwf; reflexivity].
  intros correcto w4 (estado & H4 & Hv).
  pose proof (imprimio_trans H123 H4) as (Hm & Hg & Hc & Ho).
  apply wp_bind.
  eapply wp_mono; [| apply wp_imprime_tiempos].
  intros ? w5 (Hm5 & Hg5 & Hc5 & Ho5). apply wp_ret.
  split; [reflexivity |].
  split; [congruence | split; [congruence | split; [congruence |]]].
  exists correcto, estado. split.
  - destruct H1 as (E1 & _), H12 as (E2 & _), H123 as (E3 & _).
    rewrite E3 in Hv. exact Hv.
  - rewrite Ho5, Ho.
    destruct H1 as (E1 & _), H12 as (E2 & _).
    rewrite E1, E2. unfold emit. cbn [items].
    rewrite <- !app_assoc. reflexivity.
Qed.

(** Lines 66-129, from any world in which the arrays have their
    declared length: the inputs are left as they were, both results
    are the contract's, the clock is read four times, and the report
    says OK. *)
Lemma wp_calculo T sigma (w : world Main.var) :
  omp_any Main.N T sigma ->
  Main.wf w ->
  wp (Main.calculo sigma)
     (fun code w' =>
        code = 0%Z /\ Main.wf w' /\
        mem w' Main.A = mem w Main.A /\ mem w' Main.B = mem w Main.B /\
        mem w' Main.C_seq = suma_contrato (mem w Main.A) (mem w Main.B) /\
        mem w' Main.C_par = suma_contrato (mem w Main.A) (mem w Main.B) /\
        clock_reads w' = 4 + clock_reads w /\
        cout w' =
        mk_ostream
          (items (cout w)
             ++ vista "A" (mem w' Main.A)
             ++ vista "B" (mem w' Main.B)
             ++ vista "C (paralelo)" (mem w' Main.C_par)
             ++ linea_estado true
             ++ lineas_tiempo
                  (clock_now (1 + clock_reads w) - clock_now (clock_reads w))
                  (clock_now (3 + clock_reads w)
                   - clock_now (2 + clock_reads w)))
          true 4) w.
Proof.
  intros Hs Hwf. unfold Main.calculo.
  apply wp_bind, wp_now.
  apply wp_bind.
  eapply wp_mono; [| apply wp_suma_secuencial; exact Hwf].
  intros ? w4 (Hwf4 & (Ho4 & Hg4 & Hc4 & Hm4) & Hseq).
  cbn [mem cout gen clock_reads] in *.
  apply wp_bind, wp_now. apply wp_bind, wp_now.
  apply wp_bind.
  eapply wp_mono; [| eapply wp_suma_paralela; [exact Hs | exact Hwf4]].
  intros ? w7 (Hwf7 & (Ho7 & Hg7 & Hc7 & Hm7) & Hpar).
  cbn [mem cout gen clock_reads] in *.
  apply wp_bind, wp_now.
  eapply wp_mono; [| apply wp_reporte; exact Hwf7].
  cbn [mem cout gen clock_reads].
  intros code w9 (-> & Hm9 & Hg9 & Hc9 & correcto & estado & Hv & Ho9).
  assert (EA : mem w9 Main.A = mem w Main.A).
  { rewrite Hm9, Hm7, Hm4 by discriminate. reflexivity. }
  assert (EB : mem w9 Main.B = mem w Main.B).
  { rewrite Hm9, Hm7, Hm4 by discriminate. reflexivity. }
  assert (ES : mem w9 Main.C_seq = suma_contrato (mem w Main.A) (mem w Main.B)).
  { rewrite Hm9, Hm7 by discriminate. exact Hseq. }
  assert (EP : mem w9 Main.C_par = suma_contrato (mem w Main.A) (mem w Main.B)).
  { rewrite Hm9, Hpar, !Hm4 by discriminate. reflexivity. }
  split; [reflexivity |].
  split; [intros v; rewrite Hm9; apply Hwf7 |].
  split; [exact EA | split; [exact EB | split; [exact ES | split; [exact EP |]]]].
  split; [rewrite Hc9, Hc7, Hc4; reflexivity |].
  assert (Hest : estado = linea_estado true).
  { destruct Hv as [(_ & _ & ->) | (i & s & p & Hdif & _)]; [reflexivity |].
    exfalso. apply (primera_diferencia_not_coinciden Hdif).
    intros j _. rewrite Hm7 by discriminate.
    rewrite Hseq, Hpar, !Hm4 by discriminate. reflexivity. }
  subst estado.
  rewrite Ho9, Ho7, Ho4, Hc7, Hc4.
  rewrite Hpar, !Hm7, !Hm4 by discriminate.
  rewrite EA, EB, EP. reflexivity.
Qed.

(** The whole of [main]. *)
Lemma wp_main T sigma (w : world Main.var) :
  omp_any Main.N T sigma ->
  Main.wf w ->
  wp (Main.main sigma)
     (fun code w' =>
        code = 0%Z /\ Main.wf w' /\
        Forall en_rango (mem w' Main.A) /\
        Forall en_rango (mem w' Main.B) /\
        mem w' Main.C_seq = suma_contrato (mem w' Main.A) (mem w' Main.B) /\
        mem w' Main.C_par = suma_contrato (mem w' Main.A) (mem w' Main.B) /\
        clock_reads w' = 4 + clock_reads w /\
        cout w' =
        mk_ostream
          (items (cout w)
             ++ salida_main
                  (mem w' Main.A) (mem w' Main.B) (mem w' Main.C_par)
                  (linea_estado true)
                  (clock_now (1 + clock_reads w) - clock_now (clock_reads w))
                  (clock_now (3 + clock_reads w)
                   - clock_now (2 + clock_reads w)))
          true 4) w.
Proof.
  intros Hs Hwf. unfold Main.main.
  apply wp_bind. eapply wp_put_after; [apply imprimio_refl |].
  intros w1 (Hm1 & Hg1 & Hc1 & Ho1).
  assert (Hwf1 : Main.wf w1) by (intros v; rewrite Hm1; apply Hwf).
  apply wp_bind.
  eapply wp_mono; [| apply wp_inicializacion; exact Hwf1].
  intros ? w2 (Hwf2 & Ho2 & Hc2 & HA & HB).
  eapply wp_mono; [| eapply wp_calculo; [exact Hs | exact Hwf2]].
  intros code w9 (-> & Hwf9 & EA & EB & ES & EP & Hc9 & Ho9).
  split; [reflexivity | split; [exact Hwf9 |]].
  split; [rewrite EA; exact HA |].
  split; [rewrite EB; exact HB |].
  split; [rewrite EA, EB; exact ES |].
  split; [rewrite EA, EB; exact EP |].
  split; [rewrite Hc9, Hc2, Hc1; reflexivity |].
  rewrite Ho9, Ho2, Ho1, Hc2, Hc1. unfold salida_main, emit. cbn [items].
  rewrite <- !app_assoc. reflexivity.
Qed.

End MainFacts.

(** ** The second program, block by block *)

Section SolucionFacts.

Context {RT : Runtime}.

Lemma wf_start_solucion seeded : Solucion.wf (Solucion.start seeded).
Proof. intros v. unfold Solucion.start. cbn [mem]. apply repeat_length. Qed.

Lemma wf_solo_cambia_solucion c l (w w' : world Solucion.var) :
  Solucion.wf w -> solo_cambia c w w' -> mem w' c = l ->
  length l = Solucion.n -> Solucion.wf w'.
Proof.
  intros Hwf (_ & _ & _ & Hm) Hc Hl v.
  destruct (eq_dec v c) as [-> | Hne]; [congruence |].
  rewrite Hm by exact Hne. apply Hwf.
Qed.

(** Lines 40-43. *)
Lemma wp_generacion (w : world Solucion.var) :
  Solucion.wf w ->
  wp Solucion.generacion
     (fun _ w' => Solucion.wf w' /\ cout w' = cout w /\
                  clock_reads w' = clock_reads w /\
                  Forall en_rango (mem w' Solucion.A) /\
                  Forall en_rango (mem w' Solucion.B)) w.
Proof.
  intros Hwf. unfold Solucion.generacion.
  eapply wp_mono;
    [| apply (wp_for (fun k w' =>
          Solucion.wf w' /\ cout w' = cout w /\
          clock_reads w' = clock_reads w /\
          (forall j x, j < k -> nth_error (mem w' Solucion.A) j = Some x ->
                       en_rango x) /\
          (forall j x, j < k -> nth_error (mem w' Solucion.B) j = Some x ->
                       en_rango x)))].
  - intros ? w' (Hwf' & Ho & Hc & HA & HB).
    repeat split; auto; apply Forall_prefix_all; intros j y Hj;
      rewrite Hwf' in Hj; eauto.
  - lia.
  - split; [exact Hwf | split; [reflexivity | split; [reflexivity |]]].
    split; intros j x Hj; lia.
  - intros i w1 Hi (Hwf1 & Ho1 & Hc1 & HA & HB).
    apply wp_bind, wp_dist; [lia |]. intros a g Ha.
    apply wp_bind, wp_store; [cbn; rewrite Hwf1; lia |].
    apply wp_bind, wp_dist; [lia |]. intros b g' Hb.
    apply wp_store; [cbn; rewrite Hwf1; lia |].
    split; [| split; [exact Ho1 | split; [exact Hc1 | split]]].
    + intros v. destruct v; cbn; try rewrite upd_nth_length; apply Hwf1.
    + cbn. intros j x Hj Hx.
      apply nth_error_upd_nth_cases in Hx as [[-> ->] | [Hne Hx]];
        [exact Ha | apply (HA j); [lia | exact Hx]].
    + cbn. intros j x Hj Hx.
      apply nth_error_upd_nth_cases in Hx as [[-> ->] | [Hne Hx]];
        [exact Hb | apply (HB j); [lia | exact Hx]].
Qed.

(** Lines 55-57. *)
Lemma wp_suma_secuencial_solucion (w : world Solucion.var) :
  Solucion.wf w ->
  wp Solucion.suma_secuencial
     (fun _ w' => Solucion.wf w' /\ solo_cambia Solucion.R w w' /\
                  mem w' Solucion.R =
                  suma_contrato (mem w Solucion.A) (mem w Solucion.B)) w.
Proof.
  intros Hwf. unfold Solucion.suma_secuencial.
  eapply wp_mono; [| apply wp_sum_for; try discriminate; apply Hwf].
  intros ? w' (Hsc & Hc). split; [| split; [exact Hsc | exact Hc]].
  eapply wf_solo_cambia_solucion; [exact Hwf | exact Hsc | exact Hc |].
  rewrite suma_contrato_length; rewrite !Hwf; reflexivity.
Qed.

(** Lines 68-71, under any schedule. *)
Lemma wp_suma_paralela_solucion T sigma (w : world Solucion.var) :
  omp_any Solucion.n T sigma ->
  Solucion.wf w ->
  wp (Solucion.suma_paralela sigma)
     (fun _ w' => Solucion.wf w' /\ solo_cambia Solucion.Rpar w w' /\
                  mem w' Solucion.Rpar =
                  suma_contrato (mem w Solucion.A) (mem w Solucion.B)) w.
Proof.
  intros Hs Hwf. unfold Solucion.suma_paralela.
  eapply wp_mono;
    [| eapply wp_sum_parallel; [exact Hs | try discriminate; apply Hwf ..]].
  intros ? w' (Hsc & Hc). split; [| split; [exact Hsc | exact Hc]].
  eapply wf_solo_cambia_solucion; [exact Hwf | exact Hsc | exact Hc |].
  rewrite suma_contrato_length; rewrite !Hwf; reflexivity.
Qed.

(** One of the three array lines of lines 80-90. *)
Lemma wp_imprime titulo d (w : world Solucion.var) :
  Solucion.n <= length (mem w d) ->
  wp (Solucion.imprime titulo d)
     (fun _ w' => imprimio (linea titulo (mem w d)) w w') w.
Proof.
  intros Hlen. unfold Solucion.imprime.
  apply wp_bind. eapply wp_put_after; [apply imprimio_refl |]. intros w1 H1.
  apply wp_bind.
  eapply wp_mono; [| eapply muestra_loop; [exact Hlen | exact H1]].
  intros ? w2 H2.
  eapply wp_put_after; [exact H2 |]. intros w3 H3.
  unfold linea. rewrite <- !app_assoc in H3. exact H3.
Qed.

(** Lines 80-99, whatever the arrays hold. *)
Lemma wp_reporte_solucion ts tp (w : world Solucion.var) :
  Solucion.wf w ->
  wp (Solucion.reporte ts tp)
     (fun code w' =>
        code = 0%Z /\ mem w' = mem w /\ gen w' = gen w /\
        clock_reads w' = clock_reads w /\
        cout w' =
        mk_ostream (items (cout w)
                      ++ salida_solucion (mem w Solucion.A) (mem w Solucion.B)
                           (mem w Solucion.Rpar) ts tp) true 4) w.
Proof.
  intros Hwf. unfold Solucion.reporte.
  apply wp_bind.
  eapply wp_mono; [| apply wp_imprime; rewrite Hwf; reflexivity].
  intros ? w1 H1.
  apply wp_bind.
  eapply wp_mono;
    [| apply wp_imprime; destruct H1 as (-> & _); rewrite Hwf; reflexivity].
  intros ? w2 H2. pose proof (imprimio_trans H1 H2) as H12.
  apply wp_bind.
  eapply wp_mono;
    [| apply wp_imprime; destruct H12 as (-> & _); rewrite Hwf; reflexivity].
  intros ? w3 H3.
  pose proof (imprimio_trans H12 H3) as (Hm & Hg & Hc & Ho).
  apply wp_bind.
  eapply wp_mono; [| apply wp_imprime_tiempos].
  intros ? w4 (Hm4 & Hg4 & Hc4 & Ho4). apply wp_ret.
  split; [reflexivity |].
  split; [congruence | split; [congruence | split; [congruence |]]].
  rewrite Ho4, Ho.
  destruct H1 as (E1 & _), H12 as (E2 & _).
  rewrite E1, E2. unfold salida_solucion, emit. cbn [items].
  rewrite <- !app_assoc. reflexivity.
Qed.

(** Lines 53-99, from any world in which the vectors have their
    length. *)
Lemma wp_calculo_solucion T sigma (w : world Solucion.var) :
  omp_any Solucion.n T sigma ->
  Solucion.wf w ->
  wp (Solucion.calculo sigma)
     (fun code w' =>
        code = 0%Z /\ Solucion.wf w' /\
        mem w' Solucion.A = mem w Solucion.A /\
        mem w' Solucion.B = mem w Solucion.B /\
        mem w' Solucion.R =
        suma_contrato (mem w Solucion.A) (mem w Solucion.B) /\
        mem w' Solucion.Rpar =
        suma_contrato (mem w Solucion.A) (mem w Solucion.B) /\
        clock_reads w' = 4 + clock_reads w /\
        cout w' =
        mk_ostream
          (items (cout w)
             ++ salida_solucion
                  (mem w' Solucion.A) (mem w' Solucion.B)
                  (mem w' Solucion.Rpar)
                  (clock_now (1 + clock_reads w) - clock_now (clock_reads w))
                  (clock_now (3 + clock_reads w)
                   - clock_now (2 + clock_reads w)))
          true 4) w.
Proof.
  intros Hs Hwf. unfold Solucion.calculo.
  apply wp_bind, wp_now.
  apply wp_bind.
  eapply wp_mono; [| apply wp_suma_secuencial_solucion; exact Hwf].
  intros ? w4 (Hwf4 & (Ho4 & Hg4 & Hc4 & Hm4) & Hseq).
  cbn [mem cout gen clock_reads] in *.
  apply wp_bind, wp_now. apply wp_bind, wp_now.
  apply wp_bind.
  eapply wp_mono;
    [| eapply wp_suma_paralela_solucion; [exact Hs | exact Hwf4]].
  intros ? w7 (Hwf7 & (Ho7 & Hg7 & Hc7 & Hm7) & Hpar).
  cbn [mem cout gen clock_reads] in *.
  apply wp_bind, wp_now.
  eapply wp_mono; [| apply wp_reporte_solucion; exact Hwf7].
  cbn [mem cout gen clock_reads].
  intros code w9 (-> & Hm9 & Hg9 & Hc9 & Ho9).
  assert (EA : mem w9 Solucion.A = mem w Solucion.A).
  { rewrite Hm9, Hm7, Hm4 by discriminate. reflexivity. }
  assert (EB : mem w9 Solucion.B = mem w Solucion.B).
  { rewrite Hm9, Hm7, Hm4 by discriminate. reflexivity. }
  assert (ES : mem w9 Solucion.R =
               suma_contrato (mem w Solucion.A) (mem w Solucion.B)).
  { rewrite Hm9, Hm7 by discriminate. exact Hseq. }
  assert (EP : mem w9 Solucion.Rpar =
               suma_contrato (mem w Solucion.A) (mem w Solucion.B)).
  { rewrite Hm9, Hpar, !Hm4 by discriminate. reflexivity. }
  split; [reflexivity |].
  split; [intros v; rewrite Hm9; apply Hwf7 |].
  split; [exact EA | split; [exact EB | split; [exact ES | split; [exact EP |]]]].
  split; [rewrite Hc9, Hc7, Hc4; reflexivity |].
  rewrite Ho9, Ho7, Ho4, Hc7, Hc4.
  rewrite Hpar, !Hm7, !Hm4 by discriminate.
  rewrite EA, EB, EP. reflexivity.
Qed.

(** The whole of [main] of the second program. *)
Lemma wp_main_solucion T sigma (w : world Solucion.var) :
  omp_any Solucion.n T sigma ->
  Solucion.wf w ->
  wp (Solucion.main sigma)
     (fun code w' =>
        code = 0%Z /\ Solucion.wf w' /\
        Forall en_rango (mem w' Solucion.A) /\
        Forall en_rango (mem w' Solucion.B) /\
        mem w' Solucion.R =
        suma_contrato (mem w' Solucion.A) (mem w' Solucion.B) /\
        mem w' Solucion.Rpar =
        suma_contrato (mem w' Solucion.A) (mem w' Solucion.B) /\
        clock_reads w' = 4 + clock_reads w /\
        cout w' =
        mk_ostream
          (items (cout w)
             ++ salida_solucion
                  (mem w' Solucion.A) (mem w' Solucion.B)
                  (mem w' Solucion.Rpar)
                  (clock_now (1 + clock_reads w) - clock_now (clock_reads w))
                  (clock_now (3 + clock_reads w)
                   - clock_now (2 + clock_reads w)))
          true 4) w.
Proof.
  intros Hs Hwf. unfold Solucion.main.
  apply wp_bind.
  eapply wp_mono; [| apply wp_generacion; exact Hwf].
  intros ? w2 (Hwf2 & Ho2 & Hc2 & HA & HB).
  eapply wp_mono; [| eapply wp_calculo_solucion; [exact Hs | exact Hwf2]].
  intros code w9 (-> & Hwf9 & EA & EB & ES & EP & Hc9 & Ho9).
  split; [reflexivity | split; [exact Hwf9 |]].
  split; [rewrite EA; exact HA |].
  split; [rewrite EB; exact HB |].
  split; [rewrite EA, EB; exact ES |].
  split; [rewrite EA, EB; exact EP |].
  split; [rewrite Hc9, Hc2; reflexivity |].
  rewrite Ho9, Ho2, Hc2. reflexivity.
Qed.

End SolucionFacts.

(** ** Facts about the concrete inputs *)

Lemma orden_main_static : omp_static Main.N Main.chunk 2 orden_main.
Proof. apply interleave_concat. Qed.

Lemma orden_main_any : omp_any Main.N 2 orden_main.
Proof.
  apply (@omp_static_any Main.N Main.chunk 2); [| lia | apply orden_main_static].
  apply Nat.leb_le. reflexivity.
Qed.

Lemma orden_solucion_any : omp_any Solucion.n Solucion.num_threads orden_solucion.
Proof.
  apply (@omp_static_any Solucion.n 5 Solucion.num_threads);
    [lia | unfold Solucion.num_threads; lia | apply interleave_concat].
Qed.

Lemma wf_mundo_main : @Main.wf lcg_runtime mundo_main.
Proof. apply wf_start. Qed.

Lemma wf_mundo_solucion : @Solucion.wf lcg_runtime mundo_solucion.
Proof. apply wf_start_solucion. Qed.

Lemma wf_mundo_fallo : @Main.wf lcg_runtime mundo_fallo.
Proof. intros v. destruct v; apply repeat_length. Qed.

Lemma wf_mundo_sietes : @Main.wf lcg_runtime mundo_sietes.
Proof. intros v. apply repeat_length. Qed.

Lemma wf_mundo_sietes_solucion : @Solucion.wf lcg_runtime mundo_sietes_solucion.
Proof. intros v. apply repeat_length. Qed.

Lemma sietes_en_rango k : Forall en_rango (repeat 7%Z k).
Proof.
  apply Forall_forall. intros x Hx. apply repeat_spec in Hx. subst.
  unfold en_rango. lia.
Qed.

(** ** The claims *)

(** C1.  For input arrays [A], [B] of the declared length, the parallel
    pass leaves in its result array exactly what the sequential pass
    leaves in its own: the two arrays are equal, so equal at every
    index.  For main.cpp this holds under [schedule(static, c)] with any
    chunk size [c >= 1] and any team size [T >= 1], in any interleaving
    of the threads' iterations, and more generally for any distribution
    of the iterations over [T] work lists ([omp_any]); for the second
    program, which has no [schedule] clause, under any distribution.
    It also holds when the threads interleave at the grain of single
    reads and writes ([equipo_llega_a]): every such run stays within
    [3 N] accesses, never stops short of the end and never leaves an
    array, and ends with the two result arrays equal. *)
Theorem C1_paralela_igual_a_secuencial :
  forall (RT : Runtime),
    (forall (w : world Main.var) c T sigma,
        Main.wf w -> 1 <= c -> 1 <= T -> omp_static Main.N c T sigma ->
        wp (Main.suma_secuencial ;; Main.suma_paralela sigma)
           (fun _ w' => length (mem w' Main.C_seq) = Main.N /\
                        mem w' Main.C_par = mem w' Main.C_seq /\
                        forall i, i < Main.N ->
                          nth_error (mem w' Main.C_par) i =
                          nth_error (mem w' Main.C_seq) i) w) /\
    (forall (w : world Main.var) T sigma,
        Main.wf w -> omp_any Main.N T sigma ->
        wp (Main.suma_secuencial ;; Main.suma_paralela sigma)
           (fun _ w' => length (mem w' Main.C_seq) = Main.N /\
                        mem w' Main.C_par = mem w' Main.C_seq) w) /\
    (forall (w w1 : world Main.var) c T,
        Main.wf w -> 1 <= c -> 1 <= T ->
        Main.suma_secuencial w = Some (tt, w1) ->
        equipo_llega_a Main.A Main.B Main.C_par Main.N
                       (static_schedule Main.N c T) w1
                       (fun w' => mem w' Main.C_par = mem w' Main.C_seq)) /\
    (forall (w : world Solucion.var) T sigma,
        Solucion.wf w -> omp_any Solucion.n T sigma ->
        wp (Solucion.suma_secuencial ;; Solucion.suma_paralela sigma)
           (fun _ w' => length (mem w' Solucion.R) = Solucion.n /\
                        mem w' Solucion.Rpar = mem w' Solucion.R /\
                        forall i, i < Solucion.n ->
                          nth_error (mem w' Solucion.Rpar) i =
                          nth_error (mem w' Solucion.R) i) w) /\
    (forall (w w1 : world Solucion.var) works,
        Solucion.wf w -> Permutation (concat works) (seq 0 Solucion.n) ->
        Solucion.suma_secuencial w = Some (tt, w1) ->
        equipo_llega_a Solucion.A Solucion.B Solucion.Rpar Solucion.n
                       works w1
                       (fun w' => mem w' Solucion.Rpar = mem w' Solucion.R)).
Proof.
  intros RT.
  assert (HM : forall (w : world Main.var) T sigma,
             Main.wf w -> omp_any Main.N T sigma ->
             wp (Main.suma_secuencial ;; Main.suma_paralela sigma)
                (fun _ w' => length (mem w' Main.C_seq) = Main.N /\
                             mem w' Main.C_par = mem w' Main.C_seq) w).
  { intros w T sigma Hwf Hs. apply wp_bind.
    eapply wp_mono; [| apply wp_suma_secuencial; exact Hwf].
    intros ? w1 (Hwf1 & (_ & _ & _ & Hm1) & Hseq).
    eapply wp_mono; [| eapply wp_suma_paralela; [exact Hs | exact Hwf1]].
    intros ? w2 (Hwf2 & (_ & _ & _ & Hm2) & Hpar).
    split; [apply Hwf2 |].
    rewrite Hpar, Hm2, Hseq, !Hm1 by discriminate. reflexivity. }
  split; [| split; [exact HM | split; [| split]]].
  - intros w c T sigma Hwf Hc HT Hs.
    eapply wp_mono; [| apply (HM w T sigma Hwf (omp_static_any Hc HT Hs))].
    intros ? w' (Hlen & Heq). repeat split; auto.
    intros i _. now rewrite Heq.
  - intros w w1 c T Hwf Hc HT Hrun.
    destruct (wp_suma_secuencial Hwf)
      as ([] & w1' & Hrun' & Hwf1 & (_ & _ & _ & Hm1) & Hseq).
    rewrite Hrun in Hrun'. injection Hrun' as <-.
    eapply equipo_llega_a_mono;
      [| apply equipo_llega_contrato;
         [discriminate | discriminate | apply Hwf1 .. |
          apply static_schedule_partition; assumption]].
    intros w' ((_ & _ & _ & Hm) & Hpar). cbv beta.
    rewrite Hpar, Hm, Hseq, !Hm1 by discriminate. reflexivity.
  - intros w T sigma Hwf Hs. apply wp_bind.
    eapply wp_mono; [| apply wp_suma_secuencial_solucion; exact Hwf].
    intros ? w1 (Hwf1 & (_ & _ & _ & Hm1) & Hseq).
    eapply wp_mono;
      [| eapply wp_suma_paralela_solucion; [exact Hs | exact Hwf1]].
    intros ? w2 (Hwf2 & (_ & _ & _ & Hm2) & Hpar).
    assert (Heq : mem w2 Solucion.Rpar = mem w2 Solucion.R).
    { rewrite Hpar, Hm2, Hseq, !Hm1 by discriminate. reflexivity. }
    split; [apply Hwf2 | split; [exact Heq |]].
    intros i _. now rewrite Heq.
  - intros w w1 works Hwf Hperm Hrun.
    destruct (wp_suma_secuencial_solucion Hwf)
      as ([] & w1' & Hrun' & Hwf1 & (_ & _ & _ & Hm1) & Hseq).
    rewrite Hrun in Hrun'. injection Hrun' as <-.
    eapply equipo_llega_a_mono;
      [| apply equipo_llega_contrato;
         [discriminate | discriminate | apply Hwf1 .. | exact Hperm]].
    intros w' ((_ & _ & _ & Hm) & Hpar). cbv beta.
    rewrite Hpar, Hm, Hseq, !Hm1 by discriminate. reflexivity.
Qed.

Lemma C1_witness :
  @Main.wf lcg_runtime mundo_main /\
  omp_static Main.N Main.chunk 2 orden_main /\
  wp (Main.suma_secuencial ;; Main.suma_paralela orden_main)
     (fun _ w' => length (mem w' Main.C_seq) = Main.N /\
                  mem w' Main.C_par = mem w' Main.C_seq /\
                  forall i, i < Main.N ->
                    nth_error (mem w' Main.C_par) i =
                    nth_error (mem w' Main.C_seq) i) mundo_main.
Proof.
  split; [exact wf_mundo_main | split; [exact orden_main_static |]].
  apply (proj1 (C1_paralela_igual_a_secuencial lcg_runtime)
               mundo_main Main.chunk 2 orden_main).
  - exact wf_mundo_main.
  - apply Nat.leb_le. reflexivity.
  - apply Nat.leb_le. reflexivity.
  - exact orden_main_static.
Defined.

(** C2.  For input arrays [A], [B] of the declared length, the
    sequential pass ends with a result array of that length in which
    cell [i] holds [A[i] + B[i]], the [int] addition of the program;
    the value is the mathematical sum whenever that sum is an [int].
    The result is a function of [A] and [B] alone: runs from two worlds
    that agree on [A] and [B], and may differ in everything else, end
    with equal result arrays.  Both programs. *)
Theorem C2_suma_secuencial_contrato :
  forall (RT : Runtime),
    (forall (w : world Main.var),
        Main.wf w ->
        wp Main.suma_secuencial
           (fun _ w' =>
              length (mem w' Main.C_seq) = Main.N /\
              forall i, i < Main.N ->
                exists a b,
                  nth_error (mem w Main.A) i = Some a /\
                  nth_error (mem w Main.B) i = Some b /\
                  nth_error (mem w' Main.C_seq) i = Some (add_int a b) /\
                  (in_int (a + b) ->
                   nth_error (mem w' Main.C_seq) i = Some (a + b)%Z)) w) /\
    (forall (w1 w2 : world Main.var),
        Main.wf w1 -> Main.wf w2 ->
        mem w1 Main.A = mem w2 Main.A -> mem w1 Main.B = mem w2 Main.B ->
        exists w1' w2',
          Main.suma_secuencial w1 = Some (tt, w1') /\
          Main.suma_secuencial w2 = Some (tt, w2') /\
          mem w1' Main.C_seq = mem w2' Main.C_seq) /\
    (forall (w : world Solucion.var),
        Solucion.wf w ->
        wp Solucion.suma_secuencial
           (fun _ w' =>
              length (mem w' Solucion.R) = Solucion.n /\
              forall i, i < Solucion.n ->
                exists a b,
                  nth_error (mem w Solucion.A) i = Some a /\
                  nth_error (mem w Solucion.B) i = Some b /\
                  nth_error (mem w' Solucion.R) i = Some (add_int a b) /\
                  (in_int (a + b) ->
                   nth_error (mem w' Solucion.R) i = Some (a + b)%Z)) w) /\
    (forall (w1 w2 : world Solucion.var),
        Solucion.wf w1 -> Solucion.wf w2 ->
        mem w1 Solucion.A = mem w2 Solucion.A ->
        mem w1 Solucion.B = mem w2 Solucion.B ->
        exists w1' w2',
          Solucion.suma_secuencial w1 = Some (tt, w1') /\
          Solucion.suma_secuencial w2 = Some (tt, w2') /\
          mem w1' Solucion.R = mem w2' Solucion.R).
Proof.
  intros RT.
  assert (Hcell : forall (la lb lr : array) len i,
             length la = len -> length lb = len ->
             lr = suma_contrato la lb -> i < len ->
             exists a b,
               nth_error la i = Some a /\ nth_error lb i = Some b /\
               nth_error lr i = Some (add_int a b) /\
               (in_int (a + b) -> nth_error lr i = Some (a + b)%Z)).
  { intros la lb lr len i Ha Hb -> Hi.
    destruct (nth_error la i) as [a|] eqn:Ea;
      [| apply nth_error_None in Ea; lia].
    destruct (nth_error lb i) as [b|] eqn:Eb;
      [| apply nth_error_None in Eb; lia].
    exists a, b. rewrite nth_error_suma_contrato, Ea, Eb.
    repeat split. intros Hin. unfold add_int.
    now rewrite wrap_int_exact. }
  repeat split.
  - intros w Hwf.
    eapply wp_mono; [| apply wp_suma_secuencial; exact Hwf].
    intros ? w' (Hwf' & _ & Hseq). split; [apply Hwf' |].
    intros i Hi. apply (Hcell _ _ _ Main.N); auto.
  - intros w1 w2 Hwf1 Hwf2 HA HB.
    destruct (wp_suma_secuencial Hwf1) as ([] & w1' & E1 & _ & _ & H1).
    destruct (wp_suma_secuencial Hwf2) as ([] & w2' & E2 & _ & _ & H2).
    exists w1', w2'. repeat split; auto. congruence.
  - intros w Hwf.
    eapply wp_mono; [| apply wp_suma_secuencial_solucion; exact Hwf].
    intros ? w' (Hwf' & _ & Hseq). split; [apply Hwf' |].
    intros i Hi. apply (Hcell _ _ _ Solucion.n); auto.
  - intros w1 w2 Hwf1 Hwf2 HA HB.
    destruct (wp_suma_secuencial_solucion Hwf1) as ([] & w1' & E1 & _ & _ & H1).
    destruct (wp_suma_secuencial_solucion Hwf2) as ([] & w2' & E2 & _ & _ & H2).
    exists w1', w2'. repeat split; auto. congruence.
Qed.

Lemma C2_witness :
  @Main.wf lcg_runtime mundo_sietes /\
  wp Main.suma_secuencial
     (fun _ w' =>
        length (mem w' Main.C_seq) = Main.N /\
        forall i, i < Main.N ->
          exists a b,
            nth_error (mem mundo_sietes Main.A) i = Some a /\
            nth_error (mem mundo_sietes Main.B) i = Some b /\
            nth_error (mem w' Main.C_seq) i = Some (add_int a b) /\
            (in_int (a + b) ->
             nth_error (mem w' Main.C_seq) i = Some (a + b)%Z)) mundo_sietes.
Proof.
  split; [exact wf_mundo_sietes |].
  apply (proj1 (C2_suma_secuencial_contrato lcg_runtime) mundo_sietes).
  exact wf_mundo_sietes.
Defined.

(** C3.  The verifier of main.cpp goes through the indices in order.
    At the first index [i] of [0, N) where [C_seq] and [C_par] differ it
    prints the error line with [i] and the two values, then the status
    line with FALLO, and [correcto] is false.  It looks at no index
    after [i]: the run is the same, and does not go wrong, in any world
    whose two arrays have the same first [i + 1] cells, whatever follows
    them and even if nothing follows them (every access is checked, so
    a look at a later cell of such an array would have no result).
    When the arrays agree on all of [0, N) it prints only the status
    line, with OK, and [correcto] is true.  Whenever the arrays of
    length [N] do not agree, there is such a first index, so FALLO is
    printed. *)
Theorem C3_verificador :
  forall (RT : Runtime) (w : world Main.var),
    (forall i s p,
        primera_diferencia Main.N i s p (mem w Main.C_seq) (mem w Main.C_par) ->
        wp Main.comprobacion
           (fun correcto w' =>
              correcto = false /\
              imprimio (linea_error i s p ++ linea_estado false) w w') w) /\
    (forall i s p (w2 : world Main.var),
        primera_diferencia Main.N i s p (mem w Main.C_seq) (mem w Main.C_par) ->
        firstn (S i) (mem w2 Main.C_seq) = firstn (S i) (mem w Main.C_seq) ->
        firstn (S i) (mem w2 Main.C_par) = firstn (S i) (mem w Main.C_par) ->
        wp Main.comprobacion
           (fun correcto w' =>
              correcto = false /\
              imprimio (linea_error i s p ++ linea_estado false) w2 w') w2) /\
    (Main.N <= length (mem w Main.C_seq) ->
     coinciden Main.N (mem w Main.C_seq) (mem w Main.C_par) ->
     wp Main.comprobacion
        (fun correcto w' =>
           correcto = true /\ imprimio (linea_estado true) w w') w) /\
    (Main.N <= length (mem w Main.C_seq) ->
     Main.N <= length (mem w Main.C_par) ->
     ~ coinciden Main.N (mem w Main.C_seq) (mem w Main.C_par) ->
     exists i s p,
       primera_diferencia Main.N i s p (mem w Main.C_seq) (mem w Main.C_par) /\
       wp Main.comprobacion
          (fun correcto w' =>
             correcto = false /\
             imprimio (linea_error i s p ++ linea_estado false) w w') w).
Proof.
  intros RT w.
  assert (Hdif : forall (w0 : world Main.var) i s p,
             primera_diferencia Main.N i s p
                                (mem w0 Main.C_seq) (mem w0 Main.C_par) ->
             wp Main.comprobacion
                (fun correcto w' =>
                   correcto = false /\
                   imprimio (linea_error i s p ++ linea_estado false) w0 w') w0).
  { intros w0 i s p H.
    apply wp_comprobacion, wp_verificacion_distinto. exact H. }
  split; [apply Hdif | split; [| split]].
  - intros i s p w2 H Hs Hp. apply Hdif.
    eapply primera_diferencia_prefix; [exact Hs | exact Hp | exact H].
  - intros Hlen Hall.
    eapply wp_mono;
      [| apply wp_comprobacion, wp_verificacion_igual; assumption].
    intros r w' H. exact H.
  - intros Hs Hp Hno.
    destruct (primera_diferencia_o_coinciden _ _ Hs Hp)
      as [Hall | (i & s & p & H)]; [contradiction |].
    exists i, s, p. split; [exact H | apply Hdif; exact H].
Qed.

Lemma primera_diferencia_corto :
  primera_diferencia Main.N 1 7 8
                     (mem mundo_corto Main.C_seq) (mem mundo_corto Main.C_par).
Proof.
  split; [apply Nat.ltb_lt; reflexivity |].
  split; [reflexivity | split; [reflexivity | split; [discriminate |]]].
  intros j Hj. assert (j = 0) as -> by lia. reflexivity.
Qed.

Lemma C3_witness :
  primera_diferencia Main.N 1 7 8
                     (mem mundo_corto Main.C_seq) (mem mundo_corto Main.C_par) /\
  wp Main.comprobacion
     (fun correcto w' =>
        correcto = false /\
        imprimio (linea_error 1 7 8 ++ linea_estado false) mundo_corto w')
     mundo_corto.
Proof.
  split; [exact primera_diferencia_corto |].
  apply (proj1 (@C3_verificador lcg_runtime mundo_corto) 1 7%Z 8%Z).
  exact primera_diferencia_corto.
Defined.

Lemma primera_diferencia_unica n i s p i' s' p' ls lp :
  primera_diferencia n i s p ls lp ->
  primera_diferencia n i' s' p' ls lp ->
  i' = i /\ s' = s /\ p' = p.
Proof.
  intros (_ & Es & Ep & Hne & Hb) (_ & Es' & Ep' & Hne' & Hb').
  assert (i' = i) as ->.
  { destruct (Nat.lt_trichotomy i i') as [Hlt | [Heq | Hgt]].
    - specialize (Hb' i Hlt). congruence.
    - congruence.
    - specialize (Hb i' Hgt). congruence. }
  repeat split; congruence.
Qed.

(** C4.  A mismatch found by the verification of main.cpp is printed,
    and nothing more comes of it: from any world in which the result
    arrays first differ at [i], the rest of [main] prints the previews,
    the error line, the status line with FALLO, then goes on to print
    the two timing lines, and returns 0.  From every world the report
    returns 0, and so does the whole of [main]; the same holds for the
    second program. *)
Theorem C4_codigo_de_salida :
  forall (RT : Runtime),
    (forall (w : world Main.var) ts tp i s p,
        Main.wf w ->
        primera_diferencia Main.N i s p (mem w Main.C_seq) (mem w Main.C_par) ->
        wp (Main.reporte ts tp)
           (fun code w' =>
              code = 0%Z /\
              cout w' =
              mk_ostream (items (cout w)
                            ++ vista "A" (mem w Main.A)
                            ++ vista "B" (mem w Main.B)
                            ++ vista "C (paralelo)" (mem w Main.C_par)
                            ++ (linea_error i s p ++ linea_estado false)
                            ++ lineas_tiempo ts tp) true 4) w) /\
    (forall (w : world Main.var) ts tp,
        Main.wf w -> wp (Main.reporte ts tp) (fun code _ => code = 0%Z) w) /\
    (forall (w : world Main.var) T sigma,
        Main.wf w -> omp_any Main.N T sigma ->
        wp (Main.main sigma) (fun code _ => code = 0%Z) w) /\
    (forall (w : world Solucion.var) ts tp,
        Solucion.wf w ->
        wp (Solucion.reporte ts tp) (fun code _ => code = 0%Z) w) /\
    (forall (w : world Solucion.var) T sigma,
        Solucion.wf w -> omp_any Solucion.n T sigma ->
        wp (Solucion.main sigma) (fun code _ => code = 0%Z) w).
Proof.
  intros RT. repeat split.
  - intros w ts tp i s p Hwf Hdif.
    eapply wp_mono; [| apply wp_reporte; exact Hwf].
    intros code w' (-> & _ & _ & _ & correcto & estado & Hv & Ho).
    split; [reflexivity |].
    destruct Hv as [(Hall & _) | (i' & s' & p' & Hdif' & _ & ->)].
    + exfalso. exact (primera_diferencia_not_coinciden Hdif Hall).
    + destruct (primera_diferencia_unica Hdif Hdif') as (-> & -> & ->).
      exact Ho.
  - intros w ts tp Hwf.
    eapply wp_mono; [| apply wp_reporte; exact Hwf].
    intros code w' (-> & _). reflexivity.
  - intros w T sigma Hwf Hs.
    eapply wp_mono; [| eapply wp_main; [exact Hs | exact Hwf]].
    intros code w' (-> & _). reflexivity.
  - intros w ts tp Hwf.
    eapply wp_mono; [| apply wp_reporte_solucion; exact Hwf].
    intros code w' (-> & _). reflexivity.
  - intros w T sigma Hwf Hs.
    eapply wp_mono; [| eapply wp_main_solucion; [exact Hs | exact Hwf]].
    intros code w' (-> & _). reflexivity.
Qed.

Lemma primera_diferencia_fallo :
  primera_diferencia Main.N 0 0 1
                     (mem mundo_fallo Main.C_seq) (mem mundo_fallo Main.C_par).
Proof.
  split; [apply Nat.ltb_lt; reflexivity |].
  split; [reflexivity | split; [reflexivity | split; [discriminate |]]].
  intros j Hj. lia.
Qed.

Lemma C4_witness :
  @Main.wf lcg_runtime mundo_fallo /\
  primera_diferencia Main.N 0 0 1
                     (mem mundo_fallo Main.C_seq) (mem mundo_fallo Main.C_par) /\
  wp (Main.reporte 5 3)
     (fun code w' =>
        code = 0%Z /\
        cout w' =
        mk_ostream (items (cout mundo_fallo)
                      ++ vista "A" (mem mundo_fallo Main.A)
                      ++ vista "B" (mem mundo_fallo Main.B)
                      ++ vista "C (paralelo)" (mem mundo_fallo Main.C_par)
                      ++ (linea_error 0 0 1 ++ linea_estado false)
                      ++ lineas_tiempo 5 3) true 4) mundo_fallo.
Proof.
  split; [exact wf_mundo_fallo | split; [exact primera_diferencia_fallo |]].
  apply (proj1 (C4_codigo_de_salida lcg_runtime) mundo_fallo 5%Z 3%Z 0 0%Z 1%Z).
  - exact wf_mundo_fallo.
  - exact primera_diferencia_fallo.
Defined.

(** ** Who verifies and reports *)

(** The report of main.cpp tells agreement from disagreement. *)
Lemma reporte_informa {RT : Runtime} ts tp :
  informa_verificacion Main.wf (Main.reporte ts tp)
                       Main.C_seq Main.C_par Main.N.
Proof.
  intros w1 w2 Hwf1 Hwf2 Ho Hm Hco Hnco.
  destruct (wp_reporte ts tp Hwf1)
    as (c1 & w1' & E1 & _ & _ & _ & _ & b1 & est1 & Hv1 & Ho1).
  destruct (wp_reporte ts tp Hwf2)
    as (c2 & w2' & E2 & _ & _ & _ & _ & b2 & est2 & Hv2 & Ho2).
  exists c1, w1', c2, w2'. split; [exact E1 | split; [exact E2 |]].
  rewrite Ho1, Ho2. cbn [items].
  rewrite Ho, (Hm Main.A), (Hm Main.B), (Hm Main.C_par) by discriminate.
  intros E. do 4 apply app_inv_head in E.
  destruct Hv1 as [(_ & _ & ->) | (i & s & p & Hd & _)];
    [| exact (primera_diferencia_not_coinciden Hd Hco)].
  destruct Hv2 as [(Hco2 & _) | (i & s & p & _ & _ & ->)];
    [exact (Hnco Hco2) |].
  unfold linea_estado, linea_error in E. cbn [app] in E. discriminate E.
Qed.

(** The report of the second program never reads [R]: it runs through
    as soon as the three vectors it prints have their [n] cells, and
    what it prints is made of those three alone. *)
Lemma wp_reporte_solucion_sin_R {RT : Runtime} ts tp
      (w : world Solucion.var) :
  (forall v, v <> Solucion.R -> Solucion.n <= length (mem w v)) ->
  wp (Solucion.reporte ts tp)
     (fun code w' =>
        code = 0%Z /\ mem w' = mem w /\
        cout w' =
        mk_ostream
          (items (cout w)
             ++ linea "Arreglo A: " (mem w Solucion.A)
             ++ linea "Arreglo B: " (mem w Solucion.B)
             ++ linea "Arreglo Resultado (Paralelo): " (mem w Solucion.Rpar)
             ++ lineas_tiempo ts tp) true 4) w.
Proof.
  intros Hlen. unfold Solucion.reporte.
  apply wp_bind.
  eapply wp_mono; [| apply wp_imprime, Hlen; discriminate].
  intros ? w1 H1.
  apply wp_bind.
  eapply wp_mono;
    [| apply wp_imprime; destruct H1 as (-> & _); apply Hlen; discriminate].
  intros ? w2 H2. pose proof (imprimio_trans H1 H2) as H12.
  apply wp_bind.
  eapply wp_mono;
    [| apply wp_imprime; destruct H12 as (-> & _); apply Hlen; discriminate].
  intros ? w3 H3.
  pose proof (imprimio_trans H12 H3) as (Hm & Hg & Hc & Ho).
  apply wp_bind.
  eapply wp_mono; [| apply wp_imprime_tiempos].
  intros ? w4 (Hm4 & Hg4 & Hc4 & Ho4). apply wp_ret.
  split; [reflexivity | split; [congruence |]].
  rewrite Ho4, Ho.
  destruct H1 as (E1 & _), H12 as (E2 & _).
  rewrite E1, E2. unfold emit. cbn [items].
  rewrite <- !app_assoc. reflexivity.
Qed.

(** So it prints the same whatever [R] holds. *)
Lemma reporte_solucion_sin_R {RT : Runtime} ts tp
      (w1 w2 : world Solucion.var) :
  (forall v, v <> Solucion.R -> Solucion.n <= length (mem w1 v)) ->
  cout w1 = cout w2 ->
  (forall v, v <> Solucion.R -> mem w1 v = mem w2 v) ->
  exists w1' w2',
    Solucion.reporte ts tp w1 = Some (0%Z, w1') /\
    Solucion.reporte ts tp w2 = Some (0%Z, w2') /\
    cout w1' = cout w2'.
Proof.
  intros Hlen Ho Hm.
  assert (Hlen2 : forall v, v <> Solucion.R ->
                            Solucion.n <= length (mem w2 v))
    by (intros v Hv; rewrite <- (Hm v Hv); exact (Hlen v Hv)).
  destruct (@wp_reporte_solucion_sin_R RT ts tp w1 Hlen)
    as (c1 & w1' & E1 & -> & _ & Ho1).
  destruct (@wp_reporte_solucion_sin_R RT ts tp w2 Hlen2)
    as (c2 & w2' & E2 & -> & _ & Ho2).
  exists w1', w2'. split; [exact E1 | split; [exact E2 |]].
  rewrite Ho1, Ho2, Ho.
  rewrite (Hm Solucion.A), (Hm Solucion.B), (Hm Solucion.Rpar)
    by discriminate.
  reflexivity.
Qed.

Lemma wf_salvo_R {RT : Runtime} (w : world Solucion.var) :
  Solucion.wf w ->
  forall v, v <> Solucion.R -> Solucion.n <= length (mem w v).
Proof. intros Hwf v _. rewrite Hwf. apply le_n. Qed.

Lemma wf_mundo_desacuerdo : @Solucion.wf lcg_runtime mundo_desacuerdo.
Proof. intros []; reflexivity. Qed.

Lemma sietes_coinciden :
  coinciden Solucion.n (mem mundo_sietes_solucion Solucion.R)
            (mem mundo_sietes_solucion Solucion.Rpar).
Proof. intros j _. reflexivity. Qed.

Lemma desacuerdo_no_coinciden :
  ~ coinciden Solucion.n (mem mundo_desacuerdo Solucion.R)
      (mem mundo_desacuerdo Solucion.Rpar).
Proof.
  intros H. specialize (H 0 ltac:(apply Nat.ltb_lt; reflexivity)).
  discriminate H.
Qed.

Lemma sietes_desacuerdo_salvo_R :
  forall v, v <> Solucion.R ->
            mem mundo_sietes_solucion v = mem mundo_desacuerdo v.
Proof. intros [] Hv; try reflexivity. now contradiction Hv. Qed.

(** C5, as stated, fails on the second program.  Its report does not
    tell agreement from disagreement: run where [R] and [Rpar] are both
    all 7, and run where [R] is all 0 instead, it prints the same three
    array lines and two timing lines, and nothing about [R].  And the
    whole program, run on the seed 42 with two threads, prints exactly
    its three array lines and its two timing lines: there is no status
    line, in any wording. *)
Lemma C5_counterexample :
  ~ @informa_verificacion lcg_runtime Solucion.var
      (@Solucion.wf lcg_runtime) (Solucion.reporte 5 3)
      Solucion.R Solucion.Rpar Solucion.n /\
  coinciden Solucion.n (mem mundo_sietes_solucion Solucion.R)
            (mem mundo_sietes_solucion Solucion.Rpar) /\
  ~ coinciden Solucion.n (mem mundo_desacuerdo Solucion.R)
      (mem mundo_desacuerdo Solucion.Rpar) /\
  impreso (Solucion.reporte 5 3 mundo_sietes_solucion)
  = Some ([Text "Arreglo A: "] ++ muestra (repeat 7%Z 10) ++ [Endl]
            ++ [Text "Arreglo B: "] ++ muestra (repeat 7%Z 10) ++ [Endl]
            ++ [Text "Arreglo Resultado (Paralelo): "]
            ++ muestra (repeat 7%Z 10) ++ [Endl]
            ++ [Text "\nTiempo secuencial (ms): "; Real true 4 5; Endl;
                Text "Tiempo paralelo   (ms): "; Real true 4 3; Endl]) /\
  impreso (Solucion.reporte 5 3 mundo_desacuerdo)
  = impreso (Solucion.reporte 5 3 mundo_sietes_solucion) /\
  impreso (Solucion.main orden_solucion mundo_solucion)
  = Some [Text "Arreglo A: ";
          Num 43; Text " "; Num 265; Text " "; Num 807; Text " ";
          Num 533; Text " "; Num 267; Text " "; Num 753; Text " ";
          Num 143; Text " "; Num 437; Text " "; Num 915; Text " ";
          Num 1; Text " "; Endl;
          Text "Arreglo B: ";
          Num 28; Text " "; Num 754; Text " "; Num 736; Text " ";
          Num 334; Text " "; Num 460; Text " "; Num 866; Text " ";
          Num 704; Text " "; Num 614; Text " "; Num 220; Text " ";
          Num 154; Text " "; Endl;
          Text "Arreglo Resultado (Paralelo): ";
          Num 71; Text " "; Num 1019; Text " "; Num 1543; Text " ";
          Num 867; Text " "; Num 727; Text " "; Num 1619; Text " ";
          Num 847; Text " "; Num 1051; Text " "; Num 1135; Text " ";
          Num 155; Text " "; Endl;
          Text "\nTiempo secuencial (ms): "; Real true 4 1000; Endl;
          Text "Tiempo paralelo   (ms): "; Real true 4 1000; Endl].
Proof.
  split; [| split; [exact sietes_coinciden |
                    split; [exact desacuerdo_no_coinciden |]]].
  - intros H.
    destruct (H mundo_sietes_solucion mundo_desacuerdo
                wf_mundo_sietes_solucion wf_mundo_desacuerdo eq_refl
                sietes_desacuerdo_salvo_R sietes_coinciden
                desacuerdo_no_coinciden)
      as (c1 & w1' & c2 & w2' & E1 & E2 & Hne).
    destruct (@reporte_solucion_sin_R lcg_runtime 5%Z 3%Z
                mundo_sietes_solucion mundo_desacuerdo
                (wf_salvo_R wf_mundo_sietes_solucion) eq_refl
                sietes_desacuerdo_salvo_R)
      as (v1 & v2 & F1 & F2 & Ho).
    apply Hne.
    assert (G1 : Some (c1, w1') = Some (0%Z, v1))
      by (rewrite <- E1; exact F1).
    assert (G2 : Some (c2, w2') = Some (0%Z, v2))
      by (rewrite <- E2; exact F2).
    injection G1 as _ ->. injection G2 as _ ->. now rewrite Ho.
  - split; [vm_compute; reflexivity |].
    split; vm_compute; reflexivity.
Qed.

(** C5, amended.  Only main.cpp verifies and prints a status line.

    main.cpp: its report tells agreement of [C_seq] and [C_par] from
    disagreement; from any world with arrays of the declared length,
    the lines it prints between the previews and the timings are the
    status line OK when the two results agree on [0, N), and the error
    line for the first difference followed by the status line FALLO
    when they do not; and the whole program, under any schedule, prints
    the status line OK.

    The second program: its report never reads [R].  From any world
    in which [A], [B] and [Rpar] have their [n] cells it runs through
    and prints the three array lines and the two timing lines and
    nothing else, the same whatever [R] holds, so whether or not [R]
    agrees with [Rpar]; and the whole program, under any schedule,
    prints exactly those five lines. *)
Theorem C5_estado_solo_en_main :
  forall (RT : Runtime),
    (forall ts tp,
        informa_verificacion Main.wf (Main.reporte ts tp)
                             Main.C_seq Main.C_par Main.N) /\
    (forall (w : world Main.var) ts tp,
        Main.wf w ->
        wp (Main.reporte ts tp)
           (fun _ w' =>
              exists estado,
                ((coinciden Main.N (mem w Main.C_seq) (mem w Main.C_par) /\
                  estado = linea_estado true) \/
                 (exists i s p,
                     primera_diferencia Main.N i s p
                       (mem w Main.C_seq) (mem w Main.C_par) /\
                     estado = linea_error i s p ++ linea_estado false)) /\
                cout w' =
                mk_ostream (items (cout w)
                              ++ vista "A" (mem w Main.A)
                              ++ vista "B" (mem w Main.B)
                              ++ vista "C (paralelo)" (mem w Main.C_par)
                              ++ estado ++ lineas_tiempo ts tp) true 4) w) /\
    (forall (w : world Main.var) T sigma,
        Main.wf w -> omp_any Main.N T sigma ->
        wp (Main.main sigma)
           (fun _ w' =>
              cout w' =
              mk_ostream
                (items (cout w)
                   ++ [Text "Sumando Arreglos en Paralelo (OpenMP)\n"]
                   ++ vista "A" (mem w' Main.A)
                   ++ vista "B" (mem w' Main.B)
                   ++ vista "C (paralelo)" (mem w' Main.C_par)
                   ++ linea_estado true
                   ++ lineas_tiempo
                        (clock_now (1 + clock_reads w)
                         - clock_now (clock_reads w))
                        (clock_now (3 + clock_reads w)
                         - clock_now (2 + clock_reads w)))
                true 4) w) /\
    (forall (w : world Solucion.var) ts tp,
        (forall v, v <> Solucion.R -> Solucion.n <= length (mem w v)) ->
        wp (Solucion.reporte ts tp)
           (fun _ w' =>
              cout w' =
              mk_ostream
                (items (cout w)
                   ++ linea "Arreglo A: " (mem w Solucion.A)
                   ++ linea "Arreglo B: " (mem w Solucion.B)
                   ++ linea "Arreglo Resultado (Paralelo): "
                        (mem w Solucion.Rpar)
                   ++ lineas_tiempo ts tp) true 4) w) /\
    (forall ts tp (w1 w2 : world Solucion.var),
        (forall v, v <> Solucion.R -> Solucion.n <= length (mem w1 v)) ->
        cout w1 = cout w2 ->
        (forall v, v <> Solucion.R -> mem w1 v = mem w2 v) ->
        exists w1' w2',
          Solucion.reporte ts tp w1 = Some (0%Z, w1') /\
          Solucion.reporte ts tp w2 = Some (0%Z, w2') /\
          cout w1' = cout w2') /\
    (forall (w : world Solucion.var) T sigma,
        Solucion.wf w -> omp_any Solucion.n T sigma ->
        wp (Solucion.main sigma)
           (fun _ w' =>
              cout w' =
              mk_ostream
                (items (cout w)
                   ++ linea "Arreglo A: " (mem w' Solucion.A)
                   ++ linea "Arreglo B: " (mem w' Solucion.B)
                   ++ linea "Arreglo Resultado (Paralelo): "
                        (mem w' Solucion.Rpar)
                   ++ lineas_tiempo
                        (clock_now (1 + clock_reads w)
                         - clock_now (clock_reads w))
                        (clock_now (3 + clock_reads w)
                         - clock_now (2 + clock_reads w)))
                true 4) w).
Proof.
  intros RT.
  split; [exact reporte_informa |].
  split; [| split; [| split; [| split]]].
  - intros w ts tp Hwf.
    eapply wp_mono; [| apply wp_reporte; exact Hwf].
    intros code w' (_ & _ & _ & _ & correcto & estado & Hv & Ho).
    exists estado. split; [| exact Ho].
    destruct Hv as [(Hco & _ & E) | (i & s & p & Hd & _ & E)].
    + left. split; assumption.
    + right. exists i, s, p. split; assumption.
  - intros w T sigma Hwf Hs.
    eapply wp_mono; [| eapply wp_main; [exact Hs | exact Hwf]].
    intros code w' (_ & _ & _ & _ & _ & _ & _ & Ho). exact Ho.
  - intros w ts tp Hlen.
    eapply wp_mono; [| apply wp_reporte_solucion_sin_R; exact Hlen].
    intros code w' (_ & _ & Ho). exact Ho.
  - intros ts tp w1 w2. apply reporte_solucion_sin_R.
  - intros w T sigma Hwf Hs.
    eapply wp_mono; [| eapply wp_main_solucion; [exact Hs | exact Hwf]].
    intros code w' (_ & _ & _ & _ & _ & _ & _ & Ho). exact Ho.
Qed.

Lemma C5_witness :
  (@Solucion.wf lcg_runtime mundo_solucion /\
   omp_any Solucion.n Solucion.num_threads orden_solucion /\
   wp (Solucion.main orden_solucion)
      (fun _ w' =>
         cout w' =
         mk_ostream
           (items (cout mundo_solucion)
              ++ linea "Arreglo A: " (mem w' Solucion.A)
              ++ linea "Arreglo B: " (mem w' Solucion.B)
              ++ linea "Arreglo Resultado (Paralelo): " (mem w' Solucion.Rpar)
              ++ lineas_tiempo
                   (@clock_now lcg_runtime (1 + clock_reads mundo_solucion)
                    - @clock_now lcg_runtime (clock_reads mundo_solucion))
                   (@clock_now lcg_runtime (3 + clock_reads mundo_solucion)
                    - @clock_now lcg_runtime (2 + clock_reads mundo_solucion)))
           true 4) mundo_solucion) /\
  ((forall v, v <> Solucion.R ->
               Solucion.n <= length (mem mundo_sietes_solucion v)) /\
   cout mundo_sietes_solucion = cout mundo_desacuerdo /\
   (forall v, v <> Solucion.R ->
              mem mundo_sietes_solucion v = mem mundo_desacuerdo v) /\
   exists w1' w2',
     Solucion.reporte 5 3 mundo_sietes_solucion = Some (0%Z, w1') /\
     Solucion.reporte 5 3 mundo_desacuerdo = Some (0%Z, w2') /\
     cout w1' = cout w2').
Proof.
  pose proof (C5_estado_solo_en_main lcg_runtime)
    as (_ & _ & _ & _ & H5 & H6).
  split.
  - split; [exact wf_mundo_solucion | split; [exact orden_solucion_any |]].
    exact (H6 mundo_solucion Solucion.num_threads orden_solucion
              wf_mundo_solucion orden_solucion_any).
  - split; [exact (wf_salvo_R wf_mundo_sietes_solucion) |].
    split; [reflexivity |].
    split; [exact sietes_desacuerdo_salvo_R |].
    exact (H5 5%Z 3%Z mundo_sietes_solucion mundo_desacuerdo
              (wf_salvo_R wf_mundo_sietes_solucion) eq_refl
              sietes_desacuerdo_salvo_R).
Defined.

(** C6.  After the generation loop, every cell of [A] and of [B] holds
    a value of [1, 1000]: all the cells are overwritten by a draw of
    [uniform_int_distribution<int>(1, 1000)], whatever they held
    before.  The arrays still hold such values when [main] ends.  Both
    programs. *)
Theorem C6_valores_en_rango :
  forall (RT : Runtime),
    (forall (w : world Main.var),
        Main.wf w ->
        wp Main.inicializacion
           (fun _ w' => length (mem w' Main.A) = Main.N /\
                        length (mem w' Main.B) = Main.N /\
                        Forall en_rango (mem w' Main.A) /\
                        Forall en_rango (mem w' Main.B)) w) /\
    (forall (w : world Main.var) T sigma,
        Main.wf w -> omp_any Main.N T sigma ->
        wp (Main.main sigma)
           (fun _ w' => Forall en_rango (mem w' Main.A) /\
                        Forall en_rango (mem w' Main.B)) w) /\
    (forall (w : world Solucion.var),
        Solucion.wf w ->
        wp Solucion.generacion
           (fun _ w' => length (mem w' Solucion.A) = Solucion.n /\
                        length (mem w' Solucion.B) = Solucion.n /\
                        Forall en_rango (mem w' Solucion.A) /\
                        Forall en_rango (mem w' Solucion.B)) w) /\
    (forall (w : world Solucion.var) T sigma,
        Solucion.wf w -> omp_any Solucion.n T sigma ->
        wp (Solucion.main sigma)
           (fun _ w' => Forall en_rango (mem w' Solucion.A) /\
                        Forall en_rango (mem w' Solucion.B)) w).
Proof.
  intros RT. split; [| split; [| split]].
  - intros w Hwf.
    eapply wp_mono; [| apply wp_inicializacion; exact Hwf].
    intros ? w' (Hwf' & _ & _ & HA & HB). repeat split; auto.
  - intros w T sigma Hwf Hs.
    eapply wp_mono; [| eapply wp_main; [exact Hs | exact Hwf]].
    intros ? w' (_ & _ & HA & HB & _). split; assumption.
  - intros w Hwf.
    eapply wp_mono; [| apply wp_generacion; exact Hwf].
    intros ? w' (Hwf' & _ & _ & HA & HB). repeat split; auto.
  - intros w T sigma Hwf Hs.
    eapply wp_mono; [| eapply wp_main_solucion; [exact Hs | exact Hwf]].
    intros ? w' (_ & _ & HA & HB & _). split; assumption.
Qed.

Lemma C6_witness :
  @Main.wf lcg_runtime mundo_main /\
  wp Main.inicializacion
     (fun _ w' => length (mem w' Main.A) = Main.N /\
                  length (mem w' Main.B) = Main.N /\
                  Forall en_rango (mem w' Main.A) /\
                  Forall en_rango (mem w' Main.B)) mundo_main.
Proof.
  split; [exact wf_mundo_main |].
  apply (proj1 (C6_valores_en_rango lcg_runtime) mundo_main).
  exact wf_mundo_main.
Defined.

(** C7.  [imprimeArreglo] prints its heading and then the first
    [mostrar] elements of the array, each followed by a blank, and an
    end of line; [mostrar] is 10 and [N] is 1000, so the prefix is
    within the array.  [main] of main.cpp prints such a preview of [A],
    [B] and [C_par], and ends with the two durations, printed under
    [fixed] with precision 4 (the [Real true 4] items of
    [lineas_tiempo]).  The second program prints the first [n = 10]
    elements of [A], [B] and [Rpar], which is all of them, and the same
    two timing lines. *)
Theorem C7_reporte :
  forall (RT : Runtime),
    (forall (w : world Main.var) d nombre,
        Main.mostrar <= length (mem w d) ->
        wp (Main.imprimeArreglo d nombre)
           (fun _ w' =>
              imprimio ([Text "Arreglo "; Text nombre; Text " (primeros ";
                         Num 10; Text "): "]
                          ++ muestra (firstn 10 (mem w d)) ++ [Endl]) w w') w) /\
    (Main.mostrar = 10 /\ Main.N = 1000 /\ Main.mostrar <= Main.N) /\
    (forall (w : world Main.var) T sigma,
        Main.wf w -> omp_any Main.N T sigma ->
        wp (Main.main sigma)
           (fun _ w' =>
              cout w' =
              mk_ostream
                (items (cout w)
                   ++ [Text "Sumando Arreglos en Paralelo (OpenMP)\n"]
                   ++ vista "A" (mem w' Main.A)
                   ++ vista "B" (mem w' Main.B)
                   ++ vista "C (paralelo)" (mem w' Main.C_par)
                   ++ linea_estado true
                   ++ lineas_tiempo
                        (clock_now (1 + clock_reads w)
                         - clock_now (clock_reads w))
                        (clock_now (3 + clock_reads w)
                         - clock_now (2 + clock_reads w)))
                true 4) w) /\
    (Solucion.n = 10 /\
     forall (w : world Solucion.var) T sigma,
        Solucion.wf w -> omp_any Solucion.n T sigma ->
        wp (Solucion.main sigma)
           (fun _ w' =>
              length (mem w' Solucion.A) = Solucion.n /\
              cout w' =
              mk_ostream
                (items (cout w)
                   ++ linea "Arreglo A: " (mem w' Solucion.A)
                   ++ linea "Arreglo B: " (mem w' Solucion.B)
                   ++ linea "Arreglo Resultado (Paralelo): "
                        (mem w' Solucion.Rpar)
                   ++ lineas_tiempo
                        (clock_now (1 + clock_reads w)
                         - clock_now (clock_reads w))
                        (clock_now (3 + clock_reads w)
                         - clock_now (2 + clock_reads w)))
                true 4) w).
Proof.
  intros RT. split; [| split; [| split; [| split]]].
  - intros w d nombre Hlen.
    eapply wp_mono; [| apply wp_imprimeArreglo; exact Hlen].
    intros ? w' H. exact H.
  - split; [reflexivity | split; [reflexivity | apply mostrar_le_N]].
  - intros w T sigma Hwf Hs.
    eapply wp_mono; [| eapply wp_main; [exact Hs | exact Hwf]].
    intros ? w' (_ & _ & _ & _ & _ & _ & _ & Ho). exact Ho.
  - reflexivity.
  - intros w T sigma Hwf Hs.
    eapply wp_mono; [| eapply wp_main_solucion; [exact Hs | exact Hwf]].
    intros ? w' (_ & Hwf' & _ & _ & _ & _ & _ & Ho).
    split; [apply Hwf' |]. rewrite Ho. reflexivity.
Qed.

Lemma C7_witness :
  @Main.wf lcg_runtime mundo_main /\
  omp_any Main.N 2 orden_main /\
  wp (Main.main orden_main)
     (fun _ w' =>
        cout w' =
        mk_ostream
          (items (cout mundo_main)
             ++ [Text "Sumando Arreglos en Paralelo (OpenMP)\n"]
             ++ vista "A" (mem w' Main.A)
             ++ vista "B" (mem w' Main.B)
             ++ vista "C (paralelo)" (mem w' Main.C_par)
             ++ linea_estado true
             ++ lineas_tiempo
                  (@clock_now lcg_runtime (1 + clock_reads mundo_main)
                   - @clock_now lcg_runtime (clock_reads mundo_main))
                  (@clock_now lcg_runtime (3 + clock_reads mundo_main)
                   - @clock_now lcg_runtime (2 + clock_reads mundo_main)))
          true 4) mundo_main.
Proof.
  split; [exact wf_mundo_main | split; [exact orden_main_any |]].
  apply (proj1 (proj2 (proj2 (C7_reporte lcg_runtime))) mundo_main 2 orden_main).
  - exact wf_mundo_main.
  - exact orden_main_any.
Defined.

(** ** Sums of values of the range *)

Lemma suma_contrato_en_rango la lb :
  Forall en_rango la -> Forall en_rango lb ->
  Forall (fun v => 2 <= v <= 2000)%Z (suma_contrato la lb) /\
  forall i a b,
    nth_error la i = Some a -> nth_error lb i = Some b ->
    in_int (a + b) /\ nth_error (suma_contrato la lb) i = Some (a + b)%Z.
Proof.
  intros Ha Hb.
  assert (Hcell : forall i a b,
             nth_error la i = Some a -> nth_error lb i = Some b ->
             (2 <= a + b <= 2000)%Z /\ in_int (a + b) /\
             nth_error (suma_contrato la lb) i = Some (a + b)%Z).
  { intros i a b Ea Eb.
    pose proof (proj1 (Forall_forall _ _) Ha a (nth_error_In _ _ Ea)) as Ra.
    pose proof (proj1 (Forall_forall _ _) Hb b (nth_error_In _ _ Eb)) as Rb.
    unfold en_rango in Ra, Rb.
    assert (Hin : in_int (a + b)) by (unfold in_int, INT_MIN, INT_MAX; lia).
    split; [lia | split; [exact Hin |]].
    rewrite nth_error_suma_contrato, Ea, Eb. unfold add_int.
    now rewrite wrap_int_exact. }
  split.
  - apply Forall_prefix_all. intros j x _ Hx.
    rewrite nth_error_suma_contrato in Hx.
    destruct (nth_error la j) as [a|] eqn:Ea; [| discriminate].
    destruct (nth_error lb j) as [b|] eqn:Eb; [| discriminate].
    destruct (Hcell j a b Ea Eb) as (Hr & _ & Hn).
    rewrite nth_error_suma_contrato, Ea, Eb in Hn. congruence.
  - intros i a b Ea Eb. destruct (Hcell i a b Ea Eb) as (_ & Hin & Hn).
    split; assumption.
Qed.

(** C8.  Nothing that runs after the generation writes to [A] or [B]:
    from any world with arrays of the declared length, each of the
    sequential pass, the parallel pass under any schedule, a preview,
    the verification, the report and the whole of lines 66-129 runs
    through and ends in a world whose [A] and [B] are those it started
    with.  The same for the second program. *)
Theorem C8_entradas_inmutables :
  forall (RT : Runtime),
    (forall (w : world Main.var),
        Main.wf w ->
        let intactas := fun (w' : world Main.var) =>
                          mem w' Main.A = mem w Main.A /\
                          mem w' Main.B = mem w Main.B in
        wp Main.suma_secuencial (fun _ w' => intactas w') w /\
        (forall T sigma, omp_any Main.N T sigma ->
                         wp (Main.suma_paralela sigma) (fun _ w' => intactas w') w) /\
        (forall d nombre,
            wp (Main.imprimeArreglo d nombre) (fun _ w' => intactas w') w) /\
        wp Main.comprobacion (fun _ w' => intactas w') w /\
        (forall ts tp, wp (Main.reporte ts tp) (fun _ w' => intactas w') w) /\
        (forall T sigma, omp_any Main.N T sigma ->
                         wp (Main.calculo sigma) (fun _ w' => intactas w') w)) /\
    (forall (w : world Solucion.var),
        Solucion.wf w ->
        let intactas := fun (w' : world Solucion.var) =>
                          mem w' Solucion.A = mem w Solucion.A /\
                          mem w' Solucion.B = mem w Solucion.B in
        wp Solucion.suma_secuencial (fun _ w' => intactas w') w /\
        (forall T sigma, omp_any Solucion.n T sigma ->
                         wp (Solucion.suma_paralela sigma)
                            (fun _ w' => intactas w') w) /\
        (forall titulo d,
            wp (Solucion.imprime titulo d) (fun _ w' => intactas w') w) /\
        (forall ts tp, wp (Solucion.reporte ts tp) (fun _ w' => intactas w') w) /\
        (forall T sigma, omp_any Solucion.n T sigma ->
                         wp (Solucion.calculo sigma)
                            (fun _ w' => intactas w') w)).
Proof.
  intros RT. split.
  - intros w Hwf intactas. unfold intactas. clear intactas.
    split; [| split; [| split; [| split; [| split]]]].
    + eapply wp_mono; [| apply wp_suma_secuencial; exact Hwf].
      intros ? w' (_ & (_ & _ & _ & Hm) & _).
      split; apply Hm; discriminate.
    + intros T sigma Hs.
      eapply wp_mono; [| eapply wp_suma_paralela; [exact Hs | exact Hwf]].
      intros ? w' (_ & (_ & _ & _ & Hm) & _).
      split; apply Hm; discriminate.
    + intros d nombre.
      eapply wp_mono;
        [| apply wp_imprimeArreglo; rewrite Hwf; apply mostrar_le_N].
      intros ? w' (Hm & _). rewrite Hm. split; reflexivity.
    + eapply wp_mono;
        [| apply wp_comprobacion_veredicto; rewrite Hwf; reflexivity].
      intros ? w' (estado & (Hm & _) & _). rewrite Hm. split; reflexivity.
    + intros ts tp.
      eapply wp_mono; [| apply wp_reporte; exact Hwf].
      intros ? w' (_ & Hm & _). rewrite Hm. split; reflexivity.
    + intros T sigma Hs.
      eapply wp_mono; [| eapply wp_calculo; [exact Hs | exact Hwf]].
      intros ? w' (_ & _ & EA & EB & _). split; assumption.
  - intros w Hwf intactas. unfold intactas. clear intactas.
    split; [| split; [| split; [| split]]].
    + eapply wp_mono; [| apply wp_suma_secuencial_solucion; exact Hwf].
      intros ? w' (_ & (_ & _ & _ & Hm) & _).
      split; apply Hm; discriminate.
    + intros T sigma Hs.
      eapply wp_mono;
        [| eapply wp_suma_paralela_solucion; [exact Hs | exact Hwf]].
      intros ? w' (_ & (_ & _ & _ & Hm) & _).
      split; apply Hm; discriminate.
    + intros titulo d.
      eapply wp_mono; [| apply wp_imprime; rewrite Hwf; reflexivity].
      intros ? w' (Hm & _). rewrite Hm. split; reflexivity.
    + intros ts tp.
      eapply wp_mono; [| apply wp_reporte_solucion; exact Hwf].
      intros ? w' (_ & Hm & _). rewrite Hm. split; reflexivity.
    + intros T sigma Hs.
      eapply wp_mono; [| eapply wp_calculo_solucion; [exact Hs | exact Hwf]].
      intros ? w' (_ & _ & EA & EB & _). split; assumption.
Qed.

Lemma C8_witness :
  @Main.wf lcg_runtime mundo_main /\
  omp_any Main.N 2 orden_main /\
  wp (Main.calculo orden_main)
     (fun _ w' => mem w' Main.A = mem mundo_main Main.A /\
                  mem w' Main.B = mem mundo_main Main.B) mundo_main.
Proof.
  split; [exact wf_mundo_main | split; [exact orden_main_any |]].
  pose proof (proj1 (C8_entradas_inmutables lcg_runtime)
                    mundo_main wf_mundo_main) as H.
  cbv zeta in H. destruct H as (_ & _ & _ & _ & _ & H).
  exact (H 2 orden_main orden_main_any).
Defined.

(** C9.  When every cell of [A] and [B] holds a value of [1, 1000],
    every cell of both result arrays holds a value of [2, 2000]; each
    sum [A[i] + B[i]] is an [int], so the addition does not wrap and the
    cell holds the mathematical sum.  In particular this is so at the
    end of [main], whose inputs are the generator's.  Both programs. *)
Theorem C9_sumas_en_rango :
  forall (RT : Runtime),
    (forall (w : world Main.var) T sigma,
        Main.wf w -> omp_any Main.N T sigma ->
        Forall en_rango (mem w Main.A) -> Forall en_rango (mem w Main.B) ->
        wp (Main.suma_secuencial ;; Main.suma_paralela sigma)
           (fun _ w' =>
              Forall (fun v => 2 <= v <= 2000)%Z (mem w' Main.C_seq) /\
              Forall (fun v => 2 <= v <= 2000)%Z (mem w' Main.C_par) /\
              forall i a b,
                nth_error (mem w Main.A) i = Some a ->
                nth_error (mem w Main.B) i = Some b ->
                in_int (a + b) /\ add_int a b = (a + b)%Z /\
                nth_error (mem w' Main.C_seq) i = Some (a + b)%Z /\
                nth_error (mem w' Main.C_par) i = Some (a + b)%Z) w) /\
    (forall (w : world Main.var) T sigma,
        Main.wf w -> omp_any Main.N T sigma ->
        wp (Main.main sigma)
           (fun _ w' =>
              Forall (fun v => 2 <= v <= 2000)%Z (mem w' Main.C_seq) /\
              Forall (fun v => 2 <= v <= 2000)%Z (mem w' Main.C_par)) w) /\
    (forall (w : world Solucion.var) T sigma,
        Solucion.wf w -> omp_any Solucion.n T sigma ->
        Forall en_rango (mem w Solucion.A) ->
        Forall en_rango (mem w Solucion.B) ->
        wp (Solucion.suma_secuencial ;; Solucion.suma_paralela sigma)
           (fun _ w' =>
              Forall (fun v => 2 <= v <= 2000)%Z (mem w' Solucion.R) /\
              Forall (fun v => 2 <= v <= 2000)%Z (mem w' Solucion.Rpar) /\
              forall i a b,
                nth_error (mem w Solucion.A) i = Some a ->
                nth_error (mem w Solucion.B) i = Some b ->
                in_int (a + b) /\ add_int a b = (a + b)%Z /\
                nth_error (mem w' Solucion.R) i = Some (a + b)%Z /\
                nth_error (mem w' Solucion.Rpar) i = Some (a + b)%Z) w) /\
    (forall (w : world Solucion.var) T sigma,
        Solucion.wf w -> omp_any Solucion.n T sigma ->
        wp (Solucion.main sigma)
           (fun _ w' =>
              Forall (fun v => 2 <= v <= 2000)%Z (mem w' Solucion.R) /\
              Forall (fun v => 2 <= v <= 2000)%Z (mem w' Solucion.Rpar)) w).
Proof.
  intros RT. split; [| split; [| split]].
  - intros w T sigma Hwf Hs HA HB.
    destruct (suma_contrato_en_rango HA HB) as (Hall & Hcell).
    apply wp_bind.
    eapply wp_mono; [| apply wp_suma_secuencial; exact Hwf].
    intros ? w1 (Hwf1 & (_ & _ & _ & Hm1) & Hseq).
    eapply wp_mono; [| eapply wp_suma_paralela; [exact Hs | exact Hwf1]].
    intros ? w2 (Hwf2 & (_ & _ & _ & Hm2) & Hpar).
    rewrite !Hm1 in Hpar by discriminate.
    rewrite Hm2, Hseq, Hpar by discriminate.
    split; [exact Hall | split; [exact Hall |]].
    intros i a b Ea Eb. destruct (Hcell i a b Ea Eb) as (Hin & Hn).
    split; [exact Hin | split; [| split; exact Hn]].
    unfold add_int. now apply wrap_int_exact.
  - intros w T sigma Hwf Hs.
    eapply wp_mono; [| eapply wp_main; [exact Hs | exact Hwf]].
    intros ? w' (_ & _ & HA & HB & -> & -> & _).
    destruct (suma_contrato_en_rango HA HB) as (Hall & _).
    split; exact Hall.
  - intros w T sigma Hwf Hs HA HB.
    destruct (suma_contrato_en_rango HA HB) as (Hall & Hcell).
    apply wp_bind.
    eapply wp_mono; [| apply wp_suma_secuencial_solucion; exact Hwf].
    intros ? w1 (Hwf1 & (_ & _ & _ & Hm1) & Hseq).
    eapply wp_mono;
      [| eapply wp_suma_paralela_solucion; [exact Hs | exact Hwf1]].
    intros ? w2 (Hwf2 & (_ & _ & _ & Hm2) & Hpar).
    rewrite !Hm1 in Hpar by discriminate.
    rewrite Hm2, Hseq, Hpar by discriminate.
    split; [exact Hall | split; [exact Hall |]].
    intros i a b Ea Eb. destruct (Hcell i a b Ea Eb) as (Hin & Hn).
    split; [exact Hin | split; [| split; exact Hn]].
    unfold add_int. now apply wrap_int_exact.
  - intros w T sigma Hwf Hs.
    eapply wp_mono; [| eapply wp_main_solucion; [exact Hs | exact Hwf]].
    intros ? w' (_ & _ & HA & HB & -> & -> & _).
    destruct (suma_contrato_en_rango HA HB) as (Hall & _).
    split; exact Hall.
Qed.

Lemma C9_witness :
  @Main.wf lcg_runtime mundo_sietes /\
  omp_any Main.N 2 orden_main /\
  Forall en_rango (mem mundo_sietes Main.A) /\
  Forall en_rango (mem mundo_sietes Main.B) /\
  wp (Main.suma_secuencial ;; Main.suma_paralela orden_main)
     (fun _ w' =>
        Forall (fun v => 2 <= v <= 2000)%Z (mem w' Main.C_seq) /\
        Forall (fun v => 2 <= v <= 2000)%Z (mem w' Main.C_par) /\
        forall i a b,
          nth_error (mem mundo_sietes Main.A) i = Some a ->
          nth_error (mem mundo_sietes Main.B) i = Some b ->
          in_int (a + b) /\ add_int a b = (a + b)%Z /\
          nth_error (mem w' Main.C_seq) i = Some (a + b)%Z /\
          nth_error (mem w' Main.C_par) i = Some (a + b)%Z) mundo_sietes.
Proof.
  split; [exact wf_mundo_sietes | split; [exact orden_main_any |]].
  split; [apply sietes_en_rango | split; [apply sietes_en_rango |]].
  apply (proj1 (C9_sumas_en_rango lcg_runtime) mundo_sietes 2 orden_main).
  - exact wf_mundo_sietes.
  - exact orden_main_any.
  - apply sietes_en_rango.
  - apply sietes_en_rango.
Defined.

(** C10.  No array access of either program leaves its array.  Every
    access of the embedding is checked and has no result outside the
    array, so this is to say that the programs run through: [main] of
    main.cpp returns a result from the world it starts in, whatever the
    stack held, whatever the seed, for any team size and any order
    [schedule(static, chunk)] allows; so does [main] of the second
    program under any schedule; and [imprimeArreglo], which reads the
    indices below [mostrar = 10], runs through on any array of length
    [N = 1000]. *)
Theorem C10_accesos_en_rango :
  forall (RT : Runtime),
    (forall stack seeded T sigma,
        1 <= T -> omp_static Main.N Main.chunk T sigma ->
        exists code w',
          Main.main sigma (Main.start stack seeded) = Some (code, w')) /\
    (forall seeded T sigma,
        omp_any Solucion.n T sigma ->
        exists code w',
          Solucion.main sigma (Solucion.start seeded) = Some (code, w')) /\
    (forall (w : world Main.var) d nombre,
        length (mem w d) = Main.N ->
        exists w', Main.imprimeArreglo d nombre w = Some (tt, w')) /\
    Main.mostrar <= Main.N.
Proof.
  intros RT. split; [| split; [| split]].
  - intros stack seeded T sigma HT Hs.
    assert (Hc : 1 <= Main.chunk) by (apply Nat.leb_le; reflexivity).
    destruct (@wp_main RT T sigma (Main.start stack seeded)
                       (omp_static_any Hc HT Hs) (wf_start stack seeded))
      as (code & w' & Hrun & _).
    exists code, w'. exact Hrun.
  - intros seeded T sigma Hs.
    destruct (@wp_main_solucion RT T sigma (Solucion.start seeded)
                                Hs (wf_start_solucion seeded))
      as (code & w' & Hrun & _).
    exists code, w'. exact Hrun.
  - intros w d nombre Hlen.
    destruct (@wp_imprimeArreglo RT d nombre w) as ([] & w' & Hrun & _).
    + rewrite Hlen. apply mostrar_le_N.
    + exists w'. exact Hrun.
  - apply mostrar_le_N.
Qed.

Lemma C10_witness :
  1 <= 2 /\
  omp_static Main.N Main.chunk 2 orden_main /\
  exists code w', Main.main orden_main mundo_main = Some (code, w').
Proof.
  split; [lia | split; [exact orden_main_static |]].
  apply (proj1 (C10_accesos_en_rango lcg_runtime)
               (fun _ i => Z.of_nat i) 42%Z 2 orden_main).
  - lia.
  - exact orden_main_static.
Defined.

(** ** Runs on concrete inputs *)

(** The checks are real: a preview of an array shorter than [mostrar],
    or an iteration outside [0, N), has no result. *)
Example imprimeArreglo_fuera_de_rango :
  match Main.imprimeArreglo Main.C_seq "C" mundo_corto with
  | None => True
  | Some _ => False
  end.
Proof. vm_compute. exact I. Qed.

Example suma_paralela_fuera_de_rango :
  match Main.suma_paralela [Main.N] mundo_main with
  | None => True
  | Some _ => False
  end.
Proof. vm_compute. exact I. Qed.

(** The verification of [mundo_corto], whose arrays end before [N]. *)
Example comprobacion_mundo_corto :
  match Main.comprobacion mundo_corto with
  | Some (correcto, w') =>
      correcto = false /\
      items (cout w') = linea_error 1 7 8 ++ linea_estado false
  | None => False
  end.
Proof. vm_compute. split; reflexivity. Qed.

(** Two threads, chunks of 100 out of 1000: thread 0 has the chunks
    0, 2, 4, 6, 8 and thread 1 the others. *)
Example static_schedule_main :
  map (fun l => (hd 0 l, length l)) (static_schedule Main.N Main.chunk 2)
  = [(0, 500); (100, 500)]
  /\ firstn 3 (skipn 99 (hd [] (static_schedule Main.N Main.chunk 2)))
     = [99; 200; 201].
Proof. vm_compute. split; reflexivity. Qed.

Example static_schedule_3_de_10 :
  static_schedule 10 3 2 = [[0; 1; 2; 6; 7; 8]; [3; 4; 5; 9]].
Proof. reflexivity. Qed.

(** ** Further properties of the two programs *)

(** *** Who runs which iteration *)

(** X1.  Under [schedule(static, c)] with a team of [T], iteration [i]
    of [0, n) is in the work list of thread [(i / c) mod T] and of no
    other: chunks of [c] consecutive iterations, dealt round-robin. *)
Theorem static_schedule_owner :
  forall n c T t i,
    1 <= c -> 1 <= T ->
    (In i (thread_iterations n c T t) <-> i < n /\ (i / c) mod T = t).
Proof.
  intros n c T t i Hc HT. unfold thread_iterations, thread_chunks.
  rewrite in_flat_map. split.
  - intros (k & Hk & Hi). apply filter_In in Hk as (Hk & Hmod).
    apply Nat.eqb_eq in Hmod. unfold chunk_iterations in Hi.
    apply in_seq in Hi as (Hlo & Hhi).
    assert (Hn : i < n) by lia. split; [exact Hn |].
    assert (Hq : i / c = k).
    { symmetry. apply (Nat.div_unique i c k (i - k * c)); lia. }
    now rewrite Hq.
  - intros (Hn & Hmod). exists (i / c).
    pose proof (Nat.Div0.mul_div_le i c) as Hle.
    pose proof (Nat.mul_succ_div_gt i c ltac:(lia)) as Hgt.
    pose proof (num_chunks_enough n Hc) as Hnum.
    split.
    + apply filter_In. split; [| now apply Nat.eqb_eq].
      apply in_seq. split; [lia |]. cbn [Nat.add]. nia.
    + unfold chunk_iterations. apply in_seq. lia.
Qed.

Lemma static_schedule_owner_witness :
  1 <= 100 /\ 1 <= 2 /\
  (In 250 (thread_iterations 1000 100 2 0) <->
   250 < 1000 /\ (250 / 100) mod 2 = 0).
Proof.
  split; [lia | split; [lia |]].
  apply (@static_schedule_owner 1000 100 2 0 250); lia.
Defined.

(** *** What the generation loops leave *)

Lemma sorteo_succ {RT : Runtime} k g :
  sorteo_A (S k) g
  = sorteo_A k g ++ [fst (uniform_int_distribution 1 1000 (sorteo_gen k g))] /\
  sorteo_B (S k) g
  = sorteo_B k g
      ++ [fst (uniform_int_distribution
                 1 1000
                 (snd (uniform_int_distribution 1 1000 (sorteo_gen k g))))] /\
  sorteo_gen (S k) g
  = snd (uniform_int_distribution
           1 1000 (snd (uniform_int_distribution 1 1000 (sorteo_gen k g)))).
Proof.
  unfold sorteo_A, sorteo_B, sorteo_gen. cbn [sorteo].
  destruct (sorteo k g) as [[la lb] g1]. cbn [fst snd].
  destruct (uniform_int_distribution 1 1000 g1) as [x g2]. cbn [fst snd].
  destruct (uniform_int_distribution 1 1000 g2) as [y g3]. cbn [fst snd].
  repeat split.
Qed.

Lemma sorteo_length {RT : Runtime} k g :
  length (sorteo_A k g) = k /\ length (sorteo_B k g) = k.
Proof.
  induction k as [| k [IHa IHb]]; [split; reflexivity |].
  destruct (sorteo_succ k g) as (-> & -> & _).
  rewrite !length_app, IHa, IHb. cbn. lia.
Qed.

(** Every value drawn is in the range of the distribution. *)
Lemma sorteo_en_rango {RT : Runtime} k g :
  Forall en_rango (sorteo_A k g) /\ Forall en_rango (sorteo_B k g).
Proof.
  induction k as [| k [IHa IHb]]; [split; constructor |].
  destruct (sorteo_succ k g) as (-> & -> & _).
  split; apply Forall_app; split; try assumption;
    constructor; try constructor;
    apply uniform_int_distribution_range; lia.
Qed.

Lemma firstn_upd_nth_before k i x (l : array) :
  k <= i -> firstn k (upd_nth i x l) = firstn k l.
Proof.
  revert k i. induction l as [| h t IH]; intros [| k] [| i] Hk; cbn;
    try reflexivity; try lia.
  f_equal. apply IH. lia.
Qed.

Lemma firstn_upd_nth_snoc k x (l : array) :
  k < length l -> firstn (S k) (upd_nth k x l) = firstn k l ++ [x].
Proof.
  intros Hk.
  rewrite (@firstn_succ (upd_nth k x l) k x)
    by (apply nth_error_upd_nth_eq; exact Hk).
  now rewrite firstn_upd_nth_before.
Qed.

Lemma repeat_snoc (x : Z) k : repeat x (S k) = repeat x k ++ [x].
Proof. induction k as [| k IH]; [reflexivity |]. cbn in *. now rewrite <- IH. Qed.

Ltac mem_simpl :=
  repeat first [ rewrite mem_set_mem_eq
               | rewrite mem_set_mem_neq by discriminate
               | progress cbn [mem] ].

Section GeneracionFacts.

Context {RT : Runtime}.

(** A draw, kept track of exactly. *)
Lemma wp_dist_exacto {var : Type} a b Q (w : world var) :
  Q (fst (uniform_int_distribution a b (gen w)))
    (mk_world (mem w) (cout w)
              (snd (uniform_int_distribution a b (gen w))) (clock_reads w)) ->
  wp (dist a b) Q w.
Proof.
  intros HQ. unfold wp, dist.
  destruct (uniform_int_distribution a b (gen w)) as [x g].
  eexists x, _. split; [reflexivity | exact HQ].
Qed.

Lemma wp_conj {var : Type} X (m : M var X) Q1 Q2 (w : world var) :
  wp m Q1 w -> wp m Q2 w -> wp m (fun x w' => Q1 x w' /\ Q2 x w') w.
Proof.
  intros (x & w' & Hm & H1) (x2 & w2 & Hm2 & H2).
  rewrite Hm in Hm2. injection Hm2 as <- <-.
  exists x, w'. auto.
Qed.

(** Lines 53-59 of main.cpp, exactly: [A] and [B] are the draws of [N]
    rounds, the two result arrays are zero, the engine has made [2 N]
    draws, and nothing else has changed. *)
Lemma inicializacion_exacta (w : world Main.var) :
  Main.wf w ->
  wp Main.inicializacion
     (fun _ w' =>
        mem w' Main.A = sorteo_A Main.N (gen w) /\
        mem w' Main.B = sorteo_B Main.N (gen w) /\
        mem w' Main.C_seq = repeat 0%Z Main.N /\
        mem w' Main.C_par = repeat 0%Z Main.N /\
        gen w' = sorteo_gen Main.N (gen w) /\
        cout w' = cout w /\ clock_reads w' = clock_reads w) w.
Proof.
  intros Hwf. unfold Main.inicializacion.
  eapply wp_mono;
    [| apply (wp_for (fun k w' =>
          Main.wf w' /\
          firstn k (mem w' Main.A) = sorteo_A k (gen w) /\
          firstn k (mem w' Main.B) = sorteo_B k (gen w) /\
          firstn k (mem w' Main.C_seq) = repeat 0%Z k /\
          firstn k (mem w' Main.C_par) = repeat 0%Z k /\
          gen w' = sorteo_gen k (gen w) /\
          cout w' = cout w /\ clock_reads w' = clock_reads w))].
  - intros ? w' (Hwf' & HA & HB & HS & HP & Hg & Ho & Hc).
    rewrite firstn_all2 in HA, HB, HS, HP by (rewrite Hwf'; lia). auto 10.
  - lia.
  - split; [exact Hwf |]. repeat split.
  - intros i w1 Hi (Hwf1 & HA & HB & HS & HP & Hg & Ho & Hc).
    destruct (sorteo_succ i (gen w)) as (EA & EB & EG).
    apply wp_bind, wp_dist_exacto.
    apply wp_bind, wp_store; [cbn; rewrite Hwf1; lia |].
    apply wp_bind, wp_dist_exacto.
    apply wp_bind, wp_store; [cbn; rewrite Hwf1; lia |].
    apply wp_bind, wp_store; [cbn; rewrite Hwf1; lia |].
    apply wp_store; [cbn; rewrite Hwf1; lia |].
    split; [| split; [| split; [| split; [| split; [| split; [| split]]]]]].
    + intros v. destruct v; cbn; try rewrite upd_nth_length; apply Hwf1.
    + mem_simpl. rewrite firstn_upd_nth_snoc by (rewrite Hwf1; lia).
      now rewrite HA, EA, Hg.
    + mem_simpl. rewrite firstn_upd_nth_snoc by (rewrite Hwf1; lia).
      now rewrite HB, EB, Hg.
    + mem_simpl. rewrite firstn_upd_nth_snoc by (rewrite Hwf1; lia).
      now rewrite HS, repeat_snoc.
    + mem_simpl. rewrite firstn_upd_nth_snoc by (rewrite Hwf1; lia).
      now rewrite HP, repeat_snoc.
    + cbn [gen set_mem]. now rewrite EG, Hg.
    + exact Ho.
    + exact Hc.
Qed.

(** Lines 40-43 of the second program, exactly. *)
Lemma generacion_exacta (w : world Solucion.var) :
  Solucion.wf w ->
  wp Solucion.generacion
     (fun _ w' =>
        mem w' Solucion.A = sorteo_A Solucion.n (gen w) /\
        mem w' Solucion.B = sorteo_B Solucion.n (gen w) /\
        mem w' Solucion.R = mem w Solucion.R /\
        mem w' Solucion.Rpar = mem w Solucion.Rpar /\
        gen w' = sorteo_gen Solucion.n (gen w) /\
        cout w' = cout w /\ clock_reads w' = clock_reads w) w.
Proof.
  intros Hwf. unfold Solucion.generacion.
  eapply wp_mono;
    [| apply (wp_for (fun k w' =>
          Solucion.wf w' /\
          firstn k (mem w' Solucion.A) = sorteo_A k (gen w) /\
          firstn k (mem w' Solucion.B) = sorteo_B k (gen w) /\
          mem w' Solucion.R = mem w Solucion.R /\
          mem w' Solucion.Rpar = mem w Solucion.Rpar /\
          gen w' = sorteo_gen k (gen w) /\
          cout w' = cout w /\ clock_reads w' = clock_reads w))].
  - intros ? w' (Hwf' & HA & HB & HS & HP & Hg & Ho & Hc).
    rewrite firstn_all2 in HA, HB by (rewrite Hwf'; lia). auto 10.
  - lia.
  - split; [exact Hwf |]. repeat split.
  - intros i w1 Hi (Hwf1 & HA & HB & HS & HP & Hg & Ho & Hc).
    destruct (sorteo_succ i (gen w)) as (EA & EB & EG).
    apply wp_bind, wp_dist_exacto.
    apply wp_bind, wp_store; [cbn; rewrite Hwf1; lia |].
    apply wp_bind, wp_dist_exacto.
    apply wp_store; [cbn; rewrite Hwf1; lia |].
    split; [| split; [| split; [| split; [| split; [| split; [| split]]]]]].
    + intros v. destruct v; cbn; try rewrite upd_nth_length; apply Hwf1.
    + mem_simpl. rewrite firstn_upd_nth_snoc by (rewrite Hwf1; lia).
      now rewrite HA, EA, Hg.
    + mem_simpl. rewrite firstn_upd_nth_snoc by (rewrite Hwf1; lia).
      now rewrite HB, EB, Hg.
    + mem_simpl. exact HS.
    + mem_simpl. exact HP.
    + cbn [gen set_mem]. now rewrite EG, Hg.
    + exact Ho.
    + exact Hc.
Qed.

End GeneracionFacts.

(** X2.  The generation loops fill [A] and [B] with the draws of the
    engine in the order [A[0], B[0], A[1], B[1], ...]: after the loop
    [A] and [B] are the two lists of [sorteo], the engine has made
    exactly the [2 N] draws of [N] rounds, and neither the output nor
    the clock was touched.  Both programs; in the second the result
    vectors are left as they were. *)
Theorem generacion_es_sorteo :
  forall (RT : Runtime),
    (forall (w : world Main.var),
        Main.wf w ->
        wp Main.inicializacion
           (fun _ w' =>
              mem w' Main.A = sorteo_A Main.N (gen w) /\
              mem w' Main.B = sorteo_B Main.N (gen w) /\
              gen w' = sorteo_gen Main.N (gen w) /\
              cout w' = cout w /\ clock_reads w' = clock_reads w) w) /\
    (forall (w : world Solucion.var),
        Solucion.wf w ->
        wp Solucion.generacion
           (fun _ w' =>
              mem w' Solucion.A = sorteo_A Solucion.n (gen w) /\
              mem w' Solucion.B = sorteo_B Solucion.n (gen w) /\
              mem w' Solucion.R = mem w Solucion.R /\
              mem w' Solucion.Rpar = mem w Solucion.Rpar /\
              gen w' = sorteo_gen Solucion.n (gen w) /\
              cout w' = cout w /\ clock_reads w' = clock_reads w) w).
Proof.
  intros RT. split.
  - intros w Hwf.
    eapply wp_mono; [| apply inicializacion_exacta; exact Hwf].
    intros ? w' (HA & HB & _ & _ & Hg & Ho & Hc). auto.
  - intros w Hwf. apply generacion_exacta. exact Hwf.
Qed.

Lemma generacion_es_sorteo_witness :
  @Main.wf lcg_runtime mundo_main /\
  wp Main.inicializacion
     (fun _ w' =>
        mem w' Main.A = @sorteo_A lcg_runtime Main.N (gen mundo_main) /\
        mem w' Main.B = @sorteo_B lcg_runtime Main.N (gen mundo_main) /\
        gen w' = @sorteo_gen lcg_runtime Main.N (gen mundo_main) /\
        cout w' = cout mundo_main /\
        clock_reads w' = clock_reads mundo_main) mundo_main.
Proof.
  split; [exact wf_mundo_main |].
  apply (proj1 (generacion_es_sorteo lcg_runtime) mundo_main).
  exact wf_mundo_main.
Defined.

(** X3.  The initialisation loop of main.cpp leaves both result arrays
    full of zeros, whatever the stack held in them (lines 56-58). *)
Theorem inicializacion_resultados_a_cero :
  forall (RT : Runtime) (w : world Main.var),
    Main.wf w ->
    wp Main.inicializacion
       (fun _ w' =>
          mem w' Main.C_seq = repeat 0%Z Main.N /\
          mem w' Main.C_par = repeat 0%Z Main.N) w.
Proof.
  intros RT w Hwf.
  eapply wp_mono; [| apply inicializacion_exacta; exact Hwf].
  intros ? w' (_ & _ & HS & HP & _). auto.
Qed.

Lemma inicializacion_resultados_a_cero_witness :
  @Main.wf lcg_runtime mundo_fallo /\
  wp Main.inicializacion
     (fun _ w' =>
        mem w' Main.C_seq = repeat 0%Z Main.N /\
        mem w' Main.C_par = repeat 0%Z Main.N) mundo_fallo.
Proof.
  split; [exact wf_mundo_fallo |].
  apply (@inicializacion_resultados_a_cero lcg_runtime mundo_fallo).
  exact wf_mundo_fallo.
Defined.

(** *** What a run prints, from the seed alone *)

Lemma suma_contrato_sumas la lb :
  Forall en_rango la -> Forall en_rango lb -> suma_contrato la lb = sumas la lb.
Proof.
  intros Ha Hb. unfold suma_contrato, sumas. apply map_ext_in.
  intros [x y] Hin. cbn [fst snd].
  pose proof (proj1 (Forall_forall _ _) Ha x (in_combine_l _ _ _ _ Hin)) as Rx.
  pose proof (proj1 (Forall_forall _ _) Hb y (in_combine_r _ _ _ _ Hin)) as Ry.
  unfold en_rango in Rx, Ry. unfold add_int. apply wrap_int_exact.
  unfold in_int, INT_MIN, INT_MAX. lia.
Qed.

Section SalidaFacts.

Context {RT : Runtime}.

(** Nothing after the generation draws from the engine. *)
Lemma calculo_gen T sigma (w : world Main.var) :
  omp_any Main.N T sigma -> Main.wf w ->
  wp (Main.calculo sigma) (fun _ w' => gen w' = gen w) w.
Proof.
  intros Hs Hwf. unfold Main.calculo.
  apply wp_bind, wp_now.
  apply wp_bind.
  eapply wp_mono; [| apply wp_suma_secuencial; exact Hwf].
  intros ? w4 (Hwf4 & (_ & Hg4 & _ & _) & _).
  apply wp_bind, wp_now. apply wp_bind, wp_now.
  apply wp_bind.
  eapply wp_mono; [| eapply wp_suma_paralela; [exact Hs | exact Hwf4]].
  intros ? w7 (Hwf7 & (_ & Hg7 & _ & _) & _).
  apply wp_bind, wp_now.
  eapply wp_mono; [| apply wp_reporte; exact Hwf7].
  intros code w9 (_ & _ & Hg9 & _).
  cbn [gen] in *. congruence.
Qed.

Lemma calculo_gen_solucion T sigma (w : world Solucion.var) :
  omp_any Solucion.n T sigma -> Solucion.wf w ->
  wp (Solucion.calculo sigma) (fun _ w' => gen w' = gen w) w.
Proof.
  intros Hs Hwf. unfold Solucion.calculo.
  apply wp_bind, wp_now.
  apply wp_bind.
  eapply wp_mono; [| apply wp_suma_secuencial_solucion; exact Hwf].
  intros ? w4 (Hwf4 & (_ & Hg4 & _ & _) & _).
  apply wp_bind, wp_now. apply wp_bind, wp_now.
  apply wp_bind.
  eapply wp_mono;
    [| eapply wp_suma_paralela_solucion; [exact Hs | exact Hwf4]].
  intros ? w7 (Hwf7 & (_ & Hg7 & _ & _) & _).
  apply wp_bind, wp_now.
  eapply wp_mono; [| apply wp_reporte_solucion; exact Hwf7].
  intros code w9 (_ & _ & Hg9 & _).
  cbn [gen] in *. congruence.
Qed.

(** The world [main] of main.cpp ends in, in terms of the engine it
    started with. *)
Lemma main_exacto T sigma (w : world Main.var) :
  omp_any Main.N T sigma -> Main.wf w ->
  wp (Main.main sigma)
     (fun code w' =>
        code = 0%Z /\
        mem w' Main.A = sorteo_A Main.N (gen w) /\
        mem w' Main.B = sorteo_B Main.N (gen w) /\
        mem w' Main.C_seq
        = sumas (sorteo_A Main.N (gen w)) (sorteo_B Main.N (gen w)) /\
        mem w' Main.C_par
        = sumas (sorteo_A Main.N (gen w)) (sorteo_B Main.N (gen w)) /\
        gen w' = sorteo_gen Main.N (gen w) /\
        clock_reads w' = 4 + clock_reads w /\
        cout w' =
        mk_ostream
          (items (cout w)
             ++ salida_main
                  (sorteo_A Main.N (gen w)) (sorteo_B Main.N (gen w))
                  (sumas (sorteo_A Main.N (gen w)) (sorteo_B Main.N (gen w)))
                  (linea_estado true)
                  (clock_now (1 + clock_reads w) - clock_now (clock_reads w))
                  (clock_now (3 + clock_reads w)
                   - clock_now (2 + clock_reads w)))
          true 4) w.
Proof.
  intros Hs Hwf.
  destruct (sorteo_en_rango Main.N (gen w)) as (RA & RB).
  pose proof (suma_contrato_sumas RA RB) as Hsum.
  unfold Main.main.
  apply wp_bind. eapply wp_put_after; [apply imprimio_refl |].
  intros w1 (Hm1 & Hg1 & Hc1 & Ho1).
  assert (Hwf1 : Main.wf w1) by (intros v; rewrite Hm1; apply Hwf).
  apply wp_bind.
  eapply wp_mono;
    [| apply wp_conj;
       [apply inicializacion_exacta | apply wp_inicializacion]; exact Hwf1].
  intros ? w2 ((HA & HB & _ & _ & Hg2 & Ho2 & Hc2) & Hwf2 & _).
  rewrite Hg1 in HA, HB, Hg2.
  eapply wp_mono;
    [| apply wp_conj;
       [eapply wp_calculo | eapply calculo_gen]; eassumption].
  intros code w9 ((-> & _ & EA & EB & ES & EP & Hc9 & Ho9) & Hg9).
  rewrite HA in EA. rewrite HB in EB. rewrite HA, HB, Hsum in ES, EP.
  split; [reflexivity |].
  split; [exact EA | split; [exact EB | split; [exact ES | split; [exact EP |]]]].
  split; [congruence | split; [congruence |]].
  rewrite Ho9, EA, EB, EP, Ho2, Ho1, Hc2, Hc1.
  unfold salida_main, emit. cbn [items].
  rewrite <- !app_assoc. reflexivity.
Qed.

Lemma main_exacto_solucion T sigma (w : world Solucion.var) :
  omp_any Solucion.n T sigma -> Solucion.wf w ->
  wp (Solucion.main sigma)
     (fun code w' =>
        code = 0%Z /\
        mem w' Solucion.A = sorteo_A Solucion.n (gen w) /\
        mem w' Solucion.B = sorteo_B Solucion.n (gen w) /\
        mem w' Solucion.R
        = sumas (sorteo_A Solucion.n (gen w)) (sorteo_B Solucion.n (gen w)) /\
        mem w' Solucion.Rpar
        = sumas (sorteo_A Solucion.n (gen w)) (sorteo_B Solucion.n (gen w)) /\
        gen w' = sorteo_gen Solucion.n (gen w) /\
        clock_reads w' = 4 + clock_reads w /\
        cout w' =
        mk_ostream
          (items (cout w)
             ++ salida_solucion
                  (sorteo_A Solucion.n (gen w)) (sorteo_B Solucion.n (gen w))
                  (sumas (sorteo_A Solucion.n (gen w))
                         (sorteo_B Solucion.n (gen w)))
                  (clock_now (1 + clock_reads w) - clock_now (clock_reads w))
                  (clock_now (3 + clock_reads w)
                   - clock_now (2 + clock_reads w)))
          true 4) w.
Proof.
  intros Hs Hwf.
  destruct (sorteo_en_rango Solucion.n (gen w)) as (RA & RB).
  pose proof (suma_contrato_sumas RA RB) as Hsum.
  unfold Solucion.main.
  apply wp_bind.
  eapply wp_mono;
    [| apply wp_conj;
       [apply generacion_exacta | apply wp_generacion]; exact Hwf].
  intros ? w2 ((HA & HB & _ & _ & Hg2 & Ho2 & Hc2) & Hwf2 & _).
  eapply wp_mono;
    [| apply wp_conj;
       [eapply wp_calculo_solucion | eapply calculo_gen_solucion];
       eassumption].
  intros code w9 ((-> & _ & EA & EB & ES & EP & Hc9 & Ho9) & Hg9).
  rewrite HA in EA. rewrite HB in EB. rewrite HA, HB, Hsum in ES, EP.
  split; [reflexivity |].
  split; [exact EA | split; [exact EB | split; [exact ES | split; [exact EP |]]]].
  split; [congruence | split; [congruence |]].
  rewrite Ho9, EA, EB, EP, Ho2, Hc2. reflexivity.
Qed.

End SalidaFacts.

(** X4.  What a run prints is fixed by the seed and the clock.  From
    its start world [main] of main.cpp prints the previews of the [A]
    and [B] drawn from the seed, then the preview of their mathematical
    sums (so each number of the third line is the sum of the numbers
    above it), the OK line and the two durations; neither the stack
    content nor the schedule shows.  The second program prints the
    whole of the drawn vectors and of their sums. *)
Theorem salida_por_semilla :
  forall (RT : Runtime),
    (forall stack seeded T sigma,
        omp_any Main.N T sigma ->
        wp (Main.main sigma)
           (fun code w' =>
              code = 0%Z /\
              cout w' =
              mk_ostream
                (salida_main
                   (sorteo_A Main.N seeded) (sorteo_B Main.N seeded)
                   (sumas (sorteo_A Main.N seeded) (sorteo_B Main.N seeded))
                   (linea_estado true)
                   (clock_now 1 - clock_now 0) (clock_now 3 - clock_now 2))
                true 4)
           (Main.start stack seeded)) /\
    (forall seeded T sigma,
        omp_any Solucion.n T sigma ->
        wp (Solucion.main sigma)
           (fun code w' =>
              code = 0%Z /\
              cout w' =
              mk_ostream
                ([Text "Arreglo A: "]
                   ++ muestra (sorteo_A Solucion.n seeded) ++ [Endl]
                   ++ [Text "Arreglo B: "]
                   ++ muestra (sorteo_B Solucion.n seeded) ++ [Endl]
                   ++ [Text "Arreglo Resultado (Paralelo): "]
                   ++ muestra (sumas (sorteo_A Solucion.n seeded)
                                     (sorteo_B Solucion.n seeded))
                   ++ [Endl]
                   ++ lineas_tiempo (clock_now 1 - clock_now 0)
                                    (clock_now 3 - clock_now 2))
                true 4)
           (Solucion.start seeded)).
Proof.
  intros RT. split.
  - intros stack seeded T sigma Hs.
    eapply wp_mono;
      [| eapply main_exacto; [exact Hs | apply wf_start]].
    intros code w' (-> & _ & _ & _ & _ & _ & _ & Ho).
    split; [reflexivity | exact Ho].
  - intros seeded T sigma Hs.
    eapply wp_mono;
      [| eapply main_exacto_solucion; [exact Hs | apply wf_start_solucion]].
    intros code w' (-> & _ & _ & _ & _ & _ & _ & Ho).
    split; [reflexivity |]. rewrite Ho.
    unfold Solucion.start. cbn [cout gen clock_reads cout_init items app].
    destruct (sorteo_length Solucion.n seeded) as (La & Lb).
    assert (Ls : length (sumas (sorteo_A Solucion.n seeded)
                               (sorteo_B Solucion.n seeded)) = Solucion.n).
    { unfold sumas. rewrite length_map, length_combine, La, Lb.
      apply Nat.min_id. }
    unfold salida_solucion, linea.
    rewrite !firstn_all2 by lia.
    rewrite <- !app_assoc. reflexivity.
Qed.

Lemma salida_por_semilla_witness :
  omp_any Main.N 2 orden_main /\
  wp (Main.main orden_main)
     (fun code w' =>
        code = 0%Z /\
        cout w' =
        mk_ostream
          (salida_main
             (@sorteo_A lcg_runtime Main.N 42%Z)
             (@sorteo_B lcg_runtime Main.N 42%Z)
             (sumas (@sorteo_A lcg_runtime Main.N 42%Z)
                    (@sorteo_B lcg_runtime Main.N 42%Z))
             (linea_estado true)
             (@clock_now lcg_runtime 1 - @clock_now lcg_runtime 0)
             (@clock_now lcg_runtime 3 - @clock_now lcg_runtime 2))
          true 4) mundo_main.
Proof.
  split; [exact orden_main_any |].
  apply (proj1 (salida_por_semilla lcg_runtime)
               (fun _ i => Z.of_nat i) 42%Z 2 orden_main).
  exact orden_main_any.
Defined.



(** *** The precondition of [imprimeArreglo] *)

Section ImprimeArregloFacts.

Context {RT : Runtime} {var : Type} {var_eq : EqDec var}.

(** The printing loop goes wrong as soon as it reaches the end of the
    array. *)
Lemma muestra_loop_fuera (d : var) :
  forall cnt lo (w : world var),
    0 < cnt -> length (mem w d) < lo + cnt ->
    for_each (seq lo cnt)
             (fun x => v <- load d x ;; put (Num v) ;; put (Text " ")) w
    = None.
Proof.
  induction cnt as [| cnt IH]; intros lo w Hpos Hlen; [lia |].
  cbn [seq for_each]. unfold bind at 1. unfold bind at 1.
  unfold load at 1, array_get.
  destruct (nth_error (mem w d) lo) as [v |] eqn:E; [| reflexivity].
  assert (Hlo : lo < length (mem w d))
    by (apply nth_error_Some; congruence).
  cbn [bind put]. apply IH; cbn [mem set_cout]; lia.
Qed.

End ImprimeArregloFacts.

(** X6.  [imprimeArreglo] is given no length: it reads the first
    [mostrar] cells whatever the array.  It runs through exactly when
    the array has at least [mostrar] cells; on a shorter array it reads
    past the end. *)
Theorem imprimeArreglo_necesita_mostrar :
  forall (RT : Runtime) (w : world Main.var) d nombre,
    (exists w', Main.imprimeArreglo d nombre w = Some (tt, w'))
    <-> Main.mostrar <= length (mem w d).
Proof.
  intros RT w d nombre. split.
  - intros (w' & Hrun).
    destruct (Nat.le_gt_cases Main.mostrar (length (mem w d))) as [H | H];
      [exact H | exfalso].
    unfold Main.imprimeArreglo in Hrun.
    cbn [bind put] in Hrun. unfold bind at 1 in Hrun. unfold for_ in Hrun.
    rewrite muestra_loop_fuera in Hrun; [discriminate | |].
    + apply Nat.ltb_lt. reflexivity.
    + cbn [mem set_cout]. lia.
  - intros Hlen.
    destruct (@wp_imprimeArreglo RT d nombre w Hlen) as ([] & w' & Hrun & _).
    exists w'. exact Hrun.
Qed.

(** *** What the verification is good for *)

Lemma nth_error_en_rango (P : Z -> Prop) (l : list Z) i :
  Forall P l -> i < length l -> exists s, nth_error l i = Some s /\ P s.
Proof.
  intros Hall Hi. destruct (nth_error l i) as [s |] eqn:E;
    [| apply nth_error_None in E; lia].
  exists s. split; [reflexivity |].
  exact (proj1 (Forall_forall _ _) Hall s (nth_error_In _ _ E)).
Qed.

(** X7.  The verification of main.cpp catches a lost iteration.  If the
    order in which the parallel loop is run stays within [0, N) but
    leaves some iteration out, [main] still runs through and returns 0.
    For the least iteration [i] left out, with [a] and [b] the values
    of [A[i]] and [B[i]] (each in [1, 1000]): [C_seq[i]] holds [a + b],
    which is at least 2 and at most 2000, [C_par[i]] still holds the 0
    of the initialisation, and what is
    printed is the header, the three previews, the error line for [i]
    showing [a + b] against 0, the status line FALLO and the two timing
    lines. *)
Theorem iteracion_perdida_da_fallo :
  forall (RT : Runtime) (w : world Main.var) sigma,
    Main.wf w ->
    Forall (fun i => i < Main.N) sigma ->
    (exists j, j < Main.N /\ ~ In j sigma) ->
    wp (Main.main sigma)
       (fun code w' =>
          code = 0%Z /\
          exists i a b,
            i < Main.N /\ ~ In i sigma /\ (forall j, j < i -> In j sigma) /\
            nth_error (mem w' Main.A) i = Some a /\ en_rango a /\
            nth_error (mem w' Main.B) i = Some b /\ en_rango b /\
            nth_error (mem w' Main.C_seq) i = Some (a + b)%Z /\
            (2 <= a + b <= 2000)%Z /\
            nth_error (mem w' Main.C_par) i = Some 0%Z /\
            cout w' =
            mk_ostream
              (items (cout w)
                 ++ salida_main
                      (mem w' Main.A) (mem w' Main.B) (mem w' Main.C_par)
                      (linea_error i (a + b) 0 ++ linea_estado false)
                      (clock_now (1 + clock_reads w)
                       - clock_now (clock_reads w))
                      (clock_now (3 + clock_reads w)
                       - clock_now (2 + clock_reads w)))
              true 4) w.
Proof.
  intros RT w sigma Hwf Hran (j0 & Hj0 & Hmiss).
  unfold Main.main.
  apply wp_bind. eapply wp_put_after; [apply imprimio_refl |].
  intros w1 (Hm1 & Hg1 & Hc1 & Ho1).
  assert (Hwf1 : Main.wf w1) by (intros v; rewrite Hm1; apply Hwf).
  apply wp_bind.
  eapply wp_mono;
    [| apply wp_conj;
       [apply inicializacion_exacta | apply wp_inicializacion]; exact Hwf1].
  intros ? w2 ((_ & _ & _ & HP0 & _ & Ho2 & Hc2) & Hwf2 & _ & _ & RA & RB).
  unfold Main.calculo.
  apply wp_bind, wp_now.
  apply wp_bind.
  eapply wp_mono; [| apply wp_suma_secuencial; exact Hwf2].
  intros ? w4 (Hwf4 & (Ho4 & _ & Hc4 & Hm4) & Hseq).
  cbn [mem cout gen clock_reads] in *.
  apply wp_bind, wp_now. apply wp_bind, wp_now.
  apply wp_bind. unfold Main.suma_paralela, omp_parallel_for.
  eapply wp_mono;
    [| apply (@sum_loop_spec RT Main.var _ Main.A Main.B Main.C_par Main.N);
       [discriminate | discriminate | exact Hran | apply Hwf4 ..]].
  intros ? w7 ((Ho7 & _ & Hc7 & Hm7) & Hlen7 & Hpar).
  cbn [mem cout gen clock_reads] in *.
  assert (Hwf7 : Main.wf w7).
  { intros v. destruct (eq_dec v Main.C_par) as [-> | Hv]; [exact Hlen7 |].
    rewrite Hm7 by exact Hv. apply Hwf4. }
  apply wp_bind, wp_now.
  eapply wp_mono; [| apply wp_reporte; exact Hwf7].
  cbn [mem cout gen clock_reads].
  intros code w9 (-> & Hm9 & _ & _ & correcto & estado & Hv & Ho9).
  split; [reflexivity |].
  (* the arrays the verification compared *)
  assert (EA : mem w7 Main.A = mem w2 Main.A)
    by (rewrite Hm7, Hm4 by discriminate; reflexivity).
  assert (EB : mem w7 Main.B = mem w2 Main.B)
    by (rewrite Hm7, Hm4 by discriminate; reflexivity).
  set (SC := suma_contrato (mem w2 Main.A) (mem w2 Main.B)) in *.
  assert (ES : mem w7 Main.C_seq = SC).
  { rewrite Hm7 by discriminate. exact Hseq. }
  destruct (suma_contrato_en_rango RA RB) as (_ & Hcell). fold SC in Hcell.
  assert (Hin : forall i, In i sigma ->
                          nth_error (mem w7 Main.C_par) i = nth_error SC i).
  { intros i Hi. rewrite Hpar.
    apply existsb_eqb_In in Hi. rewrite Hi.
    rewrite !Hm4 by discriminate. reflexivity. }
  assert (Hout : forall i, i < Main.N -> ~ In i sigma ->
                           nth_error (mem w7 Main.C_par) i = Some 0%Z).
  { intros i Hi Hno. rewrite Hpar.
    destruct (existsb (Nat.eqb i) sigma) eqn:E;
      [apply existsb_eqb_In in E; contradiction |].
    rewrite Hm4, HP0 by discriminate. now apply nth_error_repeat. }
  assert (Hsc : forall i, i < Main.N ->
                          exists a b,
                            nth_error (mem w2 Main.A) i = Some a /\
                            en_rango a /\
                            nth_error (mem w2 Main.B) i = Some b /\
                            en_rango b /\
                            nth_error SC i = Some (a + b)%Z).
  { intros i Hi.
    destruct (@nth_error_en_rango en_rango (mem w2 Main.A) i RA)
      as (a & Ea & Ra); [rewrite Hwf2; exact Hi |].
    destruct (@nth_error_en_rango en_rango (mem w2 Main.B) i RB)
      as (b & Eb & Rb); [rewrite Hwf2; exact Hi |].
    exists a, b. split; [exact Ea | split; [exact Ra |]].
    split; [exact Eb | split; [exact Rb |]].
    exact (proj2 (Hcell i a b Ea Eb)). }
  rewrite ES in Hv.
  destruct Hv as [(Hall' & _) | (i & s & p & Hdif & _ & ->)].
  - exfalso. destruct (Hsc j0 Hj0) as (a & b & _ & Ra & _ & Rb & Es).
    specialize (Hall' j0 Hj0). rewrite Es, (Hout j0 Hj0 Hmiss) in Hall'.
    injection Hall' as E. unfold en_rango in Ra, Rb. lia.
  - destruct Hdif as (Hi & Es & Ep & Hne & Hbefore).
    destruct (Hsc i Hi) as (a & b & Ea & Ra & Eb & Rb & Es').
    rewrite Es in Es'. injection Es' as ->.
    assert (Hno : ~ In i sigma).
    { intros Hi'. rewrite (Hin i Hi'), Es in Ep. congruence. }
    rewrite (Hout i Hi Hno) in Ep. injection Ep as <-.
    exists i, a, b.
    split; [exact Hi | split; [exact Hno | split]].
    + intros j Hj.
      destruct (in_dec Nat.eq_dec j sigma) as [Hyes | Hnot]; [exact Hyes |].
      exfalso.
      destruct (Hsc j ltac:(lia)) as (aj & bj & _ & Raj & _ & Rbj & Esj).
      specialize (Hbefore j Hj).
      rewrite Esj, (Hout j ltac:(lia) Hnot) in Hbefore.
      injection Hbefore as E. unfold en_rango in Raj, Rbj. lia.
    + rewrite Hm9.
      split; [rewrite EA; exact Ea | split; [exact Ra |]].
      split; [rewrite EB; exact Eb | split; [exact Rb |]].
      split; [rewrite ES; exact Es |].
      split; [unfold en_rango in Ra, Rb; lia |].
      split; [exact (Hout i Hi Hno) |].
      rewrite Ho9, Ho7, Ho4, Hc7, Hc4, Ho2, Hc2, Ho1, Hc1.
      unfold salida_main, emit. cbn [items].
      rewrite <- !app_assoc. reflexivity.
Qed.

Lemma iteracion_perdida_da_fallo_witness :
  @Main.wf lcg_runtime mundo_main /\
  Forall (fun i => i < Main.N) (seq 1 (Main.N - 1)) /\
  (exists j, j < Main.N /\ ~ In j (seq 1 (Main.N - 1))) /\
  wp (Main.main (seq 1 (Main.N - 1)))
     (fun code w' =>
        code = 0%Z /\
        exists i a b,
          i < Main.N /\ ~ In i (seq 1 (Main.N - 1)) /\
          (forall j, j < i -> In j (seq 1 (Main.N - 1))) /\
          nth_error (mem w' Main.A) i = Some a /\ en_rango a /\
          nth_error (mem w' Main.B) i = Some b /\ en_rango b /\
          nth_error (mem w' Main.C_seq) i = Some (a + b)%Z /\
          (2 <= a + b <= 2000)%Z /\
          nth_error (mem w' Main.C_par) i = Some 0%Z /\
          cout w' =
          mk_ostream
            (items (cout mundo_main)
               ++ salida_main
                    (mem w' Main.A) (mem w' Main.B) (mem w' Main.C_par)
                    (linea_error i (a + b) 0 ++ linea_estado false)
                    (@clock_now lcg_runtime (1 + clock_reads mundo_main)
                     - @clock_now lcg_runtime (clock_reads mundo_main))
                    (@clock_now lcg_runtime (3 + clock_reads mundo_main)
                     - @clock_now lcg_runtime (2 + clock_reads mundo_main)))
            true 4)
     mundo_main.
Proof.
  assert (Hran : Forall (fun i => i < Main.N) (seq 1 (Main.N - 1))).
  { apply Forall_forall. intros i Hi. apply in_seq in Hi.
    change Main.N with 1000 in *. lia. }
  assert (Hmiss : exists j, j < Main.N /\ ~ In j (seq 1 (Main.N - 1))).
  { exists 0. split; [apply Nat.ltb_lt; reflexivity |].
    intros Hi. apply in_seq in Hi. lia. }
  split; [exact wf_mundo_main | split; [exact Hran | split; [exact Hmiss |]]].
  exact (@iteracion_perdida_da_fallo lcg_runtime mundo_main
                                     (seq 1 (Main.N - 1))
                                     wf_mundo_main Hran Hmiss).
Defined.

(** *** Each cell of the result is written once *)

Section EscriturasFacts.

Context {RT : Runtime} {var : Type} {var_eq : EqDec var}.

Variables a b c : var.

(** A step of a thread is its next access carried out on the memory. *)
Lemma paso_hilo_siguiente (h h' : hilo) (w w' : world var) :
  paso_hilo a b c h w h' w' <->
  exists ac k r,
    siguiente a b c h = Some (ac, k) /\ efectua ac w = Some (r, w') /\
    h' = k r.
Proof.
  split.
  - intros [i resto w0 x Hl | i resto w0 x y Hl | i resto w0 w1 x y Hs].
    + exists (Lee a i), (fun x => (LeidoA x, i :: resto)), x.
      split; [reflexivity | split; [exact Hl | reflexivity]].
    + exists (Lee b i), (fun y => (LeidoAB x y, i :: resto)), y.
      split; [reflexivity | split; [exact Hl | reflexivity]].
    + exists (Escribe c i (add_int x y)), (fun _ => (Inicio, resto)),
             (add_int x y).
      split; [reflexivity | split; [| reflexivity]].
      cbn [efectua]. unfold bind. rewrite Hs. reflexivity.
  - intros (ac & k & r & Hs & He & ->).
    destruct h as [[| x | x y] [| i resto]]; cbn [siguiente] in Hs;
      try discriminate; injection Hs as <- <-; cbn [efectua] in He.
    + destruct (load_inv _ _ _ He) as (-> & _). apply paso_lee_a. exact He.
    + destruct (load_inv _ _ _ He) as (-> & _). apply paso_lee_b. exact He.
    + unfold bind, ret in He.
      destruct (store c i (add_int x y) w) as [[[] w1] |] eqn:E;
        [| discriminate].
      injection He as <- <-. apply paso_escribe. exact E.
Qed.

(** The runs of the team are the runs with a log, one access a step. *)
Lemma pasos_corrida m (e e' : list hilo * world var) :
  pasos a b c m e e' <->
  exists log, length log = m /\ corrida a b c log e e'.
Proof.
  split.
  - induction 1 as [e | m e1 e2 e3 Hp _ (log & Hlen & IH)].
    + exists []. split; [reflexivity | constructor].
    + destruct Hp as [antes h h' despues w w' Hh].
      apply paso_hilo_siguiente in Hh as (ac & k & r & Hs & He & ->).
      exists (ac :: log). split; [cbn [length]; congruence |].
      econstructor; eassumption.
  - intros (log & <- & Hrun).
    induction Hrun as [e | antes h despues w ac k r w' e3 log Hs He _ IH];
      [constructor |].
    cbn [length]. econstructor; [| exact IH].
    constructor. apply paso_hilo_siguiente. exists ac, k, r. auto.
Qed.

(** The memory after a run is the memory before it with the logged
    stores replayed, array by array. *)
Lemma corrida_memoria log (e e' : list hilo * world var) :
  corrida a b c log e e' ->
  forall d, mem (snd e') d = aplica (escrituras d log) (mem (snd e) d).
Proof.
  induction 1 as [e | antes h despues w ac k r w' e3 log Hs He _ IH];
    intros d; [reflexivity |].
  rewrite IH. cbn [snd].
  destruct ac as [v i | v i x]; cbn [efectua escrituras] in *.
  - destruct (load_inv _ _ _ He) as (-> & _). reflexivity.
  - unfold bind, ret in He.
    destruct (store v i x w) as [[[] w1] |] eqn:E; [| discriminate].
    injection He as <- <-. apply store_inv in E as (_ & ->).
    destruct (eq_dec v d) as [-> | Hne].
    + unfold aplica. cbn [fold_left fst snd]. rewrite mem_set_mem_eq.
      reflexivity.
    + rewrite mem_set_mem_neq by congruence. reflexivity.
Qed.

(** Only [c] is stored into. *)
Lemma corrida_solo_c log (e e' : list hilo * world var) :
  corrida a b c log e e' ->
  forall d, d <> c -> escrituras d log = [].
Proof.
  induction 1 as [e | antes h despues w ac k r w' e3 log Hs He _ IH];
    intros d Hd; [reflexivity |].
  destruct h as [[| x | x y] [| i resto]]; cbn [siguiente] in Hs;
    try discriminate; injection Hs as <- <-; cbn [escrituras];
    try (apply IH; exact Hd).
  destruct (eq_dec c d) as [E | _]; [congruence | apply IH; exact Hd].
Qed.

(** The cells of [c] stored into so far and the iterations still to run
    make up the iterations the team started with. *)
Lemma corrida_reparte log (e e' : list hilo * world var) :
  corrida a b c log e e' ->
  Permutation (map fst (escrituras c log) ++ pendientes e') (pendientes e).
Proof.
  induction 1 as [e | antes h despues w ac k r w' e3 log Hs He _ IH];
    [apply Permutation_refl |].
  rewrite pendientes_app in *.
  destruct h as [[| x | x y] [| i resto]]; cbn [siguiente] in Hs;
    try discriminate; injection Hs as <- <-; cbn [escrituras snd] in *;
    try exact IH.
  destruct (eq_dec c c) as [_ | Hne]; [| congruence].
  cbn [map fst app].
  transitivity (i :: concat (map snd antes)
                  ++ resto ++ concat (map snd despues));
    [apply perm_skip; exact IH | apply Permutation_middle].
Qed.

End EscriturasFacts.

(** X8.  In the parallel loop no cell of the result is stored into
    twice, by the same thread or by two (source line 89: each thread
    writes a position of its own).  At the grain of single accesses, a
    run of the team from the start of the loop is logged by the loads
    and stores it carries out on the memory, one a step.  Whatever the
    run: the arrays it ends with are those it started with after the
    logged stores, replayed in order; no store goes to an array other
    than the result; the cells of the result stored into are distinct;
    and once every thread is done they are the cells of [0, N), each
    stored into exactly once.  A run to the end exists.  For main.cpp
    under [schedule(static, c)] with any chunk size and team size, for
    the second program under any distribution of the iterations. *)
Theorem cada_celda_se_escribe_una_vez :
  forall (RT : Runtime),
    (forall (w : world Main.var) c T,
        Main.wf w -> 1 <= c -> 1 <= T ->
        (forall log e,
            corrida Main.A Main.B Main.C_par log
                    (arranque (static_schedule Main.N c T) w) e ->
            (forall d, mem (snd e) d = aplica (escrituras d log) (mem w d)) /\
            (forall d, d <> Main.C_par -> escrituras d log = []) /\
            NoDup (map fst (escrituras Main.C_par log)) /\
            (terminado e ->
             Permutation (map fst (escrituras Main.C_par log))
                         (seq 0 Main.N))) /\
        (forall m e,
            pasos Main.A Main.B Main.C_par m
                  (arranque (static_schedule Main.N c T) w) e <->
            exists log,
              length log = m /\
              corrida Main.A Main.B Main.C_par log
                      (arranque (static_schedule Main.N c T) w) e) /\
        (exists log e,
            corrida Main.A Main.B Main.C_par log
                    (arranque (static_schedule Main.N c T) w) e /\
            terminado e)) /\
    (forall (w : world Solucion.var) works,
        Solucion.wf w ->
        Permutation (concat works) (seq 0 Solucion.n) ->
        (forall log e,
            corrida Solucion.A Solucion.B Solucion.Rpar log
                    (arranque works w) e ->
            (forall d, mem (snd e) d = aplica (escrituras d log) (mem w d)) /\
            (forall d, d <> Solucion.Rpar -> escrituras d log = []) /\
            NoDup (map fst (escrituras Solucion.Rpar log)) /\
            (terminado e ->
             Permutation (map fst (escrituras Solucion.Rpar log))
                         (seq 0 Solucion.n))) /\
        (forall m e,
            pasos Solucion.A Solucion.B Solucion.Rpar m (arranque works w) e <->
            exists log,
              length log = m /\
              corrida Solucion.A Solucion.B Solucion.Rpar log
                      (arranque works w) e) /\
        (exists log e,
            corrida Solucion.A Solucion.B Solucion.Rpar log
                    (arranque works w) e /\
            terminado e)).
Proof.
  intros RT.
  assert (Hgen : forall (var : Type) (var_eq : EqDec var) (a b c : var)
                        (n : nat) (w : world var) works,
             c <> a -> c <> b ->
             length (mem w a) = n -> length (mem w b) = n ->
             length (mem w c) = n ->
             Permutation (concat works) (seq 0 n) ->
             (forall log e,
                 corrida a b c log (arranque works w) e ->
                 (forall d, mem (snd e) d
                            = aplica (escrituras d log) (mem w d)) /\
                 (forall d, d <> c -> escrituras d log = []) /\
                 NoDup (map fst (escrituras c log)) /\
                 (terminado e ->
                  Permutation (map fst (escrituras c log)) (seq 0 n))) /\
             (forall m e,
                 pasos a b c m (arranque works w) e <->
                 exists log,
                   length log = m /\ corrida a b c log (arranque works w) e) /\
             (exists log e,
                 corrida a b c log (arranque works w) e /\ terminado e)).
  { intros var var_eq a b c n w works Hca Hcb Ha Hb Hc Hperm.
    split; [| split].
    - intros log e Hrun.
      split; [exact (corrida_memoria Hrun) |].
      split; [exact (corrida_solo_c Hrun) |].
      apply corrida_reparte in Hrun.
      rewrite pendientes_arranque in Hrun.
      assert (Hall : Permutation (map fst (escrituras c log) ++ pendientes e)
                                 (seq 0 n))
        by (etransitivity; eassumption).
      split.
      + apply (NoDup_app_remove_r _ (pendientes e)).
        apply (Permutation_NoDup (Permutation_sym Hall)), seq_NoDup.
      + intros Hfin. rewrite (terminado_pendientes Hfin), app_nil_r in Hall.
        exact Hall.
    - intros m e. apply pasos_corrida.
    - destruct (@equipo_seguro _ _ _ a b c n w works Hca Hcb Ha Hb Hc Hperm)
        as (_ & e & Hps & Hfin).
      apply pasos_corrida in Hps as (log & _ & Hrun).
      exists log, e. split; assumption. }
  split.
  - intros w c T Hwf Hc HT.
    apply Hgen; try discriminate; try apply Hwf.
    apply static_schedule_partition; assumption.
  - intros w works Hwf Hperm.
    apply Hgen; try discriminate; try apply Hwf. exact Hperm.
Qed.

Lemma cada_celda_se_escribe_una_vez_witness :
  @Main.wf lcg_runtime mundo_main /\ 1 <= Main.chunk /\ 1 <= 2 /\
  (forall log e,
      corrida Main.A Main.B Main.C_par log
              (arranque (static_schedule Main.N Main.chunk 2) mundo_main) e ->
      (forall d, mem (snd e) d
                 = aplica (escrituras d log) (mem mundo_main d)) /\
      (forall d, d <> Main.C_par -> escrituras d log = []) /\
      NoDup (map fst (escrituras Main.C_par log)) /\
      (terminado e ->
       Permutation (map fst (escrituras Main.C_par log)) (seq 0 Main.N))) /\
  (exists log e,
      corrida Main.A Main.B Main.C_par log
              (arranque (static_schedule Main.N Main.chunk 2) mundo_main) e /\
      terminado e).
Proof.
  assert (Hc : 1 <= Main.chunk) by (apply Nat.leb_le; reflexivity).
  split; [exact wf_mundo_main | split; [exact Hc | split; [lia |]]].
  pose proof (proj1 (cada_celda_se_escribe_una_vez lcg_runtime)
                    mundo_main Main.chunk 2 wf_mundo_main Hc
                    (le_S 1 1 (le_n 1))) as (H1 & _ & H3).
  split; [exact H1 | exact H3].
Defined.

(** *** The two passes do not depend on each other *)

(** X9.  In main.cpp the sequential and the parallel pass can be run in
    either order with the same outcome, and running the parallel pass a
    second time, under another schedule, changes nothing: each pass
    reads only [A] and [B] and writes only its own result array. *)
Theorem pasadas_independientes :
  forall (RT : Runtime) (w : world Main.var) T sigma T' sigma',
    Main.wf w -> omp_any Main.N T sigma -> omp_any Main.N T' sigma' ->
    exists w1 w2 w3 w4,
      (Main.suma_secuencial ;; Main.suma_paralela sigma) w = Some (tt, w1) /\
      (Main.suma_paralela sigma ;; Main.suma_secuencial) w = Some (tt, w2) /\
      Main.suma_paralela sigma w = Some (tt, w3) /\
      (Main.suma_paralela sigma ;; Main.suma_paralela sigma') w
      = Some (tt, w4) /\
      mismo_mundo w1 w2 /\ mismo_mundo w3 w4.
Proof.
  intros RT w T sigma T' sigma' Hwf Hs Hs'.
  destruct (wp_suma_secuencial Hwf)
    as ([] & ws & Es & Hwfs & (Hos & Hgs & Hcs & Hms) & Hseq).
  destruct (wp_suma_paralela Hs Hwfs)
    as ([] & w1 & E1 & _ & (Ho1 & Hg1 & Hc1 & Hm1) & Hpar1).
  destruct (wp_suma_paralela Hs Hwf)
    as ([] & w3 & E3 & Hwf3 & (Ho3 & Hg3 & Hc3 & Hm3) & Hpar3).
  destruct (wp_suma_secuencial Hwf3)
    as ([] & w2 & E2 & _ & (Ho2 & Hg2 & Hc2 & Hm2) & Hseq2).
  destruct (wp_suma_paralela Hs' Hwf3)
    as ([] & w4 & E4 & _ & (Ho4 & Hg4 & Hc4 & Hm4) & Hpar4).
  exists w1, w2, w3, w4.
  split; [unfold bind; rewrite Es; exact E1 |].
  split; [unfold bind; rewrite E3; exact E2 |].
  split; [exact E3 |].
  split; [unfold bind; rewrite E3; exact E4 |].
  split.
  - split; [congruence | split; [congruence | split; [congruence |]]].
    intros v. destruct v.
    + rewrite Hm1, Hms, Hm2, Hm3 by discriminate. reflexivity.
    + rewrite Hm1, Hms, Hm2, Hm3 by discriminate. reflexivity.
    + rewrite Hm1, Hseq, Hseq2, !Hm3 by discriminate. reflexivity.
    + rewrite Hpar1, !Hms, Hm2, Hpar3 by discriminate. reflexivity.
  - split; [congruence | split; [congruence | split; [congruence |]]].
    intros v. destruct v.
    + rewrite Hm4 by discriminate. reflexivity.
    + rewrite Hm4 by discriminate. reflexivity.
    + rewrite Hm4 by discriminate. reflexivity.
    + rewrite Hpar4, Hpar3, !Hm3 by discriminate. reflexivity.
Qed.

Lemma pasadas_independientes_witness :
  @Main.wf lcg_runtime mundo_sietes /\
  omp_any Main.N 2 orden_main /\
  exists w1 w2 w3 w4,
    (Main.suma_secuencial ;; Main.suma_paralela orden_main) mundo_sietes
    = Some (tt, w1) /\
    (Main.suma_paralela orden_main ;; Main.suma_secuencial) mundo_sietes
    = Some (tt, w2) /\
    Main.suma_paralela orden_main mundo_sietes = Some (tt, w3) /\
    (Main.suma_paralela orden_main ;; Main.suma_paralela orden_main)
      mundo_sietes
    = Some (tt, w4) /\
    mismo_mundo w1 w2 /\ mismo_mundo w3 w4.
Proof.
  split; [exact wf_mundo_sietes | split; [exact orden_main_any |]].
  exact (@pasadas_independientes lcg_runtime mundo_sietes
           2 orden_main 2 orden_main
           wf_mundo_sietes orden_main_any orden_main_any).
Defined.
